(** * Move evaluation and search engine of ingenious-rl

    A shallow embedding of [code/game/strategy.py] and of the parts of
    [code/learn/representation.py] the strategies rely on, followed by the
    properties established about them.

    Conventions.
    - Python integers are [Z]; array positions and lengths are [nat].
    - A one-dimensional numpy array is a [list]; a two-dimensional array is
      a list of rows.  numpy arrays are rectangular, lists of rows need not
      be: where the source indexes a row the model reads [0] outside the
      row, and the theorems say which shapes they rely on.
    - A Python exception is [None].
    - The rules engine ([game.board], [game.player], [game.utils]) is not part
      of the sources at hand.  Its operations are the fields of the class
      [Rules] below; every definition and theorem is parametric in them. *)

From Stdlib Require Import ZArith QArith Qminmax Lia.
From stdpp Require Import base option list.

#[local] Open Scope Z_scope.

(** ** numpy on integer arrays *)

Module Np.

(** [np.sum] over one axis of an integer array. *)
Definition sum (a : list Z) : Z := foldr Z.add 0 a.

(** [np.max] and [np.min] of a one-dimensional integer array; numpy raises
    [ValueError] on an empty array. *)
Definition max (a : list Z) : option Z :=
  match a with
  | [] => None
  | x :: a' => Some (foldl Z.max x a')
  end.

Definition min (a : list Z) : option Z :=
  match a with
  | [] => None
  | x :: a' => Some (foldl Z.min x a')
  end.

(** [np.argmax] of a one-dimensional integer array: the position of the
    first occurrence of the maximum.  [argmax_from mp max_ind i ip] is the
    scan with running maximum [mp] found at [max_ind], about to read
    position [i]. *)
Fixpoint argmax_from (mp : Z) (max_ind i : nat) (ip : list Z) : nat :=
  match ip with
  | [] => max_ind
  | x :: ip' =>
      if mp <? x then argmax_from x i (S i) ip'
      else argmax_from mp max_ind (S i) ip'
  end.

Definition argmax (a : list Z) : option nat :=
  match a with
  | [] => None
  | mp :: ip => Some (argmax_from mp 0%nat 1%nat ip)
  end.

(** [np.where(a == v)[0]]: the positions holding [v], in increasing order.
    [where_eq_from i] numbers the first element [i]. *)
Fixpoint where_eq_from (i : nat) (a : list Z) (v : Z) : list nat :=
  match a with
  | [] => []
  | x :: a' =>
      if x =? v then i :: where_eq_from (S i) a' v
      else where_eq_from (S i) a' v
  end.

Definition where_eq (a : list Z) (v : Z) : list nat := where_eq_from 0%nat a v.

(** [a[idxs]] for an index array [idxs]; [IndexError] outside the array. *)
Definition take_idxs {A} (a : list A) (idxs : list nat) : option (list A) :=
  mapM (fun i => a !! i) idxs.

(** [row[idxs]] inside a rectangular array, where the positions come from
    an array of the same row length. *)
Definition cols (row : list Z) (idxs : list nat) : list Z :=
  map (fun j => default 0 (row !! j)) idxs.

(** [np.random.randint(low, high)] as a function of the generator's raw
    draw [r]: a value of the half-open range [low, high), [high] excluded;
    [ValueError] when the range is empty. *)
Definition random_randint (low high : Z) (r : nat) : option Z :=
  if high <=? low then None
  else Some (low + Z.of_nat r mod (high - low)).

(** [np.max(a, axis)] at a scalar [a].  The second positional argument of
    [np.max] is the axis to reduce over, not a second operand; on a
    zero-dimensional input numpy accepts the axes [0] and [-1] and returns
    the input, and raises [AxisError] for any other axis. *)
Definition max_scalar (a axis : Z) : option Z :=
  if (axis =? 0) || (axis =? -1) then Some a else None.

End Np.

(** ** The rules engine, as the strategies see it *)

(** A move is a row of eight small integers: two board cells, the two
    colours placed, and the two colours of the tile taken from the deck
    (columns 6 and 7). *)
Definition Move := list Z.

(** The operations of boards, decks, score ledgers and [game.utils] that
    [strategy.py] and [representation.py] call.  None of them is defined in
    the sources at hand, so each is a field.  The mutating methods
    ([update_score], [update_board], [play_tile]) are given as functions
    from the old value of the object to its new value; the store that holds
    the objects is introduced with the search strategies. *)
Class Rules := {
  Board : Type;
  Deck : Type;
  Score : Type;
  Combos : Type;      (* what board.get_all_possible_moves() returns *)
  Tiles : Type;       (* what deck.get_deck() returns *)
  BoardRepr : Type;   (* an 11 x 11 x 8 board state *)
  DeckRepr : Type;    (* a 2 x 6 deck state *)
  NextDeck : Type;    (* a 6 x 2 deck after a tile was played *)
  (* board *)
  get_all_possible_moves : Board -> Combos;
  batch_calculate_move_scores : Board -> list Move -> list (list Z);
  calculate_move_score : Board -> Move -> list Z;
  update_board : Board -> Move -> Board;
  game_is_finished : Board -> bool;
  move_num : Board -> Z;
  board_get_state_copy : Board -> BoardRepr;
  batch_get_updated_states : Board -> list Move -> list BoardRepr;
  (* deck *)
  get_deck : Deck -> Tiles;
  play_tile : Deck -> list Z -> Deck;
  create_dummy_deck : Deck -> Deck;
  deck_get_state_copy : Deck -> DeckRepr;
  batch_peek_next_states : Deck -> list (list Z) -> list DeckRepr;
  batch_peek_next_decks : Deck -> list (list Z) -> list NextDeck;
  (* score *)
  get_score : Score -> list Z;
  get_score_copy : Score -> list Z;
  batch_peek_next_scores : Score -> list (list Z) -> list (list Z) * list Z * list Z;
  update_score : Score -> list Z -> Score * (bool * Z);
  (* free functions *)
  combine_moves_and_deck : Combos -> Tiles -> list Move;
  batch_peek_can_exchange_tiles : list NextDeck -> list (list Z) -> list Z;
  find_winner_fast : list Z -> list Z -> Z;
  get_other_player : Z -> Z
}.

(** ** Heuristic move selection ([strategy.py], lines 37-184) *)

Section Heuristics.
Context {R : Rules}.

(** The candidate batch and the would-be scores after each candidate, as
    every heuristic computes them in its first lines. *)
Definition possible_moves_of (board : Board) (deck : Deck) : list Move :=
  let move_combinations := get_all_possible_moves board in
  combine_moves_and_deck move_combinations (get_deck deck).

Definition updated_scores_of (board : Board) (deck : Deck) (score : Score)
  : list (list Z) :=
  let possible_moves := possible_moves_of board deck in
  let move_scores := batch_calculate_move_scores board possible_moves in
  (batch_peek_next_scores score move_scores).1.1.

(** [np.sum(updated_scores - original_score, axis=1)]: the total score gain
    of every candidate. *)
Definition total_gain (original_score row : list Z) : Z :=
  Np.sum (zip_with Z.sub row original_score).

Definition choose_random_move (board : Board) (deck : Deck) (r : nat)
  : option Move :=
  let possible_moves := possible_moves_of board deck in
  random_idx ← Np.random_randint 0 (Z.of_nat (length possible_moves) - 1) r;
  possible_moves !! Z.to_nat random_idx.

Definition choose_max_scoring_move (board : Board) (deck : Deck) (score : Score)
  : option Move :=
  let possible_moves := possible_moves_of board deck in
  let original_score := get_score score in
  let updated_scores := updated_scores_of board deck score in
  let total_scores_diff := map (total_gain original_score) updated_scores in
  max_index ← Np.argmax total_scores_diff;
  possible_moves !! max_index.

Definition choose_increase_min_move (board : Board) (deck : Deck) (score : Score)
  : option Move :=
  let possible_moves := possible_moves_of board deck in
  let original_score := get_score score in
  min_score ← Np.min original_score;
  let min_idxs := Np.where_eq original_score min_score in
  let updated_move_scores := updated_scores_of board deck score in
  let min_scores := map (fun row => Np.cols row min_idxs) updated_move_scores in
  let total_min_scores := map Np.sum min_scores in
  max_total_min_score ← Np.max total_min_scores;
  if 0 <? max_total_min_score then
    let max_total_min_scores_idxs :=
      Np.where_eq total_min_scores max_total_min_score in
    if (length max_total_min_scores_idxs =? 1)%nat then
      max_index ← max_total_min_scores_idxs !! 0%nat;
      possible_moves !! max_index
    else
      best_moves_so_far ← Np.take_idxs possible_moves max_total_min_scores_idxs;
      best_moves_updated_scores ←
        Np.take_idxs updated_move_scores max_total_min_scores_idxs;
      let total_scores_diff :=
        map (total_gain original_score) best_moves_updated_scores in
      max_index ← Np.argmax total_scores_diff;
      best_moves_so_far !! max_index
  else
    (* Where you can't increase your lowest score just choose max *)
    choose_max_scoring_move board deck score.

(** One entry of [diffs] after the two loops and [diffs -= 36]. *)
Definition deficit (margin other updated : Z) : Z :=
  let d := other - updated + 36 + margin in
  (if d <? 36 then 36 else d) - 36.

Definition total_deficit (margin : Z) (other_score row : list Z) : Z :=
  Np.sum (zip_with (deficit margin) other_score row).

Definition choose_reduce_deficit_move (board : Board) (deck : Deck)
    (score other_score : Score) (margin : Z) : option Move :=
  let possible_moves := possible_moves_of board deck in
  let updated_move_scores := updated_scores_of board deck score in
  let other_score := get_score other_score in
  let total_diffs := map (total_deficit margin other_score) updated_move_scores in
  min_diff ← Np.min total_diffs;
  let min_diff_idxs := Np.where_eq total_diffs min_diff in
  let num_min_diff_moves := length min_diff_idxs in
  if (num_min_diff_moves =? 1)%nat then
    i ← min_diff_idxs !! 0%nat;
    possible_moves !! i
  else
    let original_score := get_score score in
    let total_scores_diff := map (total_gain original_score) updated_move_scores in
    min_diff_subset ← Np.take_idxs total_scores_diff min_diff_idxs;
    max_min_diff_idx ← Np.argmax min_diff_subset;
    moves ← Np.take_idxs possible_moves min_diff_idxs;
    moves !! max_min_diff_idx.

Definition choose_should_exchange (inference : bool) (r : nat) : option bool :=
  if inference then Some true
  else x ← Np.random_randint 0 1 r; Some (x =? 1).

End Heuristics.

(** ** The heuristic strategy objects ([strategy.py], lines 186-254)

    [choose_move] returns [((move, should_exchange), 0.5)].  The arguments
    [turn_of] and [repr_fn] are not used by the heuristic strategies and are
    left out; [r], [r1], [r2] are the raw draws of the random generator that
    the call consumes, in the order it consumes them. *)

Definition Choice : Type := (Move * bool) * Q.

Module RandomStrategy.
Definition choose_move {R : Rules} (board : Board) (deck : Deck)
    (score other_score : Score) (inference : bool) (r1 r2 : nat)
  : option Choice :=
  move ← choose_random_move board deck r1;
  should_exchange ← choose_should_exchange inference r2;
  Some ((move, should_exchange), 1 # 2).
End RandomStrategy.

Module MaxStrategy.
Definition choose_move {R : Rules} (board : Board) (deck : Deck)
    (score other_score : Score) (inference : bool) (r : nat)
  : option Choice :=
  move ← choose_max_scoring_move board deck score;
  should_exchange ← choose_should_exchange inference r;
  Some ((move, should_exchange), 1 # 2).
End MaxStrategy.

Module IncreaseMinStrategy.
Definition choose_move {R : Rules} (board : Board) (deck : Deck)
    (score other_score : Score) (inference : bool) (r : nat)
  : option Choice :=
  move ← choose_increase_min_move board deck score;
  should_exchange ← choose_should_exchange inference r;
  Some ((move, should_exchange), 1 # 2).
End IncreaseMinStrategy.

Module ReduceDeficitStrategy.
Record t := { margin : Z }.
Definition init : t := {| margin := 5 |}.
Definition choose_move {R : Rules} (self : t) (board : Board) (deck : Deck)
    (score other_score : Score) (inference : bool) (r : nat)
  : option Choice :=
  move ← choose_reduce_deficit_move board deck score other_score (margin self);
  should_exchange ← choose_should_exchange inference r;
  Some ((move, should_exchange), 1 # 2).
End ReduceDeficitStrategy.

(** The two schedule-based strategies carry state; [choose_move] returns the
    choice together with the object after the call. *)
Module MixedStrategy3.
Record t := { margin : Z }.
Definition init : t := {| margin := 15 |}.
Definition choose_move {R : Rules} (self : t) (board : Board) (deck : Deck)
    (score other_score : Score) (inference : bool) (r : nat)
  : option (Choice * t) :=
  move ← choose_reduce_deficit_move board deck score other_score (margin self);
  margin' ← Np.max_scalar (margin self - 1) 0;
  let self := {| margin := margin' |} in
  should_exchange ← choose_should_exchange inference r;
  Some (((move, should_exchange), 1 # 2), self).
End MixedStrategy3.

Module MixedStrategy4.
Record t := { margin : Z; count : Z }.
Definition init : t := {| margin := 5; count := 4 |}.
Definition choose_move {R : Rules} (self : t) (board : Board) (deck : Deck)
    (score other_score : Score) (inference : bool) (r : nat)
  : option (Choice * t) :=
  move ← choose_reduce_deficit_move board deck score other_score (margin self);
  self ←
    (if count self =? 0 then
       margin' ← Np.max_scalar (margin self - 1) 0;
       Some {| margin := margin'; count := 4 |}
     else Some {| margin := margin self; count := count self - 1 |});
  should_exchange ← choose_should_exchange inference r;
  Some (((move, should_exchange), 1 # 2), self).
End MixedStrategy4.

(** A game's worth of calls: [calls] lists the arguments of the successive
    calls to [choose_move] on one strategy object; the result is the object
    after the last call and the margins handed to
    [choose_reduce_deficit_move], in call order. *)
Record Call {R : Rules} := {
  call_board : Board;
  call_deck : Deck;
  call_score : Score;
  call_other_score : Score;
  call_inference : bool;
  call_draw : nat
}.

Fixpoint run_mixed3 {R : Rules} (calls : list Call) (self : MixedStrategy3.t)
  : option (list Z * MixedStrategy3.t) :=
  match calls with
  | [] => Some ([], self)
  | c :: calls' =>
      '(_, self') ← MixedStrategy3.choose_move self (call_board c) (call_deck c)
                      (call_score c) (call_other_score c) (call_inference c)
                      (call_draw c);
      '(margins, final) ← run_mixed3 calls' self';
      Some (MixedStrategy3.margin self :: margins, final)
  end.

Fixpoint run_mixed4 {R : Rules} (calls : list Call) (self : MixedStrategy4.t)
  : option (list Z * MixedStrategy4.t) :=
  match calls with
  | [] => Some ([], self)
  | c :: calls' =>
      '(_, self') ← MixedStrategy4.choose_move self (call_board c) (call_deck c)
                      (call_score c) (call_other_score c) (call_inference c)
                      (call_draw c);
      '(margins, final) ← run_mixed4 calls' self';
      Some (MixedStrategy4.margin self :: margins, final)
  end.

(** ** Predicted values: float32 arrays

    The value estimator returns float32 numbers.  Rounding plays no part in
    what follows; what matters is the order of the values and the three
    non-finite ones, so a value is a rational or one of NaN, -inf, +inf,
    compared the IEEE way. *)

Inductive fval :=
| FNaN
| FNegInf
| FFin (q : Q)
| FPosInf.

Module Npf.

Definition isnan (x : fval) : bool :=
  match x with FNaN => true | _ => false end.

Definition isfinite (x : fval) : bool :=
  match x with FFin _ => true | _ => false end.

(** IEEE [x <= y]: false as soon as one side is NaN. *)
Definition le (x y : fval) : bool :=
  match x, y with
  | FNaN, _ | _, FNaN => false
  | FNegInf, _ => true
  | _, FPosInf => true
  | FFin p, FFin q => Qle_bool p q
  | _, _ => false
  end.

(** Unary minus. *)
Definition neg (x : fval) : fval :=
  match x with
  | FNaN => FNaN
  | FNegInf => FPosInf
  | FFin q => FFin (- q)
  | FPosInf => FNegInf
  end.

(** What [run_model] returns: [torch.squeeze] turns a one-row output into a
    zero-dimensional array, any other output into a one-dimensional one. *)
Inductive ndarray :=
| Scalar (v : fval)
| Vector (l : list fval).

Definition squeeze (out : list fval) : ndarray :=
  match out with
  | [v] => Scalar v
  | _ => Vector out
  end.

(** The elements of an array, in order. *)
Definition elems (a : ndarray) : list fval :=
  match a with
  | Scalar v => [v]
  | Vector l => l
  end.

(** [a if a.shape else np.expand_dims(a, 0)]: the shape [()] of a
    zero-dimensional array is the empty tuple, which is false. *)
Definition with_shape (a : ndarray) : list fval :=
  match a with
  | Scalar v => [v]
  | Vector l => l
  end.

(** [a[i]] for an integer [i >= 0]: [IndexError] on a zero-dimensional
    array and outside a one-dimensional one. *)
Definition index (a : ndarray) (i : nat) : option fval :=
  match a with
  | Scalar _ => None
  | Vector l => l !! i
  end.

(** [np.argmax] on floats.  numpy scans from the left and replaces the
    running maximum [mp] by [x] when [not (x <= mp)], so that a NaN wins as
    soon as it is met and ends the scan. *)
Fixpoint argmax_from (mp : fval) (max_ind i : nat) (ip : list fval) : nat :=
  match ip with
  | [] => max_ind
  | x :: ip' =>
      if negb (le x mp) then
        if isnan x then i else argmax_from x i (S i) ip'
      else argmax_from mp max_ind (S i) ip'
  end.

Definition argmax_list (a : list fval) : option nat :=
  match a with
  | [] => None
  | mp :: ip => Some (if isnan mp then 0%nat else argmax_from mp 0%nat 1%nat ip)
  end.

Definition argmax (a : ndarray) : option nat := argmax_list (elems a).

(** [np.max] on a one-dimensional float array: the value that [argmax]
    points at. *)
Definition max (a : list fval) : option fval :=
  i ← argmax_list a; a !! i.

(** Python slices with step 1: a negative bound counts from the end, and
    bounds are clipped to the array. *)
Definition slice_bound (len i : Z) : Z :=
  let i' := if i <? 0 then i + len else i in
  Z.max 0 (Z.min len i').

Definition slice {A} (start stop : Z) (a : list A) : list A :=
  let len := Z.of_nat (length a) in
  let s := slice_bound len start in
  let e := slice_bound len stop in
  take (Z.to_nat (e - s)) (drop (Z.to_nat s) a).

Definition slice_from {A} (start : Z) (a : list A) : list A :=
  drop (Z.to_nat (slice_bound (Z.of_nat (length a)) start)) a.

(** [range(n)] *)
Definition range (n : Z) : list Z := map Z.of_nat (seq 0 (Z.to_nat n)).

End Npf.

(** ** The value estimator and its inputs *)

(** What the learned strategies need from the representation object [r]
    that [repr_fn] returns, from its methods [augment], [normalise],
    [prepare], and from the network [self.model].  [Tensors] stands for the
    four arrays [(board_repr, deck_repr, scores_repr, general_repr)]; the
    augmentation draws from the random generator, whose state is [Rng]. *)
Class Estimator := {
  Repr : Type;
  Tensors : Type;
  Grid : Type;
  Vect : Type;
  Rng : Type;
  repr_tensors : Repr -> Tensors;
  general_repr : Repr -> list (list Z);
  augment : Tensors -> Rng -> Tensors * Rng;
  normalise : Tensors -> Tensors;
  prepare : Tensors -> list Grid * list Vect;
  model : list Grid -> list Vect -> list fval
}.

(** ** Batching glue ([strategy.py], lines 283-314) *)

Section Predict.
Context {E : Estimator}.

Definition run_model (inputs : list Grid * list Vect) : Npf.ndarray :=
  let move_values := model inputs.1 inputs.2 in
  Npf.squeeze move_values.

(** One pass of the loop of [predict_values]. *)
Definition predict_pass (max_batch : Z) (model_inputs : list Grid * list Vect)
    (all_values : list fval) (i : Z) : list fval :=
  let inputs_subset :=
    (Npf.slice (i * max_batch) ((i + 1) * max_batch) model_inputs.1,
     Npf.slice (i * max_batch) ((i + 1) * max_batch) model_inputs.2) in
  let values_subset := run_model inputs_subset in
  let values_subset := Npf.with_shape values_subset in
  all_values ++ values_subset.

(** [ZeroDivisionError] when [max_batch] is 0. *)
Definition predict_values (max_batch : Z) (model_inputs : list Grid * list Vect)
  : option Npf.ndarray :=
  let num_inputs := Z.of_nat (length model_inputs.1) in
  if max_batch =? 0 then None else
  let num_full_minibatches := num_inputs / max_batch in
  let remainder := num_inputs mod max_batch in
  if num_full_minibatches =? 0 then
    Some (run_model model_inputs)
  else
    let all_values := [FFin 0] in
    let num_passes :=
      if 0 <? remainder then num_full_minibatches + 1
      else num_full_minibatches in
    let all_values :=
      foldl (predict_pass max_batch model_inputs) all_values
            (Npf.range num_passes) in
    Some (Npf.Vector (Npf.slice_from 1 all_values)).

End Predict.

(** ** The object store

    Boards, decks and score ledgers are mutable Python objects that the
    search strategies receive by reference, copy, and update in place.  A
    reference is a position in the store; the store also holds the state of
    the random generator that [augment] draws from. *)

Section Store.
Context {R : Rules} {E : Estimator}.

Record World := {
  boards : list Board;
  scores : list Score;
  decks : list Deck;
  rng : Rng
}.

(** Computations that read and update the store and may raise. *)
Definition M (A : Type) : Type := World -> option (A * World).

Definition ret {A} (a : A) : M A := fun w => Some (a, w).

Definition bind {A B} (m : M A) (k : A -> M B) : M B :=
  fun w => match m w with
           | Some (a, w') => k a w'
           | None => None
           end.

Definition lift {A} (o : option A) : M A :=
  fun w => match o with
           | Some a => Some (a, w)
           | None => None
           end.

Definition read_board (r : nat) : M Board := fun w => lift (boards w !! r) w.
Definition read_score (r : nat) : M Score := fun w => lift (scores w !! r) w.
Definition read_deck (r : nat) : M Deck := fun w => lift (decks w !! r) w.

Definition write_board (r : nat) (b : Board) : M unit := fun w =>
  Some (tt, {| boards := <[r := b]> (boards w); scores := scores w;
               decks := decks w; rng := rng w |}).
Definition write_score (r : nat) (s : Score) : M unit := fun w =>
  Some (tt, {| boards := boards w; scores := <[r := s]> (scores w);
               decks := decks w; rng := rng w |}).
Definition write_deck (r : nat) (d : Deck) : M unit := fun w =>
  Some (tt, {| boards := boards w; scores := scores w;
               decks := <[r := d]> (decks w); rng := rng w |}).

(** A new object is placed after the existing ones. *)
Definition alloc_board (b : Board) : M nat := fun w =>
  Some (length (boards w),
        {| boards := boards w ++ [b]; scores := scores w;
           decks := decks w; rng := rng w |}).
Definition alloc_score (s : Score) : M nat := fun w =>
  Some (length (scores w),
        {| boards := boards w; scores := scores w ++ [s];
           decks := decks w; rng := rng w |}).
Definition alloc_deck (d : Deck) : M nat := fun w =>
  Some (length (decks w),
        {| boards := boards w; scores := scores w;
           decks := decks w ++ [d]; rng := rng w |}).

End Store.

Notation "'let*' p ':=' m 'in' k" := (bind m (fun p => k))
  (at level 10, p pattern, m at level 100, k at level 200).

(** ** The learned strategies ([strategy.py], lines 256-495) *)

Section Learned.
Context {R : Rules} {E : Estimator}.

(** Modelled from the spec: [get_copy] and [create_dummy_deck] are methods
    of the rules engine and absent from the sources; the spec has [copy()]
    return an independent object and [create_placeholder_deck] build a
    placeholder deck.  Both are new objects in the store. *)
Definition board_get_copy (board : nat) : M nat :=
  let* b := read_board board in alloc_board b.
Definition score_get_copy (score : nat) : M nat :=
  let* s := read_score score in alloc_score s.
Definition deck_get_copy (deck : nat) : M nat :=
  let* d := read_deck deck in alloc_deck d.
Definition deck_create_dummy_deck (deck : nat) : M nat :=
  let* d := read_deck deck in alloc_deck (create_dummy_deck d).

(** The type of [repr_fn]. *)
Definition ReprFn : Type :=
  Board -> Deck -> Score -> Score -> Z -> list Move -> Repr * list Move.

(** The strategy object: [self.max_batch]; [self.search_n] is the constant
    8 in both search classes. *)
Record RLVanilla := { max_batch : Z }.

Definition search_n : Z := 8.

Definition prepare_model_inputs (r : Repr) : M (list Grid * list Vect) :=
  fun w =>
    let inputs := repr_tensors r in
    let '(inputs, g) := augment inputs (rng w) in
    let inputs := normalise inputs in
    let inputs := prepare inputs in
    Some (inputs, {| boards := boards w; scores := scores w;
                     decks := decks w; rng := g |}).

Definition get_representations (board deck score other_score : nat)
    (turn_of : Z) (repr_fn : ReprFn) : M (Repr * list Move) :=
  let* b := read_board board in
  let* d := read_deck deck in
  let* s := read_score score in
  let* o := read_score other_score in
  let move_combinations := get_all_possible_moves b in
  let possible_moves := combine_moves_and_deck move_combinations (get_deck d) in
  ret (repr_fn b d s o turn_of possible_moves).

(** Lines 323-325, shared by every learned strategy: encode and predict. *)
Definition rank (self : RLVanilla) (board deck score other_score : nat)
    (turn_of : Z) (repr_fn : ReprFn)
  : M (Repr * list Move * Npf.ndarray) :=
  let* (representations, possible_moves_subset) :=
     get_representations board deck score other_score turn_of repr_fn in
  let* model_inputs := prepare_model_inputs representations in
  let* move_values := lift (predict_values (max_batch self) model_inputs) in
  ret (representations, possible_moves_subset, move_values).

(** [move_idx = np.argmax(move_values)], [possible_moves_subset[move_idx]]
    and [move_values[move_idx]]. *)
Definition best_of (possible_moves_subset : list Move) (move_values : Npf.ndarray)
  : M (nat * Move * fval) :=
  let* move_idx := lift (Npf.argmax move_values) in
  let* move := lift (possible_moves_subset !! move_idx) in
  let* move_value := lift (Npf.index move_values move_idx) in
  ret (move_idx, move, move_value).

(** [representations.general_repr[move_idx, 3]] *)
Definition exchange_flag (representations : Repr) (move_idx : nat) : M Z :=
  lift (row ← general_repr representations !! move_idx; row !! 3%nat).

Definition choose_move (self : RLVanilla) (board deck score other_score : nat)
    (turn_of : Z) (repr_fn : ReprFn) : M ((Move * Z) * fval) :=
  let* (representations, possible_moves_subset, move_values) :=
     rank self board deck score other_score turn_of repr_fn in
  let* move_idx := lift (Npf.argmax move_values) in
  let* best_move := lift (possible_moves_subset !! move_idx) in
  let* should_exchange := exchange_flag representations move_idx in
  let* best_move_value := lift (Npf.index move_values move_idx) in
  ret ((best_move, should_exchange), best_move_value).

(** [_RLNPlySearch.mock_move]: every update goes through the references it
    is given. *)
Definition mock_move (chosen_move : Move) (board score deck : nat)
  : M (nat * nat * nat * bool) :=
  let* b := read_board board in
  let move_score := calculate_move_score b chosen_move in
  let* s := read_score score in
  let '(s', (ingenious, _)) := update_score s move_score in
  let* _ := write_score score s' in
  let* _ := write_board board (update_board b chosen_move) in
  let* c6 := lift (chosen_move !! 6%nat) in
  let* c7 := lift (chosen_move !! 7%nat) in
  let tile_to_play := [c6 mod 256; c7 mod 256] in
  let* d := read_deck deck in
  let* _ := write_deck deck (play_tile d tile_to_play) in
  ret (board, score, deck, ingenious).

(** [_RLNPlySearch.mock_turn].  The loop is [while True]; [fuel] bounds the
    number of its iterations, and running out of it is [None]. *)
Fixpoint mock_turn (fuel : nat) (self : RLVanilla)
    (state : nat * nat * nat * nat) (move : Move) (move_value : fval)
    (turn_of : Z) (repr_fn : ReprFn)
  : M ((nat * nat * nat * nat) * bool * fval) :=
  match fuel with
  | O => lift None
  | S fuel' =>
      let '(board, score, other_score, deck) := state in
      let* (board, score, deck, ingenious) :=
         mock_move move board score deck in
      let* b := read_board board in
      if game_is_finished b then
        let* s := read_score score in
        let* o := read_score other_score in
        let p1_score := get_score_copy s in
        let p2_score := get_score_copy o in
        let winner := find_winner_fast p1_score p2_score in
        let move_value := if winner =? turn_of then FFin 1 else FFin (-1) in
        ret ((board, score, other_score, deck), true, move_value)
      else if negb ingenious then
        ret ((board, score, other_score, deck), false, move_value)
      else
        let* (representations, possible_moves_subset, move_values) :=
           rank self board deck score other_score turn_of repr_fn in
        let* (move_idx, move, move_value) :=
           best_of possible_moves_subset move_values in
        mock_turn fuel' self (board, score, other_score, deck) move move_value
                  turn_of repr_fn
  end.

End Learned.

(** [for x in xs: acc = body(acc, x)] in the store monad. *)
Fixpoint for_each {R : Rules} {E : Estimator} {A S : Type} (body : S -> A -> M S)
    (acc : S) (xs : list A) : M S :=
  match xs with
  | [] => ret acc
  | x :: xs' => let* acc' := body acc x in for_each body acc' xs'
  end.

(** [np.argsort] sorts in ascending order with NaN last.  numpy's default
    sort does not fix the order among equal values, so the search strategies
    take the sort as a parameter [argsort]; [stable_argsort] is the instance
    that keeps equal values in their original order. *)
Definition sort_lt (a b : fval) : bool :=
  match a, b with
  | FNaN, _ => false
  | _, FNaN => true
  | _, _ => negb (Npf.le b a)
  end.

Fixpoint insert_sorted (x : nat * fval) (l : list (nat * fval))
  : list (nat * fval) :=
  match l with
  | [] => [x]
  | y :: l' => if sort_lt x.2 y.2 then x :: y :: l' else y :: insert_sorted x l'
  end.

Definition stable_argsort (a : list fval) : list nat :=
  map fst (foldl (fun acc x => insert_sorted x acc) [] (imap (fun i v => (i, v)) a)).

Module RL2PlySearch.
Section Search.
Context {R : Rules} {E : Estimator}.
Variable argsort : list fval -> list nat.

(** The body of the loop over the [num_to_search] best first moves. *)
Definition branch (fuel : nat) (self : RLVanilla)
    (board_original deck_original score_original other_score_original : nat)
    (turn_of : Z) (repr_fn : ReprFn)
    (possible_moves_subset_original : list Move)
    (move_values_original : Npf.ndarray) (top_k_indices : list nat)
    (top_k_values : list fval) (i : Z) : M (list fval) :=
  let* board := board_get_copy board_original in
  let* score := score_get_copy score_original in
  let* other_score := score_get_copy other_score_original in
  let* deck := deck_get_copy deck_original in
  let* move_idx := lift (top_k_indices !! Z.to_nat i) in
  let* move := lift (possible_moves_subset_original !! move_idx) in
  let* move_value := lift (Npf.index move_values_original move_idx) in
  (* Your move *)
  let state := (board, score, other_score, deck) in
  let* (board, score, _, deck, game_finished, move_value) :=
     mock_turn fuel self state move move_value turn_of repr_fn in
  if game_finished : bool then
    ret (<[Z.to_nat i := move_value]> top_k_values)
  else
    (* Other's move *)
    let* dummy := deck_create_dummy_deck deck in
    let* (representations, possible_moves_subset, move_values) :=
       rank self board dummy other_score score (get_other_player turn_of)
            repr_fn in
    let* (move_idx, move, move_value) :=
       best_of possible_moves_subset move_values in
    let* dummy := deck_create_dummy_deck deck in
    let state := (board, other_score, score, dummy) in
    let* (_, _, move_value) :=
       mock_turn fuel self state move move_value (get_other_player turn_of)
                 repr_fn in
    ret (<[Z.to_nat i := Npf.neg move_value]> top_k_values).

Definition choose_move (fuel : nat) (self : RLVanilla)
    (board_original deck_original score_original other_score_original : nat)
    (turn_of : Z) (repr_fn : ReprFn) : M ((Move * Z) * fval) :=
  let* (representations_original, possible_moves_subset_original,
        move_values_original) :=
     rank self board_original deck_original score_original
          other_score_original turn_of repr_fn in
  let num_to_search :=
    Z.min search_n (Z.of_nat (length possible_moves_subset_original)) in
  let top_k_indices :=
    Npf.slice_from (- num_to_search)
                   (argsort (Npf.elems move_values_original)) in
  let top_k_values := replicate (Z.to_nat num_to_search) (FFin 0) in
  let* top_k_values :=
     for_each (branch fuel self board_original deck_original score_original
                      other_score_original turn_of repr_fn
                      possible_moves_subset_original move_values_original
                      top_k_indices)
              top_k_values (Npf.range num_to_search) in
  let* k := lift (Npf.argmax_list top_k_values) in
  let* best_move_idx := lift (top_k_indices !! k) in
  let* best_move_value := lift (Npf.max top_k_values) in
  let* best_move := lift (possible_moves_subset_original !! best_move_idx) in
  let* should_exchange :=
     exchange_flag representations_original best_move_idx in
  ret ((best_move, should_exchange), best_move_value).

End Search.
End RL2PlySearch.

Module RL3PlySearch.
Section Search.
Context {R : Rules} {E : Estimator}.
Variable argsort : list fval -> list nat.

Definition branch (fuel : nat) (self : RLVanilla)
    (board_original deck_original score_original other_score_original : nat)
    (turn_of : Z) (repr_fn : ReprFn)
    (possible_moves_subset_original : list Move)
    (move_values_original : Npf.ndarray) (top_k_indices : list nat)
    (top_k_values : list fval) (i : Z) : M (list fval) :=
  let* board := board_get_copy board_original in
  let* score := score_get_copy score_original in
  let* other_score := score_get_copy other_score_original in
  let* deck := deck_get_copy deck_original in
  let* move_idx := lift (top_k_indices !! Z.to_nat i) in
  let* move := lift (possible_moves_subset_original !! move_idx) in
  let* move_value := lift (Npf.index move_values_original move_idx) in
  (* Your first move *)
  let state := (board, score, other_score, deck) in
  let* (board, score, _, deck, game_finished, move_value) :=
     mock_turn fuel self state move move_value turn_of repr_fn in
  if game_finished : bool then
    ret (<[Z.to_nat i := move_value]> top_k_values)
  else
    (* Other's first move *)
    let* dummy := deck_create_dummy_deck deck in
    let* (representations, possible_moves_subset, move_values) :=
       rank self board dummy other_score score (get_other_player turn_of)
            repr_fn in
    let* (move_idx, move, move_value) :=
       best_of possible_moves_subset move_values in
    let* dummy := deck_create_dummy_deck deck in
    let state := (board, other_score, score, dummy) in
    let* (board, other_score, _, _, game_finished, move_value) :=
       mock_turn fuel self state move move_value (get_other_player turn_of)
                 repr_fn in
    if game_finished : bool then
      ret (<[Z.to_nat i := Npf.neg move_value]> top_k_values)
    else
      (* Your second move *)
      let* (representations, possible_moves_subset, move_values) :=
         rank self board deck score other_score turn_of repr_fn in
      let* (move_idx, move, move_value) :=
         best_of possible_moves_subset move_values in
      let state := (board, score, other_score, deck) in
      let* (_, _, move_value) :=
         mock_turn fuel self state move move_value (get_other_player turn_of)
                   repr_fn in
      ret (<[Z.to_nat i := move_value]> top_k_values).

Definition choose_move (fuel : nat) (self : RLVanilla)
    (board_original deck_original score_original other_score_original : nat)
    (turn_of : Z) (repr_fn : ReprFn) : M ((Move * Z) * fval) :=
  let* (representations_original, possible_moves_subset_original,
        move_values_original) :=
     rank self board_original deck_original score_original
          other_score_original turn_of repr_fn in
  let num_to_search :=
    Z.min search_n (Z.of_nat (length possible_moves_subset_original)) in
  let top_k_indices :=
    Npf.slice_from (- num_to_search)
                   (argsort (Npf.elems move_values_original)) in
  let top_k_values := replicate (Z.to_nat num_to_search) (FFin 0) in
  let* top_k_values :=
     for_each (branch fuel self board_original deck_original score_original
                      other_score_original turn_of repr_fn
                      possible_moves_subset_original move_values_original
                      top_k_indices)
              top_k_values (Npf.range num_to_search) in
  let* k := lift (Npf.argmax_list top_k_values) in
  let* best_move_idx := lift (top_k_indices !! k) in
  let* best_move_value := lift (Npf.max top_k_values) in
  let* best_move := lift (possible_moves_subset_original !! best_move_idx) in
  let* should_exchange :=
     exchange_flag representations_original best_move_idx in
  ret ((best_move, should_exchange), best_move_value).

End Search.
End RL3PlySearch.

(** ** The representation encoder ([representation.py], lines 24-157) *)

(** The field [turn_of_repr] is declared [uint8[:]]; [generate] stores the
    scalar [turn_of] in it and [generate_batched] an array. *)
Inductive turn_array :=
| TurnScalar (turn_of : Z)
| TurnArray (a : list Z).

(** [x.astype(np.uint8)] on an integer. *)
Definition uint8 (x : Z) : Z := x mod 256.

(** Addition on the [int32] field [size]. *)
Definition int32_add (x y : Z) : Z := (x + y + 2 ^ 31) mod 2 ^ 32 - 2 ^ 31.

Module RepresentationsBuffer.
Section Buffer.
Context {R : Rules}.

Record t := {
  version : Z;
  size : Z;
  empty : Z;
  board_repr : list BoardRepr;
  deck_repr : list DeckRepr;
  scores_repr : list (list (list Z));
  general_repr : list (list Z);
  values_repr : list (list Z);
  turn_of_repr : turn_array
}.

(** [__init__] sets the first three fields and assigns no array.  The model
    gives a never-filled buffer empty lists; the setters overwrite them, and
    [combine_reprs], the one method that would hand them to
    [np.concatenate], is modelled as raising on them. *)
Definition init : t :=
  {| version := 1; size := 0; empty := 1;
     board_repr := []; deck_repr := []; scores_repr := [];
     general_repr := []; values_repr := []; turn_of_repr := TurnArray [] |}.

Definition set_single_reprs_from_scratch (self : t) (board_repr' : BoardRepr)
    (deck_repr' : DeckRepr) (scores_repr' : list (list Z))
    (general_repr' : list Z) (turn_of_repr' : Z) (values_repr' : list Z) : t :=
  {| version := version self;
     board_repr := [board_repr'];
     deck_repr := [deck_repr'];
     scores_repr := [scores_repr'];
     general_repr := [general_repr'];
     values_repr := [values_repr'];
     turn_of_repr := TurnScalar turn_of_repr';
     size := int32_add (size self) 1;
     empty := 0 |}.

Definition set_batched_reprs_from_scratch (self : t)
    (board_repr' : list BoardRepr) (deck_repr' : list DeckRepr)
    (scores_repr' : list (list (list Z))) (general_repr' : list (list Z))
    (turn_of_repr' : list Z) (values_repr' : list (list Z)) : t :=
  {| version := version self;
     board_repr := board_repr';
     deck_repr := deck_repr';
     scores_repr := scores_repr';
     general_repr := general_repr';
     values_repr := values_repr';
     turn_of_repr := TurnArray turn_of_repr';
     size := int32_add (size self) (Z.of_nat (length board_repr'));
     empty := 0 |}.

End Buffer.
End RepresentationsBuffer.

Module RepresentationGenerator.
Section Generator.
Context {R : Rules}.

Definition get_new_reprs_buffer : RepresentationsBuffer.t :=
  RepresentationsBuffer.init.

(** [possible_moves[:, 6:8]] *)
Definition tile_columns (possible_moves : list Move) : list (list Z) :=
  map (Npf.slice 6 8) possible_moves.

Definition generate (board : Board) (deck : Deck) (score other_score : Score)
    (ingenious num_ingenious can_exchange should_exchange turn_of : Z)
  : RepresentationsBuffer.t :=
  let board_repr := board_get_state_copy board in
  let deck_repr := deck_get_state_copy deck in
  let scores_repr := [get_score_copy score; get_score_copy other_score] in
  let general_repr :=
    map uint8 [ingenious; num_ingenious; can_exchange;
               should_exchange * can_exchange; move_num board] in
  let values_repr := [0; 0] in
  let new_reprs_buffer := get_new_reprs_buffer in
  RepresentationsBuffer.set_single_reprs_from_scratch new_reprs_buffer
    board_repr deck_repr scores_repr general_repr turn_of values_repr.

(** Row [idx] of [general_repr_dont_exchange] (flag 0) and of
    [general_repr_do_exchange] (flag 1). *)
Definition general_row (board : Board) (flag : Z)
    (ingenious num_ingenious can_exchange : Z) : list Z :=
  [ingenious; num_ingenious; can_exchange; flag; 1 * move_num board].

Definition general_rows (board : Board) (flag : Z)
    (ingenious num_ingenious can_exchange : list Z) : list (list Z) :=
  zip_with (fun f x => f x)
    (zip_with (general_row board flag) ingenious num_ingenious) can_exchange.

(** [np.where(((can == 0) & (should == 0)) | (can == 1))[0]] *)
Fixpoint valid_idxs_from (i : nat) (can_exchange should_exchange : list Z)
  : list nat :=
  match can_exchange, should_exchange with
  | c :: cs, s :: ss =>
      if ((c =? 0) && (s =? 0)) || (c =? 1)
      then i :: valid_idxs_from (S i) cs ss
      else valid_idxs_from (S i) cs ss
  | _, _ => []
  end.

Definition generate_batched (board : Board) (deck : Deck)
    (score other_score : Score) (turn_of : Z) (possible_moves : list Move)
  : option (RepresentationsBuffer.t * list Move) :=
  let b := length possible_moves in
  let board_repr := batch_get_updated_states board possible_moves in
  let deck_repr := batch_peek_next_states deck (tile_columns possible_moves) in
  let move_scores := batch_calculate_move_scores board possible_moves in
  let '(updated_scores, ingenious, num_ingenious) :=
    batch_peek_next_scores score move_scores in
  let next_decks := batch_peek_next_decks deck (tile_columns possible_moves) in
  let can_exchange := batch_peek_can_exchange_tiles next_decks updated_scores in
  let other_score := get_score other_score in
  scores_repr ←
    mapM (fun idx => row ← updated_scores !! idx; Some [row; other_score])
         (seq 0 b);
  (* np.hstack needs b rows in each of its blocks *)
  guard ((length ingenious =? b)%nat && (length num_ingenious =? b)%nat
         && (length can_exchange =? b)%nat = true);;
  let general_repr_dont_exchange :=
    general_rows board 0 ingenious num_ingenious can_exchange in
  let general_repr_do_exchange :=
    general_rows board 1 ingenious num_ingenious can_exchange in
  let possible_moves_stacked := possible_moves ++ possible_moves in
  let board_repr_stacked := board_repr ++ board_repr in
  let deck_repr_stacked := deck_repr ++ deck_repr in
  let scores_repr_stacked := scores_repr ++ scores_repr in
  let general_repr_stacked :=
    general_repr_dont_exchange ++ general_repr_do_exchange in
  let can_exchange_stacked := can_exchange ++ can_exchange in
  let should_exchange_stacked := replicate b 0 ++ replicate b 1 in
  let valid_idxs :=
    valid_idxs_from 0 can_exchange_stacked should_exchange_stacked in
  possible_moves_subset ← Np.take_idxs possible_moves_stacked valid_idxs;
  board_repr_subset ← Np.take_idxs board_repr_stacked valid_idxs;
  deck_repr_subset ← Np.take_idxs deck_repr_stacked valid_idxs;
  scores_repr_subset ← Np.take_idxs scores_repr_stacked valid_idxs;
  general_repr_subset ← Np.take_idxs general_repr_stacked valid_idxs;
  let possible_moves_subset := map (map uint8) possible_moves_subset in
  let scores_repr_subset := map (map (map uint8)) scores_repr_subset in
  let general_repr_subset := map (map uint8) general_repr_subset in
  let turn_of_repr := replicate (length valid_idxs) (uint8 turn_of) in
  let values_repr := replicate (length valid_idxs) [0; 0] in
  let new_reprs_buffer := get_new_reprs_buffer in
  Some (RepresentationsBuffer.set_batched_reprs_from_scratch new_reprs_buffer
          board_repr_subset deck_repr_subset scores_repr_subset
          general_repr_subset turn_of_repr values_repr,
        possible_moves_subset).

End Generator.
End RepresentationGenerator.

(** ** A small rules engine and estimator to run the strategies on

    The game of [Toy] is played with the moves listed in the board: field 0
    of a move is the number of points it scores, field 2 the colour that
    receives them, field 1 a hint that the toy estimator turns into the
    predicted value.  Scores are capped at 18, reaching the cap is the
    scoring event, the game ends after [limit] moves, and the winner is the
    side whose lowest colour is higher. *)

Module Toy.

Record board := {
  played : Z;
  limit : Z;
  placements : list (list Z)
}.

Definition field (m : Move) (i : nat) : Z := default 0 (m !! i).

Definition move_score (m : Move) : list Z :=
  <[Z.to_nat (field m 2) := field m 0]> (replicate 6 0).

Definition next_score (s move_score : list Z) : list Z :=
  zip_with (fun a d => Z.min 18 (a + d)) s move_score.

Definition num_ingenious (s s' : list Z) : Z :=
  Np.sum (zip_with (fun a a' => if (a <? 18) && (a' =? 18) then 1 else 0) s s').

Definition update (s move_score : list Z) : list Z * (bool * Z) :=
  let s' := next_score s move_score in
  (s', (0 <? num_ingenious s s', num_ingenious s s')).

Definition same_tile (t u : list Z) : bool :=
  (length t =? length u)%nat && forallb (fun p => p.1 =? p.2) (zip t u).

Fixpoint remove_tile (d : list (list Z)) (t : list Z) : list (list Z) :=
  match d with
  | [] => []
  | u :: d' => if same_tile t u then d' else u :: remove_tile d' t
  end.

Definition winner (p1_score p2_score : list Z) : Z :=
  let m1 := default 0 (Np.min p1_score) in
  let m2 := default 0 (Np.min p2_score) in
  if m2 <? m1 then 1 else if m1 <? m2 then 2 else 0.

#[export] Instance rules : Rules := {|
  Board := board;
  Deck := list (list Z);
  Score := list Z;
  Combos := list (list Z);
  Tiles := list (list Z);
  BoardRepr := board;
  DeckRepr := list (list Z);
  NextDeck := list (list Z);
  get_all_possible_moves b := placements b;
  batch_calculate_move_scores b ms := map move_score ms;
  calculate_move_score b m := move_score m;
  update_board b m :=
    {| played := played b + 1; limit := limit b; placements := placements b |};
  game_is_finished b := limit b <=? played b;
  move_num b := played b;
  board_get_state_copy b := b;
  batch_get_updated_states b ms :=
    map (fun _ => {| played := played b + 1; limit := limit b;
                     placements := placements b |}) ms;
  get_deck d := d;
  play_tile d t := remove_tile d t;
  create_dummy_deck d := [[0; 0]];
  deck_get_state_copy d := d;
  batch_peek_next_states d ts := map (remove_tile d) ts;
  batch_peek_next_decks d ts := map (remove_tile d) ts;
  get_score s := s;
  get_score_copy s := s;
  batch_peek_next_scores s mss :=
    (map (next_score s) mss,
     map (fun ms => if (update s ms).2.1 then 1 else 0) mss,
     map (fun ms => (update s ms).2.2) mss);
  update_score s ms := update s ms;
  combine_moves_and_deck combos tiles :=
    flat_map (fun c => map (fun t => c ++ t) tiles) combos;
  batch_peek_can_exchange_tiles next_decks updated_scores :=
    map (fun d => if (length d =? 0)%nat then 1 else 0) next_decks;
  find_winner_fast p1 p2 := winner p1 p2;
  get_other_player t := if t =? 1 then 2 else 1
|}.

(** The toy estimator reads the hint of a row: 999 is +inf, 998 is NaN, any
    other hint [h] is the value [h / 100]. *)
Definition value_of (g v : Z) : fval :=
  if g =? 999 then FPosInf
  else if g =? 998 then FNaN
  else FFin (g # 100).

#[export] Instance estimator : Estimator := {|
  Repr := list (Z * list Z);
  Tensors := list Z;
  Grid := Z;
  Vect := Z;
  Rng := nat;
  repr_tensors r := map fst r;
  general_repr r := map snd r;
  augment t g := (t, S g);
  normalise t := t;
  prepare t := (t, t);
  model gs vs := zip_with value_of gs vs
|}.

Definition repr_fn : ReprFn := fun b d s o turn_of possible_moves =>
  (map (fun m => (field m 1, [0; 0; 0; 0; uint8 (played b)])) possible_moves,
   possible_moves).

End Toy.


(** ** Example positions of the toy game *)

Module Examples.
Import Toy.

Definition hand : list (list Z) := [[2; 3]; [2; 3]; [2; 3]].
Definition one_tile : list (list Z) := [[2; 3]].

(** Three moves end the game; the side to move is ahead on every colour. *)
Definition short_game : board :=
  {| played := 0; limit := 3;
     placements := [[1; 60; 0; 0; 0; 0]; [1; 40; 1; 0; 0; 0]] |}.
Definition ahead : list Z := [5; 5; 5; 5; 5; 5].
Definition behind : list Z := [0; 0; 0; 0; 0; 0].
Definition live : World :=
  {| boards := [short_game]; scores := [ahead; behind]; decks := [hand];
     rng := 0%nat |}.
Definition strategy : RLVanilla := {| max_batch := 1024 |}.

(** One colour is capped; one move scores on it, two on other colours. *)
Definition capped_board : board :=
  {| played := 0; limit := 40;
     placements := [[3; 0; 0; 0; 0; 0]; [2; 0; 1; 0; 0; 0]; [2; 0; 2; 0; 0; 0]] |}.
Definition capped : list Z := [18; 0; 0; 0; 0; 0].

(** The opponent leads by 5 on colour 0; one move scores 5 on colour 0,
    the other 10 on colour 1. *)
Definition deficit_board : board :=
  {| played := 0; limit := 40;
     placements := [[5; 0; 0; 0; 0; 0]; [10; 0; 1; 0; 0; 0]] |}.
Definition leader : list Z := [5; 0; 0; 0; 0; 0].

(** One move ends the game.  The estimator predicts 0.6 for the first row
    and NaN for the second; the first move leaves the mover's lowest score
    at 0 and loses, the second lifts it to 3 and wins. *)
Definition undefined_board : board :=
  {| played := 0; limit := 1;
     placements := [[1; 60; 0; 0; 0; 0]; [3; 998; 5; 0; 0; 0]] |}.
Definition undefined_value : World :=
  {| boards := [undefined_board];
     scores := [[5; 5; 5; 5; 5; 0]; [1; 1; 1; 1; 1; 1]];
     decks := [one_tile]; rng := 0%nat |}.

(** A position with one placement and one tile: a batch of one row. *)
Definition forced_board : board :=
  {| played := 0; limit := 40; placements := [[1; 60; 0; 0; 0; 0]] |}.
Definition forced : World :=
  {| boards := [forced_board]; scores := [behind; behind]; decks := [one_tile];
     rng := 0%nat |}.

Definition call : Call :=
  {| call_board := deficit_board; call_deck := one_tile; call_score := behind;
     call_other_score := leader; call_inference := false; call_draw := 0%nat |}.

End Examples.

(** ** Notions used to state the properties *)

(** The sum of the entries of [row] over the colours at which [original]
    holds its least value. *)
Definition min_colour_sum (original row : list Z) : Z :=
  match Np.min original with
  | Some m => Np.sum (zip_with (fun s u => if s =? m then u else 0) original row)
  | None => 0
  end.

(** The would-be scores of a batch, as the data model has them: one entry
    per colour of the mover's score, never below it, never above the cap. *)
Definition post_move_scores_ok (original : list Z) (updated : list (list Z))
  : Prop :=
  Forall (fun row => Forall2 (fun s u => 0 <= s <= u /\ u <= 18) original row)
         updated.

(** What the scan of [np.argmax] settles on.  [first_nan a i v]: [v], at
    position [i], is the first NaN of [a].  [first_max a i v]: [a] holds no
    NaN and [v], at position [i], is the first occurrence of its largest
    value. *)
Definition first_nan (a : list fval) (i : nat) (v : fval) : Prop :=
  a !! i = Some v /\ Npf.isnan v = true /\
  forall j w, (j < i)%nat -> a !! j = Some w -> Npf.isnan w = false.

Definition first_max (a : list fval) (i : nat) (v : fval) : Prop :=
  a !! i = Some v /\
  (forall w, w ∈ a -> Npf.le w v = true) /\
  forall j w, (j < i)%nat -> a !! j = Some w -> Npf.le v w = false.

(** [np.argmax] settles on position [k] of [a], which holds [v]. *)
Definition plain_argmax (a : list fval) (k : nat) (v : fval) : Prop :=
  first_nan a k v \/ first_max a k v.

(** [np.argsort(move_values_original)[-num_to_search:]] and
    [np.zeros(num_to_search)], as the two searches compute them. *)
Definition top_k (argsort : list fval -> list nat) (moves : list Move)
    (values : Npf.ndarray) : list nat :=
  Npf.slice_from (- Z.min search_n (Z.of_nat (length moves)))
                 (argsort (Npf.elems values)).

Definition blank_top_k (moves : list Move) : list fval :=
  replicate (Z.to_nat (Z.min search_n (Z.of_nat (length moves)))) (FFin 0).

Section StoreNotions.
Context {R : Rules} {E : Estimator}.

(** [w'] holds every object of [w], unchanged, and possibly new ones. *)
Definition extends (w w' : World) : Prop :=
  boards w `prefix_of` boards w' /\
  scores w `prefix_of` scores w' /\
  decks w `prefix_of` decks w'.

(** [m], started in any store that extends [w0], ends, if it returns, in a
    store that extends [w0], with a result satisfying [Q]. *)
Definition keeps {A} (w0 : World) (m : M A) (Q : A -> Prop) : Prop :=
  forall w a w', extends w0 w -> m w = Some (a, w') -> extends w0 w' /\ Q a.

(** The four live objects read the same after the call as before. *)
Definition live_state_unchanged (w w' : World)
    (board deck score other_score : nat) : Prop :=
  boards w' !! board = boards w !! board /\
  decks w' !! deck = decks w !! deck /\
  scores w' !! score = scores w !! score /\
  scores w' !! other_score = scores w !! other_score.

(** The rules engine returns arrays with no rows for a batch with no rows. *)
Definition empty_batch_aligned (board : Board) (deck : Deck) (score : Score)
  : Prop :=
  let '(updated_scores, ingenious, num_ingenious) :=
    batch_peek_next_scores score (batch_calculate_move_scores board []) in
  ingenious = [] /\ num_ingenious = [] /\
  batch_peek_can_exchange_tiles (batch_peek_next_decks deck []) updated_scores = [].

End StoreNotions.

(** ** More of [strategy.py]: the remaining heuristics (lines 90-177) *)

Section MoreHeuristics.
Context {R : Rules}.

Definition choose_increase_other_min_move (board : Board) (deck : Deck)
    (score other_score : Score) : option Move :=
  let possible_moves := possible_moves_of board deck in
  let original_score := get_score score in
  let original_other_score := get_score other_score in
  min_score ← Np.min original_other_score;
  let min_idxs := Np.where_eq original_other_score min_score in
  let updated_move_scores := updated_scores_of board deck score in
  let min_scores := map (fun row => Np.cols row min_idxs) updated_move_scores in
  let total_min_scores := map Np.sum min_scores in
  max_total_min_score ← Np.max total_min_scores;
  if 0 <? max_total_min_score then
    let max_total_min_scores_idxs :=
      Np.where_eq total_min_scores max_total_min_score in
    if (length max_total_min_scores_idxs =? 1)%nat then
      max_index ← max_total_min_scores_idxs !! 0%nat;
      possible_moves !! max_index
    else
      best_moves_so_far ← Np.take_idxs possible_moves max_total_min_scores_idxs;
      best_moves_updated_scores ←
        Np.take_idxs updated_move_scores max_total_min_scores_idxs;
      let total_scores_diff :=
        map (total_gain original_score) best_moves_updated_scores in
      max_index ← Np.argmax total_scores_diff;
      best_moves_so_far !! max_index
  else
    choose_increase_min_move board deck score.

Definition choose_mixed_strategy_1_move (board : Board) (deck : Deck)
    (score other_score : Score) (r : nat) : option Move :=
  margin ← Np.random_randint 0 5 r;
  choose_reduce_deficit_move board deck score other_score margin.

(** [r1] is the draw of [idx], [r2] the draw of the strategy it selects.
    A call that matches none of the branches falls off the end of the
    function; the model has no move to return there. *)
Definition choose_mixed_strategy_2_move (board : Board) (deck : Deck)
    (score other_score : Score) (r1 r2 : nat) : option Move :=
  idx ← Np.random_randint 0 5 r1;
  if idx =? 0 then choose_max_scoring_move board deck score
  else if idx =? 1 then choose_increase_min_move board deck score
  else if idx =? 2 then
    choose_increase_other_min_move board deck score other_score
  else if idx =? 3 then
    choose_reduce_deficit_move board deck score other_score 5
  else if idx =? 4 then
    choose_mixed_strategy_1_move board deck score other_score r2
  else if idx =? 5 then choose_random_move board deck r2
  else None.

End MoreHeuristics.

(** ** More of [representation.py]: the buffer (lines 149-178) *)

(** Assignment to the [int32] field [size]. *)
Definition int32 (x : Z) : Z := int32_add x 0.


(** [turn_of_repr[:k]]; a scalar cannot be sliced. *)
Definition slice_turns (k : Z) (a : turn_array) : option turn_array :=
  match a with
  | TurnArray x => Some (TurnArray (Npf.slice 0 k x))
  | TurnScalar _ => None
  end.

Section BufferOps.
Context {R : Rules}.
Import RepresentationsBuffer.



Definition clip_to_size (self : t) (required_size : Z) : option t :=
  turns ← slice_turns required_size (turn_of_repr self);
  Some {| version := version self;
          board_repr := Npf.slice 0 required_size (board_repr self);
          deck_repr := Npf.slice 0 required_size (deck_repr self);
          scores_repr := Npf.slice 0 required_size (scores_repr self);
          general_repr := Npf.slice 0 required_size (general_repr self);
          turn_of_repr := turns;
          values_repr := Npf.slice 0 required_size (values_repr self);
          size := int32 required_size;
          empty := empty self |}.

(** A buffer whose arrays all have [size] rows. *)
Definition rows_match_size (self : t) : Prop :=
  exists turns,
    turn_of_repr self = TurnArray turns /\
    0 <= size self /\
    length (board_repr self) = Z.to_nat (size self) /\
    length (deck_repr self) = Z.to_nat (size self) /\
    length (scores_repr self) = Z.to_nat (size self) /\
    length (general_repr self) = Z.to_nat (size self) /\
    length (values_repr self) = Z.to_nat (size self) /\
    length turns = Z.to_nat (size self).

End BufferOps.

(** ** More of [representation.py]: the hexagonal remap (lines 239-251) *)

Section OffsetGrid.
Context {A : Type}.

(** [offset_grid[:, i, col, :] = cell] for one example of the batch. *)
Definition set_cell (grid : list (list (list A))) (i col : nat) (cell : list A)
  : list (list (list A)) :=
  alter (fun row => <[col := cell]> row) i grid.

(** [board_repr[:, j, i, :]] for one example; [IndexError] outside it. *)
Definition cell_at (board : list (list (list A))) (j i : nat) : option (list A) :=
  row ← board !! j; row !! i.

Section Loops.
Variable get : nat -> nat -> option (list A).

(** The body of the two loops. *)
Definition offset_step (grid : list (list (list A))) (i j : nat)
  : option (list (list (list A))) :=
  if (i mod 2 =? 0)%nat then
    if (j <? 10)%nat then
      cell ← get j i; Some (set_cell grid i (2 * j + 1) cell)
    else Some grid
  else
    cell ← get j i; Some (set_cell grid i (2 * j) cell).

Fixpoint offset_inner (grid : list (list (list A))) (i : nat) (js : list nat)
  : option (list (list (list A))) :=
  match js with
  | [] => Some grid
  | j :: js' => grid' ← offset_step grid i j; offset_inner grid' i js'
  end.

Fixpoint offset_outer (grid : list (list (list A))) (is_ : list nat)
  : option (list (list (list A))) :=
  match is_ with
  | [] => Some grid
  | i :: is' => grid' ← offset_inner grid i (seq 0 11); offset_outer grid' is'
  end.

End Loops.

(** [offset_grid] on one example with [c] channels; [zero] is the 0 of the
    array's dtype.  A batch is a list of examples of one shape, and the
    assignments of the source act on all of them at once. *)
Definition offset_grid_example (c : nat) (zero : A)
    (board : list (list (list A))) : option (list (list (list A))) :=
  offset_outer (cell_at board) (replicate 11 (replicate 21 (replicate c zero)))
               (seq 0 11).

Definition offset_grid (c : nat) (zero : A)
    (board_repr : list (list (list (list A))))
  : option (list (list (list (list A)))) :=
  mapM (offset_grid_example c zero) board_repr.

(** The layout in words: row [i] of the result has 21 columns; on an even
    row the odd columns [2j+1], [j < 10], hold board cell [(j, i)]; on an
    odd row the even columns [2j] hold board cell [(j, i)]; every other
    column holds zeros. *)
Definition offset_layout (c : nat) (zero : A) (f : nat -> nat -> list A)
  : list (list (list A)) :=
  map (fun i =>
         map (fun col =>
                if Nat.even i then
                  if Nat.odd col && (col / 2 <? 10)%nat then f (col / 2)%nat i
                  else replicate c zero
                else
                  if Nat.even col then f (col / 2)%nat i
                  else replicate c zero)
             (seq 0 21))
      (seq 0 11).

End OffsetGrid.

(** ** [train.py]: two schedules (lines 71-74 and 218-239) *)

(** [accumulate_loss_n_times]; [ZeroDivisionError] when the divisor is 0. *)
Definition accumulate_loss_n_times (effective_batch_size max_train_batch_size : Z)
  : option Z :=
  if max_train_batch_size =? 0 then None
  else if effective_batch_size mod max_train_batch_size =? 0 then
    Some (effective_batch_size / max_train_batch_size)
  else Some (effective_batch_size / max_train_batch_size + 1).

(** [step_learning_rate_scheduling].  Learning rates are floats; the model
    leaves their type [LR] open and takes the comparison [x < y] and the
    product [x * 0.1] as given. *)
Section LearningRate.
Variable LR : Type.
Variable lt : LR -> LR -> bool.
Variable times_tenth : LR -> LR.

Record Schedule := {
  steps_since_improvement : Z;
  lr_tracker : LR
}.

Record ScheduleParams := {
  restart_learning_rate : LR;
  lowest_learning_rate : LR;
  reduce_lr_step_threshold : Z
}.

Definition step_learning_rate_scheduling (p : ScheduleParams) (self : Schedule)
    (improved : bool) (elapsed_steps : Z) : Schedule * bool :=
  let steps := steps_since_improvement self + elapsed_steps in
  let self :=
    if improved then
      {| steps_since_improvement := 0;
         lr_tracker :=
           if lt (lr_tracker self) (restart_learning_rate p)
           then restart_learning_rate p else lr_tracker self |}
    else if reduce_lr_step_threshold p <=? steps then
      {| steps_since_improvement := steps;
         lr_tracker := times_tenth (lr_tracker self) |}
    else {| steps_since_improvement := steps; lr_tracker := lr_tracker self |} in
  let finish_training := lt (lr_tracker self) (lowest_learning_rate p) in
  (self, finish_training).

(** Successive calls with [improved=False]. *)
Fixpoint stall (p : ScheduleParams) (self : Schedule) (elapsed : list Z)
  : Schedule :=
  match elapsed with
  | [] => self
  | e :: elapsed' =>
      stall p (step_learning_rate_scheduling p self false e).1 elapsed'
  end.

End LearningRate.

(** ** Notions used to state the further properties *)

Section MoreStoreNotions.
Context {R : Rules} {E : Estimator}.

(** [w'] holds the objects of [w], each with the value it had in [w]: only
    the state of the random generator may differ. *)
Definition same_objects (w w' : World) : Prop :=
  boards w' = boards w /\ scores w' = scores w /\ decks w' = decks w.

(** Whenever [m] returns, the store holds [n] more boards than before. *)
Definition allocates_boards {A} (n : nat) (m : M A) : Prop :=
  forall w a w', m w = Some (a, w') ->
                 length (boards w') = (length (boards w) + n)%nat.

End MoreStoreNotions.

Section EncoderNotions.
Context {R : Rules}.

(** The exchange flags the rules engine computes for a batch, as
    [generate_batched] obtains them. *)
Definition can_exchange_of (board : Board) (deck : Deck) (score : Score)
    (possible_moves : list Move) : list Z :=
  let move_scores := batch_calculate_move_scores board possible_moves in
  let updated_scores := (batch_peek_next_scores score move_scores).1.1 in
  let next_decks :=
    batch_peek_next_decks deck
      (RepresentationGenerator.tile_columns possible_moves) in
  batch_peek_can_exchange_tiles next_decks updated_scores.

(** The rules engine answers a batch of [b] moves with arrays of [b] rows,
    and its exchange flags are 0 or 1. *)
Definition batch_aligned (board : Board) (deck : Deck) (score : Score)
    (possible_moves : list Move) : Prop :=
  let b := length possible_moves in
  let move_scores := batch_calculate_move_scores board possible_moves in
  let '(updated_scores, ingenious, num_ingenious) :=
    batch_peek_next_scores score move_scores in
  length (batch_get_updated_states board possible_moves) = b /\
  length (batch_peek_next_states deck
            (RepresentationGenerator.tile_columns possible_moves)) = b /\
  length updated_scores = b /\
  length ingenious = b /\
  length num_ingenious = b /\
  length (can_exchange_of board deck score possible_moves) = b /\
  Forall (fun c => c = 0 \/ c = 1)
         (can_exchange_of board deck score possible_moves).

End EncoderNotions.

(** ** More example data *)

Module MoreExamples.
Import Toy Examples.

(** A position with no placement left. *)
Definition blocked_board : board :=
  {| played := 0; limit := 40; placements := [] |}.
Definition blocked : World :=
  {| boards := [blocked_board]; scores := [behind; behind]; decks := [hand];
     rng := 0%nat |}.

(** Two candidates that play the last tile of the hand. *)
Definition last_tile_moves : list Move :=
  [[1; 60; 0; 0; 0; 0; 2; 3]; [1; 40; 1; 0; 0; 0; 2; 3]].

(** Two buffers, of two rows and of one row. *)
Definition two_rows : RepresentationsBuffer.t :=
  RepresentationsBuffer.set_batched_reprs_from_scratch
    RepresentationsBuffer.init
    [short_game; capped_board] [hand; one_tile] [[ahead; behind]; [behind; ahead]]
    [[0; 0; 0; 0; 1]; [0; 0; 1; 1; 1]] [1; 1] [[0; 0]; [0; 0]].

(** An 11 x 11 board of one channel whose cell [(j, i)] holds [11 j + i]. *)
Definition numbered_cell (j i : nat) : list Z := [Z.of_nat (11 * j + i)].
Definition numbered_board : list (list (list Z)) :=
  map (fun j => map (numbered_cell j) (seq 0 11)) (seq 0 11).

(** Learning rates in millionths, as integers. *)
Definition slow : ScheduleParams Z :=
  {| restart_learning_rate := 1000; lowest_learning_rate := 1;
     reduce_lr_step_threshold := 100 |}.
Definition stalled : Schedule Z :=
  {| steps_since_improvement := 100; lr_tracker := 1000 |}.
Definition tenth (x : Z) : Z := x / 10.

End MoreExamples.

(** * Properties *)

(** ** numpy on integer arrays *)

Section NpFacts.
Implicit Types (a : list Z) (i j k : nat) (v m x : Z).

Lemma foldl_max_ge a x : x <= foldl Z.max x a.
Proof. revert x; induction a as [|y a IH]; intros x; simpl; [lia|]. specialize (IH (Z.max x y)). lia. Qed.

Lemma foldl_max_upper a x y : y ∈ a -> y <= foldl Z.max x a.
Proof.
  revert x; induction a as [|z a IH]; intros x Hy; [by apply elem_of_nil in Hy|].
  apply elem_of_cons in Hy as [->|Hy]; simpl.
  - pose proof (foldl_max_ge a (Z.max x z)). lia.
  - by apply IH.
Qed.

Lemma foldl_max_elem a x : foldl Z.max x a = x \/ foldl Z.max x a ∈ a.
Proof.
  revert x; induction a as [|z a IH]; intros x; simpl; [by left|].
  destruct (IH (Z.max x z)) as [E|E].
  - rewrite E. destruct (Z.max_spec x z) as [[_ ->]|[_ ->]]; [right; left|by left].
  - right. by right.
Qed.

Lemma foldl_min_le a x : foldl Z.min x a <= x.
Proof. revert x; induction a as [|y a IH]; intros x; simpl; [lia|]. specialize (IH (Z.min x y)). lia. Qed.

Lemma foldl_min_lower a x y : y ∈ a -> foldl Z.min x a <= y.
Proof.
  revert x; induction a as [|z a IH]; intros x Hy; [by apply elem_of_nil in Hy|].
  apply elem_of_cons in Hy as [->|Hy]; simpl.
  - pose proof (foldl_min_le a (Z.min x z)). lia.
  - by apply IH.
Qed.

Lemma foldl_min_elem a x : foldl Z.min x a = x \/ foldl Z.min x a ∈ a.
Proof.
  revert x; induction a as [|z a IH]; intros x; simpl; [by left|].
  destruct (IH (Z.min x z)) as [E|E].
  - rewrite E. destruct (Z.min_spec x z) as [[_ ->]|[_ ->]]; [by left|right; left].
  - right. by right.
Qed.

Lemma np_max_spec a m : Np.max a = Some m -> m ∈ a /\ forall x, x ∈ a -> x <= m.
Proof.
  destruct a as [|y a]; [done|]. simpl. intros [= <-]. split.
  - destruct (foldl_max_elem a y) as [->|E]; [left|by right].
  - intros x [->|Hx]%elem_of_cons; [apply foldl_max_ge|by apply foldl_max_upper].
Qed.

Lemma np_min_spec a m : Np.min a = Some m -> m ∈ a /\ forall x, x ∈ a -> m <= x.
Proof.
  destruct a as [|y a]; [done|]. simpl. intros [= <-]. split.
  - destruct (foldl_min_elem a y) as [->|E]; [left|by right].
  - intros x [->|Hx]%elem_of_cons; [apply foldl_min_le|by apply foldl_min_lower].
Qed.

Lemma np_max_is_Some a : a <> [] -> is_Some (Np.max a).
Proof. destruct a; [done|]. by eexists. Qed.

Lemma np_min_is_Some a : a <> [] -> is_Some (Np.min a).
Proof. destruct a; [done|]. by eexists. Qed.

(** [where_eq] *)
Lemma where_eq_from_lookup k a v i :
  i ∈ Np.where_eq_from k a v <-> exists j, i = (k + j)%nat /\ a !! j = Some v.
Proof.
  revert k; induction a as [|x a IH]; intros k; simpl.
  - split; [by intros ?%elem_of_nil|by intros (j & _ & ?)].
  - destruct (Z.eqb_spec x v) as [->|Hne].
    + rewrite elem_of_cons, IH. split.
      * intros [->|(j & -> & Hj)]; [exists 0%nat; split; [lia|done]|exists (S j); split; [lia|done]].
      * intros ([|j] & -> & Hj); [left; lia|right; exists j; split; [lia|done]].
    + rewrite IH. split.
      * intros (j & -> & Hj). exists (S j); split; [lia|done].
      * intros ([|j] & -> & Hj); [simpl in Hj; congruence|exists j; split; [lia|done]].
Qed.

Lemma where_eq_lookup a v i : i ∈ Np.where_eq a v <-> a !! i = Some v.
Proof.
  unfold Np.where_eq. rewrite where_eq_from_lookup. split.
  - by intros (j & -> & Hj).
  - intros Hi. by exists i.
Qed.

Lemma where_eq_from_head k a v i :
  head (Np.where_eq_from k a v) = Some i ->
  exists j, i = (k + j)%nat /\ a !! j = Some v /\
            forall j', (j' < j)%nat -> a !! j' <> Some v.
Proof.
  revert k; induction a as [|x a IH]; intros k; simpl; [done|].
  destruct (Z.eqb_spec x v) as [->|Hne]; simpl.
  - intros [= <-]. exists 0%nat. split; [lia|]. split; [done|]. intros; lia.
  - intros (j & -> & Hj & Hlt)%IH. exists (S j). split; [lia|]. split; [done|].
    intros [|j'] ?; simpl; [congruence|]. apply Hlt. lia.
Qed.

Lemma where_eq_head a v i :
  head (Np.where_eq a v) = Some i ->
  a !! i = Some v /\ forall j, (j < i)%nat -> a !! j <> Some v.
Proof. intros (j & -> & ? & ?)%where_eq_from_head. done. Qed.

Lemma where_eq_nonempty a v : v ∈ a -> Np.where_eq a v <> [].
Proof.
  intros (i & Hi)%list_elem_of_lookup Hnil.
  apply where_eq_lookup in Hi. rewrite Hnil in Hi. by apply elem_of_nil in Hi.
Qed.

(** [argmax] is the first position of the maximum. *)
Lemma argmax_from_where ip mp mi i :
  Np.argmax_from mp mi i ip =
  if foldl Z.max mp ip =? mp then mi
  else default 0%nat (head (Np.where_eq_from i ip (foldl Z.max mp ip))).
Proof.
  revert mp mi i; induction ip as [|x ip IH]; intros mp mi i; simpl.
  - by rewrite Z.eqb_refl.
  - destruct (Z.ltb_spec mp x) as [Hlt|Hge].
    + rewrite IH. replace (Z.max mp x) with x by lia.
      pose proof (foldl_max_ge ip x) as Hge.
      destruct (Z.eqb_spec (foldl Z.max x ip) x) as [E|E].
      * rewrite E. destruct (Z.eqb_spec x mp); [lia|]. by rewrite Z.eqb_refl.
      * destruct (Z.eqb_spec (foldl Z.max x ip) mp); [lia|].
        destruct (Z.eqb_spec x (foldl Z.max x ip)); [congruence|done].
    + rewrite IH. replace (Z.max mp x) with mp by lia.
      destruct (Z.eqb_spec (foldl Z.max mp ip) mp) as [E|E]; [done|].
      pose proof (foldl_max_ge ip mp).
      destruct (Z.eqb_spec x (foldl Z.max mp ip)); [lia|done].
Qed.

Lemma argmax_head_where a m :
  Np.max a = Some m -> Np.argmax a = head (Np.where_eq a m).
Proof.
  destruct a as [|x a]; [done|]. simpl. intros [= <-].
  unfold Np.where_eq. simpl. rewrite argmax_from_where.
  destruct (Z.eqb_spec (foldl Z.max x a) x) as [E|E].
  - rewrite E, Z.eqb_refl. done.
  - destruct (Z.eqb_spec x (foldl Z.max x a)); [congruence|].
    destruct (foldl_max_elem a x) as [?|Hin]; [done|].
    apply list_elem_of_lookup in Hin as [j Hj].
    assert (Hj' : (1 + j)%nat ∈ Np.where_eq_from 1 a (foldl Z.max x a)).
    { apply where_eq_from_lookup. by exists j. }
    destruct (Np.where_eq_from 1 a (foldl Z.max x a)); [by apply elem_of_nil in Hj'|done].
Qed.

Lemma argmax_spec a i :
  Np.argmax a = Some i ->
  exists m, a !! i = Some m /\ (forall x, x ∈ a -> x <= m) /\
            forall j x, (j < i)%nat -> a !! j = Some x -> x < m.
Proof.
  intros Hi. destruct (Np.max a) as [m|] eqn:Hm; [|by destruct a].
  rewrite (argmax_head_where _ _ Hm) in Hi.
  apply where_eq_head in Hi as [Hi Hfirst]. apply np_max_spec in Hm as [_ Hmax].
  exists m. split; [done|]. split; [done|]. intros j x Hj Hx.
  assert (x <= m) by (apply Hmax; eapply list_elem_of_lookup_2; eauto).
  assert (x <> m) by (intros ->; by apply (Hfirst j)). lia.
Qed.

Lemma argmax_is_Some a : a <> [] -> is_Some (Np.argmax a).
Proof. destruct a; [done|]. by eexists. Qed.

End NpFacts.

Lemma argmax_const (a : list Z) (c : Z) :
  a <> [] -> (forall x, x ∈ a -> x = c) -> Np.argmax a = Some 0%nat.
Proof.
  intros Hne Hc. destruct (argmax_is_Some a Hne) as [i Hi]. rewrite Hi.
  destruct (argmax_spec _ _ Hi) as (m & Hm & _ & Hfirst).
  destruct i as [|i]; [done|]. exfalso.
  destruct a as [|x a]; [done|].
  specialize (Hfirst 0%nat x ltac:(lia) eq_refl).
  rewrite (Hc x) in Hfirst by left.
  rewrite (Hc m) in Hfirst by (eapply list_elem_of_lookup_2; eauto). lia.
Qed.

(** ** Index arrays *)

Section TakeIdxs.
Context {A B : Type}.
Implicit Types (a : list A) (idxs : list nat).

Lemma take_idxs_Some a idxs :
  Forall (fun i => (i < length a)%nat) idxs -> is_Some (Np.take_idxs a idxs).
Proof.
  intros Hall. unfold Np.take_idxs. apply mapM_is_Some.
  eapply Forall_impl; [exact Hall|]. intros i Hi. by apply lookup_lt_is_Some.
Qed.

Lemma take_idxs_lookup a idxs l k i :
  Np.take_idxs a idxs = Some l -> idxs !! k = Some i -> l !! k = a !! i.
Proof.
  unfold Np.take_idxs. intros Hm%mapM_Some Hk.
  destruct (Forall2_lookup_l _ _ _ _ _ Hm Hk) as (y & -> & ->). done.
Qed.

Lemma take_idxs_length a idxs l :
  Np.take_idxs a idxs = Some l -> length l = length idxs.
Proof. unfold Np.take_idxs. intros Hm%mapM_Some. symmetry. by eapply Forall2_length. Qed.

Lemma take_idxs_map (f : A -> B) a idxs :
  Np.take_idxs (map f a) idxs = map f <$> Np.take_idxs a idxs.
Proof.
  unfold Np.take_idxs. induction idxs as [|i idxs IH]; [done|].
  cbn. rewrite list_lookup_fmap. destruct (a !! i); [|done]. cbn.
  rewrite IH. by destruct (mapM (fun i0 => a !! i0) idxs).
Qed.

End TakeIdxs.

(** ** Sums and ties *)

Lemma tie_break (possible : list Move) (gains : list Z) (idxs : list nat) :
  idxs <> [] ->
  Forall (fun i => (i < length possible)%nat /\ (i < length gains)%nat) idxs ->
  exists gs k i mv g ms,
    Np.take_idxs gains idxs = Some gs /\ Np.argmax gs = Some k /\
    Np.take_idxs possible idxs = Some ms /\ ms !! k = Some mv /\
    idxs !! k = Some i /\ possible !! i = Some mv /\ gains !! i = Some g /\
    forall j g', j ∈ idxs -> gains !! j = Some g' -> g' <= g.
Proof.
  intros Hne Hall.
  destruct (take_idxs_Some gains idxs) as [gs Hgs].
  { eapply Forall_impl; [exact Hall|]. by intros i [_ ?]. }
  destruct (take_idxs_Some possible idxs) as [ms Hms].
  { eapply Forall_impl; [exact Hall|]. by intros i [? _]. }
  pose proof (take_idxs_length _ _ _ Hgs) as Hlen.
  destruct (argmax_is_Some gs) as [k Hk].
  { intros ->. destruct idxs; [done|discriminate]. }
  destruct (argmax_spec _ _ Hk) as (g & Hg & Hmax & _).
  assert (Hki : is_Some (idxs !! k)).
  { apply lookup_lt_is_Some. rewrite <- Hlen. by eapply lookup_lt_Some. }
  destruct Hki as [i Hi].
  rewrite (take_idxs_lookup _ _ _ _ _ Hgs Hi) in Hg.
  assert (Hmv : is_Some (possible !! i)).
  { apply lookup_lt_is_Some. eapply Forall_lookup_1 in Hall; [|exact Hi]. tauto. }
  destruct Hmv as [mv Hmv].
  exists gs, k, i, mv, g, ms. repeat split; try done.
  - by rewrite (take_idxs_lookup _ _ _ _ _ Hms Hi).
  - intros j g' (k' & Hk')%list_elem_of_lookup Hj. apply Hmax.
    apply list_elem_of_lookup. exists k'.
    by rewrite (take_idxs_lookup _ _ _ _ _ Hgs Hk').
Qed.

Lemma sum_zeros (idxs : list nat) (f : nat -> Z) :
  (forall i, i ∈ idxs -> f i = 0) -> Np.sum (map f idxs) = 0.
Proof.
  induction idxs as [|i idxs IH]; intros Hz; [done|]. simpl.
  rewrite (Hz i) by left. rewrite IH; [done|]. intros; apply Hz. by right.
Qed.

Lemma cols_where_eq_from (a row pre : list Z) (m : Z) :
  length a = length row ->
  Np.sum (Np.cols (pre ++ row) (Np.where_eq_from (length pre) a m)) =
  Np.sum (zip_with (fun s u => if s =? m then u else 0) a row).
Proof.
  revert row pre; induction a as [|s a IH]; intros [|u row] pre Hlen;
    try discriminate; [done|].
  simpl in Hlen. injection Hlen as Hlen. simpl.
  specialize (IH row (pre ++ [u]) Hlen).
  rewrite length_app, <- app_assoc in IH. simpl in IH.
  replace (length pre + 1)%nat with (S (length pre)) in IH by lia.
  destruct (s =? m); simpl.
  - rewrite IH. rewrite lookup_app_r by lia. by rewrite Nat.sub_diag.
  - by rewrite IH.
Qed.

Lemma cols_min_colour_sum (original row : list Z) (m : Z) :
  Np.min original = Some m -> length original = length row ->
  Np.sum (Np.cols row (Np.where_eq original m)) = min_colour_sum original row.
Proof.
  intros Hm Hlen. unfold min_colour_sum. rewrite Hm.
  apply (cols_where_eq_from original row [] m Hlen).
Qed.

Lemma sum_nonneg (l : list Z) : Forall (Z.le 0) l -> 0 <= Np.sum l.
Proof. induction 1; simpl; [lia|]. unfold Np.sum in *. lia. Qed.

Lemma deficit_clamp (margin other updated : Z) :
  deficit margin other updated = Z.max (other - updated + 36 + margin) 36 - 36.
Proof. unfold deficit. destruct (Z.ltb_spec (other - updated + 36 + margin) 36); lia. Qed.

Lemma deficit_nonneg (margin other updated : Z) : 0 <= deficit margin other updated.
Proof. rewrite deficit_clamp. lia. Qed.

(** Scores are small numbers, stored by the encoder as [uint8].  With both
    scores between 0 and 18 and a margin between 0 and 201, the entry of
    [diffs] computed step by step in 8-bit arithmetic is the integer the
    model computes: the offset 36 keeps every step of it within 0..255. *)
Lemma diffs_entry_fits_uint8 (margin other updated : Z) :
  0 <= other <= 18 -> 0 <= updated <= 18 -> 0 <= margin <= 201 ->
  uint8 (uint8 (uint8 (other - updated) + 36) + margin) =
  other - updated + 36 + margin.
Proof.
  intros Ho Hu Hm. unfold uint8.
  rewrite Zplus_mod_idemp_l, <- Z.add_assoc, Zplus_mod_idemp_l, Z.add_assoc.
  apply Z.mod_small. lia.
Qed.

Lemma sum_all_zero (l : list Z) : Forall (fun z => z = 0) l -> Np.sum l = 0.
Proof. induction 1 as [|x l -> _ IH]; simpl; [done|]. unfold Np.sum in *. lia. Qed.

Lemma sum_ge_lookup (l : list Z) (j : nat) (x : Z) :
  Forall (Z.le 0) l -> l !! j = Some x -> x <= Np.sum l.
Proof.
  intros Hall; revert j; induction Hall as [|y l Hy Hall IH]; intros [|j] Hj;
    simpl in *; try done.
  - injection Hj as ->. pose proof (sum_nonneg l Hall). unfold Np.sum in *. lia.
  - specialize (IH j Hj). unfold Np.sum in *. lia.
Qed.

Lemma total_deficit_nonneg_terms (margin : Z) (o row : list Z) :
  Forall (Z.le 0) (zip_with (deficit margin) o row).
Proof.
  apply Forall_forall. intros x (j & Hj)%list_elem_of_lookup.
  apply lookup_zip_with_Some in Hj as (y & u & -> & _ & _). apply deficit_nonneg.
Qed.

Lemma total_deficit_zero (o row : list Z) :
  (forall j y u, o !! j = Some y -> row !! j = Some u -> y <= u) ->
  total_deficit 0 o row = 0.
Proof.
  intros Hle. unfold total_deficit. apply sum_all_zero, Forall_forall.
  intros x (j & Hj)%list_elem_of_lookup.
  apply lookup_zip_with_Some in Hj as (y & u & -> & Hy & Hu).
  specialize (Hle j y u Hy Hu). rewrite deficit_clamp. lia.
Qed.

Lemma total_deficit_ge (margin : Z) (o row : list Z) (j : nat) (y u : Z) :
  o !! j = Some y -> row !! j = Some u ->
  deficit margin y u <= total_deficit margin o row.
Proof.
  intros Hy Hu. unfold total_deficit.
  apply (sum_ge_lookup _ j); [apply total_deficit_nonneg_terms|].
  apply lookup_zip_with_Some. eauto.
Qed.

Lemma min_colour_sum_nonneg (original row : list Z) :
  Forall2 (fun s u => 0 <= s <= u /\ u <= 18) original row ->
  0 <= min_colour_sum original row.
Proof.
  intros Hok. unfold min_colour_sum. destruct (Np.min original) as [m|]; [|lia].
  apply sum_nonneg. induction Hok as [|s u ? ? Hsu _ IH]; simpl; [done|].
  constructor; [|done]. destruct (s =? m); lia.
Qed.

(** ** The heuristic selection rules *)

Section HeuristicFacts.
Context {R : Rules}.
Variables (board : Board) (deck : Deck) (score : Score).

Local Abbreviation possible := (possible_moves_of board deck).
Local Abbreviation updated := (updated_scores_of board deck score).
Local Abbreviation original := (get_score score).
Local Abbreviation gain := (total_gain original).

Lemma choose_max_scoring_move_spec :
  possible <> [] -> length updated = length possible ->
  exists i mv row,
    choose_max_scoring_move board deck score = Some mv /\
    Np.argmax (map gain updated) = Some i /\
    possible !! i = Some mv /\ updated !! i = Some row /\
    forall row', row' ∈ updated -> gain row' <= gain row.
Proof.
  intros Hne Hlen. unfold choose_max_scoring_move.
  destruct (argmax_is_Some (map gain updated)) as [i Hi].
  { intros E. apply (f_equal length) in E. rewrite length_map, Hlen in E.
    destruct possible; [done|discriminate]. }
  destruct (argmax_spec _ _ Hi) as (m & Hm & Hmax & _).
  rewrite list_lookup_fmap in Hm.
  destruct (updated !! i) as [row|] eqn:Hrow; [|done]. injection Hm as Hm.
  assert (Hmv : is_Some (possible !! i)).
  { apply lookup_lt_is_Some. rewrite <- Hlen. by eapply lookup_lt_Some. }
  destruct Hmv as [mv Hmv].
  exists i, mv, row. rewrite Hi. simpl. repeat split; try done.
  intros row' Hin. rewrite Hm. apply Hmax. apply list_elem_of_fmap. eauto.
Qed.

(** The aggregate of [choose_increase_min_move], as the code computes it. *)
Local Abbreviation min_scores_total m :=
  (fun row => Np.sum (Np.cols row (Np.where_eq original m))).

Lemma choose_increase_min_move_spec :
  possible <> [] -> length updated = length possible -> original <> [] ->
  exists m best i mv row,
    Np.min original = Some m /\
    Np.max (map (min_scores_total m) updated) = Some best /\
    choose_increase_min_move board deck score = Some mv /\
    possible !! i = Some mv /\ updated !! i = Some row /\
    (0 < best ->
       min_scores_total m row = best /\
       forall row', row' ∈ updated -> min_scores_total m row' = best ->
                    gain row' <= gain row) /\
    (best <= 0 ->
       choose_increase_min_move board deck score =
         choose_max_scoring_move board deck score /\
       forall row', row' ∈ updated -> gain row' <= gain row).
Proof.
  intros Hne Hlen Horig.
  destruct (np_min_is_Some _ Horig) as [m Hm].
  set (T := map (min_scores_total m) updated).
  assert (HT : length T = length possible) by (unfold T; by rewrite length_map).
  destruct (np_max_is_Some T) as [best Hbest].
  { intros E. rewrite E in HT. destruct possible; [done|discriminate]. }
  destruct (np_max_spec _ _ Hbest) as [Hin Hmax].
  unfold choose_increase_min_move. rewrite Hm. cbn -[Np.max Np.argmax].
  rewrite map_map. fold T. rewrite Hbest.
  cbn -[Np.max Np.argmax].
  destruct (Z.ltb_spec 0 best) as [Hpos|Hnpos].
  - (* some candidate raises a lowest colour *)
    set (idxs := Np.where_eq T best).
    assert (Hidxs : idxs <> []) by (by apply where_eq_nonempty).
    assert (Hrange : forall j, j ∈ idxs ->
              exists row', updated !! j = Some row' /\ min_scores_total m row' = best).
    { intros j Hj%where_eq_lookup. unfold T in Hj. rewrite list_lookup_fmap in Hj.
      destruct (updated !! j) as [row'|]; [|done]. injection Hj as Hj. eauto. }
    assert (Hback : forall j row', updated !! j = Some row' ->
              min_scores_total m row' = best -> j ∈ idxs).
    { intros j row' Hj Hb. apply where_eq_lookup. unfold T.
      rewrite list_lookup_fmap, Hj. simpl. by rewrite Hb. }
    destruct (Nat.eqb_spec (length idxs) 1) as [Hone|Hmany].
    + destruct idxs as [|i [|? ?]] eqn:Eidxs; try discriminate. cbn.
      destruct (Hrange i) as (row & Hrow & Hb); [left|].
      assert (Hmv : is_Some (possible !! i)).
      { apply lookup_lt_is_Some. rewrite <- Hlen. by eapply lookup_lt_Some. }
      destruct Hmv as [mv Hmv].
      exists m, best, i, mv, row. repeat split; try done; try lia.
      intros row' (j & Hj)%list_elem_of_lookup Hb'.
      specialize (Hback j row' Hj Hb'). apply list_elem_of_singleton in Hback as ->.
      rewrite Hrow in Hj. injection Hj as <-. lia.
    + destruct (tie_break possible (map gain updated) idxs Hidxs)
        as (gs & k & i & mv & g & ms & Hgs & Hk & Hms & Hmsk & Hik & Hmv & Hg & Hbestg).
      { apply Forall_forall. intros j Hj. destruct (Hrange j Hj) as (row' & Hrow' & _).
        apply lookup_lt_Some in Hrow'. rewrite length_map. lia. }
      rewrite take_idxs_map in Hgs. apply fmap_Some in Hgs as (rows & Hrows & ->).
      rewrite Hms. cbn -[Np.argmax]. rewrite Hrows. cbn -[Np.argmax].
      rewrite Hk. cbn.
      destruct (Hrange i) as (row & Hrow & Hb).
      { apply list_elem_of_lookup. eauto. }
      rewrite list_lookup_fmap, Hrow in Hg. injection Hg as Hg.
      exists m, best, i, mv, row. repeat split; try done; try lia.
      intros row' (j & Hj)%list_elem_of_lookup Hb'. rewrite Hg.
      apply (Hbestg j); [by eapply Hback|]. by rewrite list_lookup_fmap, Hj.
  - (* no candidate does: fall back to Max *)
    destruct (choose_max_scoring_move_spec Hne Hlen)
      as (i & mv & row & Hc & _ & Hmv & Hrow & Hg).
    exists m, best, i, mv, row. repeat split; try done; lia.
Qed.

End HeuristicFacts.

Section HeuristicTies.
Context {R : Rules}.
Variables (board : Board) (deck : Deck) (score : Score).

Local Abbreviation possible := (possible_moves_of board deck).
Local Abbreviation updated := (updated_scores_of board deck score).
Local Abbreviation original := (get_score score).
Local Abbreviation gain := (total_gain original).

Lemma increase_min_is_max_when_totals_agree (m : Z) :
  possible <> [] -> length updated = length possible ->
  Np.min original = Some m ->
  (forall row, row ∈ updated ->
     Np.sum (Np.cols row (Np.where_eq original m)) = gain row) ->
  choose_increase_min_move board deck score =
  choose_max_scoring_move board deck score.
Proof.
  intros Hne Hlen Hm Hagree.
  unfold choose_increase_min_move. rewrite Hm. cbn -[Np.max Np.argmax].
  rewrite map_map.
  set (T := map (fun row => Np.sum (Np.cols row (Np.where_eq original m))) updated).
  assert (HTG : T = map gain updated).
  { unfold T. apply map_ext_in. intros row Hin%list_elem_of_In. by apply Hagree. }
  assert (HT : length T = length possible) by (unfold T; by rewrite length_map).
  destruct (np_max_is_Some T) as [best Hbest].
  { intros E. rewrite E in HT. destruct possible; [done|discriminate]. }
  rewrite Hbest. cbn -[Np.max Np.argmax].
  destruct (0 <? best); [|done].
  pose proof (argmax_head_where _ _ Hbest) as Harg.
  destruct (np_max_spec _ _ Hbest) as [Hin _].
  set (idxs := Np.where_eq T best) in *.
  assert (Hidxs : idxs <> []) by (by apply where_eq_nonempty).
  assert (Hlt : Forall (fun j => (j < length T)%nat) idxs).
  { apply Forall_forall. intros j Hj%where_eq_lookup. by eapply lookup_lt_Some. }
  unfold choose_max_scoring_move. cbn -[Np.argmax]. rewrite <- HTG, Harg.
  destruct (Nat.eqb_spec (length idxs) 1) as [Hone|Hmany].
  - destruct idxs as [|i [|? ?]]; try discriminate. done.
  - destruct (take_idxs_Some possible idxs) as [ms Hms].
    { by rewrite <- HT. }
    destruct (take_idxs_Some updated idxs) as [rows Hrows].
    { by rewrite Hlen, <- HT. }
    rewrite Hms, Hrows. cbn -[Np.argmax].
    rewrite (argmax_const (map gain rows) best).
    + destruct idxs as [|i idxs'] eqn:E; [done|]. cbn.
      by rewrite (take_idxs_lookup _ _ _ 0%nat i Hms).
    + intros E. apply (f_equal length) in E.
      rewrite length_map, (take_idxs_length _ _ _ Hrows) in E.
      destruct idxs; [done|discriminate].
    + intros x (row & -> & (k & Hk)%list_elem_of_lookup)%list_elem_of_fmap.
      assert (Hik : is_Some (idxs !! k)).
      { apply lookup_lt_is_Some. rewrite <- (take_idxs_length _ _ _ Hrows).
        by eapply lookup_lt_Some. }
      destruct Hik as [j Hj].
      rewrite (take_idxs_lookup _ _ _ _ _ Hrows Hj) in Hk.
      assert (Hjin : j ∈ idxs) by (eapply list_elem_of_lookup_2; eauto).
      apply where_eq_lookup in Hjin. rewrite HTG, list_lookup_fmap, Hk in Hjin.
      by injection Hjin.
Qed.

Local Abbreviation deficit_total margin other_score :=
  (total_deficit margin (get_score other_score)).

Lemma choose_reduce_deficit_move_spec (other_score : Score) (margin : Z) :
  possible <> [] -> length updated = length possible ->
  exists i mv row,
    choose_reduce_deficit_move board deck score other_score margin = Some mv /\
    possible !! i = Some mv /\ updated !! i = Some row /\
    (forall row', row' ∈ updated ->
       deficit_total margin other_score row <= deficit_total margin other_score row') /\
    (forall row', row' ∈ updated ->
       deficit_total margin other_score row' = deficit_total margin other_score row ->
       gain row' <= gain row).
Proof.
  intros Hne Hlen. unfold choose_reduce_deficit_move.
  cbn -[Np.min Np.argmax].
  set (D := map (deficit_total margin other_score) updated).
  assert (HD : length D = length possible) by (unfold D; by rewrite length_map).
  destruct (np_min_is_Some D) as [d Hd].
  { intros E. rewrite E in HD. destruct possible; [done|discriminate]. }
  destruct (np_min_spec _ _ Hd) as [Hin Hmin].
  rewrite Hd. cbn -[Np.argmax].
  set (idxs := Np.where_eq D d).
  assert (Hidxs : idxs <> []) by (by apply where_eq_nonempty).
  assert (Hrange : forall j, j ∈ idxs ->
            exists row', updated !! j = Some row' /\ deficit_total margin other_score row' = d).
  { intros j Hj%where_eq_lookup. unfold D in Hj. rewrite list_lookup_fmap in Hj.
    destruct (updated !! j) as [row'|]; [|done]. injection Hj as Hj. eauto. }
  assert (Hback : forall j row', updated !! j = Some row' ->
            deficit_total margin other_score row' = d -> j ∈ idxs).
  { intros j row' Hj Hb. apply where_eq_lookup. unfold D.
    rewrite list_lookup_fmap, Hj. simpl. by rewrite Hb. }
  assert (Hlow : forall row', row' ∈ updated -> d <= deficit_total margin other_score row').
  { intros row' Hin'. apply Hmin. apply list_elem_of_fmap. eauto. }
  destruct (Nat.eqb_spec (length idxs) 1) as [Hone|Hmany].
  - destruct idxs as [|i [|? ?]] eqn:Eidxs; try discriminate. cbn.
    destruct (Hrange i) as (row & Hrow & Hb); [left|].
    assert (Hmv : is_Some (possible !! i)).
    { apply lookup_lt_is_Some. rewrite <- Hlen. by eapply lookup_lt_Some. }
    destruct Hmv as [mv Hmv].
    exists i, mv, row. rewrite Hb. repeat split; try done.
    intros row' (j & Hj)%list_elem_of_lookup Hb'.
    specialize (Hback j row' Hj Hb'). apply list_elem_of_singleton in Hback as ->.
    rewrite Hrow in Hj. injection Hj as <-. lia.
  - destruct (tie_break possible (map gain updated) idxs Hidxs)
      as (gs & k & i & mv & g & ms & Hgs & Hk & Hms & Hmsk & Hik & Hmv & Hg & Hbestg).
    { apply Forall_forall. intros j Hj. destruct (Hrange j Hj) as (row' & Hrow' & _).
      apply lookup_lt_Some in Hrow'. rewrite length_map. lia. }
    rewrite Hgs. cbn -[Np.argmax]. rewrite Hk. cbn. rewrite Hms. cbn.
    destruct (Hrange i) as (row & Hrow & Hb).
    { apply list_elem_of_lookup. eauto. }
    rewrite list_lookup_fmap, Hrow in Hg. injection Hg as Hg.
    exists i, mv, row. rewrite Hb. repeat split; try done.
    intros row' (j & Hj)%list_elem_of_lookup Hb'. rewrite Hg.
    apply (Hbestg j); [by eapply Hback|]. by rewrite list_lookup_fmap, Hj.
Qed.

End HeuristicTies.

Section SelectionRules.
Context {R : Rules}.

(** C4.  On a non-empty batch whose would-be scores fit the data model,
    [choose_increase_min_move] returns a candidate that maximizes the sum of
    the would-be scores over the colours at the mover's lowest score; among
    the candidates attaining that maximum it has the largest total score
    gain; when no candidate brings that sum above 0 the result is the one of
    [choose_max_scoring_move]; and for the mover score [18,0,0,0,0,0] the
    result is the one of [choose_max_scoring_move]. *)
Theorem increase_min_selection (board : Board) (deck : Deck) (score : Score) :
  let possible := possible_moves_of board deck in
  let updated := updated_scores_of board deck score in
  let original := get_score score in
  possible <> [] ->
  length updated = length possible ->
  original <> [] ->
  post_move_scores_ok original updated ->
  exists i mv row,
    choose_increase_min_move board deck score = Some mv /\
    possible !! i = Some mv /\ updated !! i = Some row /\
    (forall row', row' ∈ updated ->
       min_colour_sum original row' <= min_colour_sum original row) /\
    (forall row', row' ∈ updated ->
       min_colour_sum original row' = min_colour_sum original row ->
       total_gain original row' <= total_gain original row) /\
    ((forall row', row' ∈ updated -> min_colour_sum original row' <= 0) ->
       choose_increase_min_move board deck score =
       choose_max_scoring_move board deck score) /\
    (original = [18; 0; 0; 0; 0; 0] ->
       choose_increase_min_move board deck score =
       choose_max_scoring_move board deck score).
Proof.
  cbv zeta. intros Hne Hlen Horig Hok.
  destruct (choose_increase_min_move_spec board deck score Hne Hlen Horig)
    as (m & best & i & mv & row & Hm & Hbest & Hc & Hmv & Hrow & Hpos & Hnpos).
  set (original := get_score score) in *.
  set (updated := updated_scores_of board deck score) in *.
  assert (Hlenrow : forall row', row' ∈ updated -> length original = length row').
  { intros row' Hin. eapply Forall2_length, Forall_forall; eauto. }
  assert (Hsum : forall row', row' ∈ updated ->
            Np.sum (Np.cols row' (Np.where_eq original m)) =
            min_colour_sum original row').
  { intros row' Hin. apply cols_min_colour_sum; [done|by apply Hlenrow]. }
  assert (Hnn : forall row', row' ∈ updated -> 0 <= min_colour_sum original row').
  { intros row' Hin. apply min_colour_sum_nonneg. eapply Forall_forall in Hok; eauto. }
  destruct (np_max_spec _ _ Hbest) as [_ Hmax].
  assert (Hle : forall row', row' ∈ updated -> min_colour_sum original row' <= best).
  { intros row' Hin. rewrite <- Hsum by done. apply Hmax, list_elem_of_fmap. eauto. }
  assert (Hin : row ∈ updated) by (eapply list_elem_of_lookup_2; eauto).
  exists i, mv, row. split; [done|]. split; [done|]. split; [done|].
  destruct (Z.lt_ge_cases 0 best) as [Hp|Hn].
  - destruct (Hpos Hp) as [Hrowbest Htie]. rewrite Hsum in Hrowbest by done.
    split; [|split; [|split]].
    + intros row' Hin'. rewrite Hrowbest. by apply Hle.
    + intros row' Hin' E. apply Htie; [done|]. rewrite Hsum by done.
      by rewrite E.
    + intros Hall. specialize (Hall row Hin). lia.
    + intros E. eapply increase_min_is_max_when_totals_agree; eauto.
      intros row' Hin'. fold original. rewrite E.
      eapply Forall_forall in Hok; [|exact Hin']. rewrite E in Hok.
      rewrite E in Hm. vm_compute in Hm. injection Hm as <-.
      repeat (apply Forall2_cons_inv_l in Hok as (? & ? & ? & Hok & ->)).
      apply Forall2_nil_inv_l in Hok as ->.
      unfold total_gain. cbn. lia.
  - destruct (Hnpos Hn) as [Heq Hg].
    split; [|split; [|split]]; try done.
    + intros row' Hin'. specialize (Hle row' Hin'). specialize (Hnn row Hin). lia.
    + intros row' Hin' _. by apply Hg.
Qed.

(** C5.  On a non-empty batch and for every margin,
    [choose_reduce_deficit_move] gives each candidate and colour the
    deficit [max(other - updated + 36 + margin, 36) - 36], returns a
    candidate whose summed deficit is least, and among those one whose
    total score gain is largest.  With margin 0, when the opponent leads by
    5 on one colour only, the candidate that scores 5 on that colour is
    chosen over the one that scores 10 on another colour, in either order
    of the two. *)
Theorem reduce_deficit_selection (board : Board) (deck : Deck)
    (score other_score : Score) (margin : Z) :
  let possible := possible_moves_of board deck in
  let updated := updated_scores_of board deck score in
  let original := get_score score in
  let other := get_score other_score in
  possible <> [] ->
  length updated = length possible ->
  (forall o u, deficit margin o u = Z.max (o - u + 36 + margin) 36 - 36) /\
  (exists i mv row,
     choose_reduce_deficit_move board deck score other_score margin = Some mv /\
     possible !! i = Some mv /\ updated !! i = Some row /\
     (forall row', row' ∈ updated ->
        total_deficit margin other row <= total_deficit margin other row') /\
     (forall row', row' ∈ updated ->
        total_deficit margin other row' = total_deficit margin other row ->
        total_gain original row' <= total_gain original row)) /\
  (forall (c c' : nat) (sc sc' : Z) (erasing gaining : Move),
     margin = 0 ->
     c <> c' ->
     original !! c = Some sc -> original !! c' = Some sc' ->
     other !! c = Some (sc + 5) ->
     (forall j x y, j <> c -> original !! j = Some x -> other !! j = Some y -> y <= x) ->
     (possible = [erasing; gaining] /\
      updated = [<[c := sc + 5]> original; <[c' := sc' + 10]> original]) \/
     (possible = [gaining; erasing] /\
      updated = [<[c' := sc' + 10]> original; <[c := sc + 5]> original]) ->
     choose_reduce_deficit_move board deck score other_score margin = Some erasing).
Proof.
  cbv zeta. intros Hne Hlen.
  split; [intros; apply deficit_clamp|].
  pose proof (choose_reduce_deficit_move_spec board deck score other_score margin Hne Hlen)
    as (i & mv & row & Hc & Hmv & Hrow & Hmin & Htie).
  set (original := get_score score) in *.
  set (updated := updated_scores_of board deck score) in *.
  set (possible := possible_moves_of board deck) in *.
  set (other := get_score other_score) in *.
  split; [by exists i, mv, row|].
  intros c c' sc sc' erasing gaining -> Hcc Hsc Hsc' Hoc Hrest Hcase.
  assert (HA : total_deficit 0 other (<[c := sc + 5]> original) = 0).
  { apply total_deficit_zero. intros j y u Hy Hu.
    destruct (decide (c = j)) as [<-|Hne'].
    - rewrite list_lookup_insert_eq in Hu by (by eapply lookup_lt_Some). 
      rewrite Hoc in Hy. injection Hy as <-. injection Hu as <-. lia.
    - rewrite list_lookup_insert_ne in Hu by done. eapply Hrest; eauto. }
  assert (HB : 5 <= total_deficit 0 other (<[c' := sc' + 10]> original)).
  { etrans; [|apply (total_deficit_ge 0 other _ c (sc + 5) sc); [done|]].
    - rewrite deficit_clamp. lia.
    - rewrite list_lookup_insert_ne by done. done. }
  rewrite Hc. f_equal.
  destruct Hcase as [[Hp Hu]|[Hp Hu]]; rewrite Hp in Hmv; rewrite Hu in Hrow, Hmin.
  - destruct i as [|[|i]]; simpl in *; [congruence| |done].
    injection Hrow as <-.
    specialize (Hmin (<[c := sc + 5]> original) ltac:(left)). lia.
  - destruct i as [|[|i]]; simpl in *; [|congruence|done].
    injection Hrow as <-.
    specialize (Hmin (<[c := sc + 5]> original) ltac:(right; left)). lia.
Qed.

End SelectionRules.

(** ** Sub-batched prediction *)

Section Slices.
Context {A : Type}.
Implicit Types (a : list A).




End Slices.




Section PredictFacts.
Context {E : Estimator}.
Variable f : Grid -> Vect -> fval.
Hypothesis model_rows : forall gs vs, model gs vs = zip_with f gs vs.




End PredictFacts.

(** ** The order of predicted values *)

Section FloatOrder.
Implicit Types (x y z : fval).

Lemma fle_not_nan x y : Npf.le x y = true -> Npf.isnan x = false /\ Npf.isnan y = false.
Proof. by destruct x, y. Qed.

Lemma fle_refl x : Npf.isnan x = false -> Npf.le x x = true.
Proof. destruct x; simpl; try done. intros _. apply Qle_bool_iff, Qle_refl. Qed.

Lemma fle_trans x y z : Npf.le x y = true -> Npf.le y z = true -> Npf.le x z = true.
Proof.
  destruct x, y, z; simpl; try done.
  rewrite !Qle_bool_iff. apply Qle_trans.
Qed.

Lemma fle_total x y :
  Npf.isnan x = false -> Npf.isnan y = false ->
  Npf.le x y = false -> Npf.le y x = true.
Proof.
  destruct x, y; simpl; try done. intros _ _ Hxy.
  apply Qle_bool_iff. destruct (Qlt_le_dec q0 q) as [Hlt|Hle].
  - by apply Qlt_le_weak.
  - apply Qle_bool_iff in Hle. congruence.
Qed.

Lemma fle_finite_upper x y :
  Npf.isfinite y = true -> Npf.le x y = true -> Npf.isnan x = false.
Proof. by destruct x, y. Qed.

End FloatOrder.

Lemma argmax_from_spec (ip : list fval) (mp : fval) (mi i : nat) :
  Npf.isnan mp = false ->
  (Npf.argmax_from mp mi i ip = mi /\ forall w, w ∈ ip -> Npf.le w mp = true) \/
  (exists k v, Npf.argmax_from mp mi i ip = (i + k)%nat /\
               Npf.le v mp = false /\
               (first_nan ip k v \/ first_max ip k v)).
Proof.
  revert mp mi i; induction ip as [|x ip IH]; intros mp mi i Hmp; simpl.
  - left. split; [done|]. by intros w ?%elem_of_nil.
  - destruct (Npf.le x mp) eqn:Hx; simpl.
    + destruct (fle_not_nan _ _ Hx) as [Hxn _].
      destruct (IH mp mi (S i) Hmp) as [[-> Hall]|(k & v & -> & Hv & Hcase)].
      * left. split; [done|]. intros w [->|?]%elem_of_cons; [done|by apply Hall].
      * right. exists (S k), v. split; [lia|]. split; [done|].
        destruct Hcase as [(Hk & Hnan & Hbefore)|(Hk & Hmax & Hbefore)].
        -- left. split; [done|]. split; [done|].
           intros [|j] w Hj Hw; simpl in Hw; [by injection Hw as <-|].
           apply (Hbefore j); [lia|done].
        -- right.
           assert (Hvn : Npf.isnan v = false).
           { destruct (fle_not_nan v v); [|done]. apply Hmax.
             eapply list_elem_of_lookup_2; eauto. }
           assert (Hmpv : Npf.le mp v = true) by (by apply fle_total).
           split; [done|]. split.
           ++ intros w [->|?]%elem_of_cons; [by eapply fle_trans|by apply Hmax].
           ++ intros [|j] w Hj Hw; simpl in Hw.
              ** injection Hw as <-. destruct (Npf.le v x) eqn:Hvx; [|done].
                 by rewrite (fle_trans v x mp) in Hv.
              ** apply (Hbefore j); [lia|done].
    + destruct (Npf.isnan x) eqn:Hxn.
      * right. exists 0%nat, x. split; [lia|]. split; [done|]. left.
        split; [done|]. split; [done|]. intros; lia.
      * destruct (IH x i (S i) Hxn) as [[-> Hall]|(k & v & -> & Hv & Hcase)].
        -- right. exists 0%nat, x. split; [lia|]. split; [done|]. right.
           split; [done|]. split; [|intros; lia].
           intros w [->|?]%elem_of_cons; [by apply fle_refl|by apply Hall].
        -- right. exists (S k), v. split; [lia|].
           assert (Hmpx : Npf.le mp x = true) by (by apply fle_total).
           split.
           { destruct (Npf.le v mp) eqn:Hvmp; [|done].
             by rewrite (fle_trans v mp x) in Hv. }
           destruct Hcase as [(Hk & Hnan & Hbefore)|(Hk & Hmax & Hbefore)].
           ++ left. split; [done|]. split; [done|].
              intros [|j] w Hj Hw; simpl in Hw; [by injection Hw as <-|].
              apply (Hbefore j); [lia|done].
           ++ right.
              assert (Hvn : Npf.isnan v = false).
              { destruct (fle_not_nan v v); [|done]. apply Hmax.
                eapply list_elem_of_lookup_2; eauto. }
              split; [done|]. split.
              ** intros w [->|?]%elem_of_cons; [by apply fle_total|by apply Hmax].
              ** intros [|j] w Hj Hw; simpl in Hw; [by injection Hw as <-|].
                 apply (Hbefore j); [lia|done].
Qed.

Lemma argmax_list_spec (a : list fval) (i : nat) :
  Npf.argmax_list a = Some i ->
  exists v, first_nan a i v \/ first_max a i v.
Proof.
  destruct a as [|mp ip]; [done|]. simpl.
  destruct (Npf.isnan mp) eqn:Hmp; intros [= <-].
  - exists mp. left. split; [done|]. split; [done|]. intros; lia.
  - destruct (argmax_from_spec ip mp 0 1 Hmp) as [[-> Hall]|(k & v & -> & Hv & Hcase)].
    + exists mp. right. split; [done|]. split; [|intros; lia].
      intros w [->|?]%elem_of_cons; [by apply fle_refl|by apply Hall].
    + exists v. destruct Hcase as [(Hk & Hnan & Hbefore)|(Hk & Hmax & Hbefore)].
      * left. split; [done|]. split; [done|].
        intros [|j] w Hj Hw; simpl in Hw; [by injection Hw as <-|].
        apply (Hbefore j); [lia|done].
      * right.
        assert (Hvn : Npf.isnan v = false).
        { destruct (fle_not_nan v v); [|done]. apply Hmax.
          eapply list_elem_of_lookup_2; eauto. }
        split; [done|]. split.
        -- intros w [->|?]%elem_of_cons; [by apply fle_total|by apply Hmax].
        -- intros [|j] w Hj Hw; simpl in Hw; [by injection Hw as <-|].
           apply (Hbefore j); [lia|done].
Qed.

(** ** The store is only ever extended *)

Section Frame.
Context {R : Rules} {E : Estimator}.

Lemma extends_refl w : extends w w.
Proof. by repeat split. Qed.

Lemma bind_Some {A B} (m : M A) (k : A -> M B) w b w' :
  bind m k w = Some (b, w') ->
  exists a w1, m w = Some (a, w1) /\ k a w1 = Some (b, w').
Proof. unfold bind. destruct (m w) as [[a w1]|]; [eauto|done]. Qed.

Lemma lift_Some {A} (o : option A) w a w' :
  lift o w = Some (a, w') -> o = Some a /\ w' = w.
Proof. unfold lift. destruct o; [|done]. by intros [= -> ->]. Qed.

Lemma keeps_ret {A} w0 (a : A) (Q : A -> Prop) : Q a -> keeps w0 (ret a) Q.
Proof. intros HQ w a' w' Hext [= <- <-]. done. Qed.

Lemma keeps_bind {A B} w0 (m : M A) (k : A -> M B) (P : A -> Prop) (Q : B -> Prop) :
  keeps w0 m P -> (forall a, P a -> keeps w0 (k a) Q) -> keeps w0 (bind m k) Q.
Proof.
  intros Hm Hk w b w' Hext (a & w1 & Ha & Hb)%bind_Some.
  destruct (Hm _ _ _ Hext Ha) as [Hext1 HP]. by apply (Hk a HP w1).
Qed.

Lemma keeps_weaken {A} w0 (m : M A) (P Q : A -> Prop) :
  keeps w0 m P -> (forall a, P a -> Q a) -> keeps w0 m Q.
Proof. intros Hm HPQ w a w' Hext Ha. destruct (Hm _ _ _ Hext Ha). split; auto. Qed.

Lemma keeps_lift {A} w0 (o : option A) : keeps w0 (lift o) (fun _ => True).
Proof. intros w a w' Hext [_ ->]%lift_Some. done. Qed.

Lemma keeps_read_board w0 r : keeps w0 (read_board r) (fun _ => True).
Proof. intros w a w' Hext [_ ->]%lift_Some. done. Qed.
Lemma keeps_read_score w0 r : keeps w0 (read_score r) (fun _ => True).
Proof. intros w a w' Hext [_ ->]%lift_Some. done. Qed.
Lemma keeps_read_deck w0 r : keeps w0 (read_deck r) (fun _ => True).
Proof. intros w a w' Hext [_ ->]%lift_Some. done. Qed.

Lemma prefix_insert_fresh {A} (l0 l : list A) (r : nat) (x : A) :
  l0 `prefix_of` l -> (length l0 <= r)%nat -> l0 `prefix_of` <[r := x]> l.
Proof.
  intros [k ->] Hr. rewrite insert_app_r_alt by done. by apply prefix_app_r.
Qed.

Lemma keeps_write_board w0 r b :
  (length (boards w0) <= r)%nat -> keeps w0 (write_board r b) (fun _ => True).
Proof.
  intros Hr w a w' (Hb & Hs & Hd) [= <- <-]. repeat split; simpl; try done.
  by apply prefix_insert_fresh.
Qed.
Lemma keeps_write_score w0 r s :
  (length (scores w0) <= r)%nat -> keeps w0 (write_score r s) (fun _ => True).
Proof.
  intros Hr w a w' (Hb & Hs & Hd) [= <- <-]. repeat split; simpl; try done.
  by apply prefix_insert_fresh.
Qed.
Lemma keeps_write_deck w0 r d :
  (length (decks w0) <= r)%nat -> keeps w0 (write_deck r d) (fun _ => True).
Proof.
  intros Hr w a w' (Hb & Hs & Hd) [= <- <-]. repeat split; simpl; try done.
  by apply prefix_insert_fresh.
Qed.

Lemma keeps_alloc_board w0 b :
  keeps w0 (alloc_board b) (fun r => (length (boards w0) <= r)%nat).
Proof.
  intros w a w' (Hb & Hs & Hd) [= <- <-]. repeat split; simpl; try done.
  - by apply prefix_app_r.
  - by apply prefix_length.
Qed.
Lemma keeps_alloc_score w0 s :
  keeps w0 (alloc_score s) (fun r => (length (scores w0) <= r)%nat).
Proof.
  intros w a w' (Hb & Hs & Hd) [= <- <-]. repeat split; simpl; try done.
  - by apply prefix_app_r.
  - by apply prefix_length.
Qed.
Lemma keeps_alloc_deck w0 d :
  keeps w0 (alloc_deck d) (fun r => (length (decks w0) <= r)%nat).
Proof.
  intros w a w' (Hb & Hs & Hd) [= <- <-]. repeat split; simpl; try done.
  - by apply prefix_app_r.
  - by apply prefix_length.
Qed.

Lemma keeps_board_get_copy w0 r :
  keeps w0 (board_get_copy r) (fun r' => (length (boards w0) <= r')%nat).
Proof.
  eapply keeps_bind; [apply keeps_read_board|]. intros b _. apply keeps_alloc_board.
Qed.
Lemma keeps_score_get_copy w0 r :
  keeps w0 (score_get_copy r) (fun r' => (length (scores w0) <= r')%nat).
Proof.
  eapply keeps_bind; [apply keeps_read_score|]. intros b _. apply keeps_alloc_score.
Qed.
Lemma keeps_deck_get_copy w0 r :
  keeps w0 (deck_get_copy r) (fun r' => (length (decks w0) <= r')%nat).
Proof.
  eapply keeps_bind; [apply keeps_read_deck|]. intros b _. apply keeps_alloc_deck.
Qed.
Lemma keeps_deck_create_dummy_deck w0 r :
  keeps w0 (deck_create_dummy_deck r) (fun r' => (length (decks w0) <= r')%nat).
Proof.
  eapply keeps_bind; [apply keeps_read_deck|]. intros b _. apply keeps_alloc_deck.
Qed.

Lemma keeps_prepare_model_inputs w0 r :
  keeps w0 (prepare_model_inputs r) (fun _ => True).
Proof.
  intros w a w' Hext. unfold prepare_model_inputs.
  destruct (augment _ _). intros [= <- <-]. done.
Qed.

Lemma keeps_get_representations w0 b d s o turn_of repr_fn :
  keeps w0 (get_representations b d s o turn_of repr_fn) (fun _ => True).
Proof.
  unfold get_representations.
  eapply keeps_bind; [apply keeps_read_board|]; intros ? _.
  eapply keeps_bind; [apply keeps_read_deck|]; intros ? _.
  eapply keeps_bind; [apply keeps_read_score|]; intros ? _.
  eapply keeps_bind; [apply keeps_read_score|]; intros ? _.
  by apply keeps_ret.
Qed.

Lemma keeps_rank w0 self b d s o turn_of repr_fn :
  keeps w0 (rank self b d s o turn_of repr_fn) (fun _ => True).
Proof.
  unfold rank.
  eapply keeps_bind; [apply keeps_get_representations|]; intros [? ?] _.
  eapply keeps_bind; [apply keeps_prepare_model_inputs|]; intros ? _.
  eapply keeps_bind; [apply keeps_lift|]; intros ? _.
  by apply keeps_ret.
Qed.

Lemma keeps_best_of w0 moves values :
  keeps w0 (best_of moves values) (fun _ => True).
Proof.
  unfold best_of.
  eapply keeps_bind; [apply keeps_lift|]; intros ? _.
  eapply keeps_bind; [apply keeps_lift|]; intros ? _.
  eapply keeps_bind; [apply keeps_lift|]; intros ? _.
  by apply keeps_ret.
Qed.

Lemma keeps_exchange_flag w0 r i : keeps w0 (exchange_flag r i) (fun _ => True).
Proof. apply keeps_lift. Qed.

(** [mock_move] writes through the three references it is given and
    returns them. *)
Lemma keeps_mock_move w0 mv b s d :
  (length (boards w0) <= b)%nat -> (length (scores w0) <= s)%nat ->
  (length (decks w0) <= d)%nat ->
  keeps w0 (mock_move mv b s d) (fun res => res.1 = (b, s, d)).
Proof.
  intros Hb Hs Hd. unfold mock_move.
  eapply keeps_bind; [apply keeps_read_board|]; intros ? _.
  eapply keeps_bind; [apply keeps_read_score|]; intros ? _.
  destruct (update_score _ _) as [s' [ingenious ?]].
  eapply keeps_bind; [by apply keeps_write_score|]; intros ? _.
  eapply keeps_bind; [by apply keeps_write_board|]; intros ? _.
  eapply keeps_bind; [apply keeps_lift|]; intros ? _.
  eapply keeps_bind; [apply keeps_lift|]; intros ? _.
  eapply keeps_bind; [apply keeps_read_deck|]; intros ? _.
  eapply keeps_bind; [by apply keeps_write_deck|]; intros ? _.
  by apply keeps_ret.
Qed.

Lemma keeps_mock_turn w0 fuel self b s o d mv v turn_of repr_fn :
  (length (boards w0) <= b)%nat -> (length (scores w0) <= s)%nat ->
  (length (decks w0) <= d)%nat ->
  keeps w0 (mock_turn fuel self (b, s, o, d) mv v turn_of repr_fn)
        (fun res => res.1.1 = (b, s, o, d)).
Proof.
  intros Hb Hs Hd. revert mv v. induction fuel as [|fuel IH]; intros mv v; simpl.
  - intros w a w' _ [? _]%lift_Some. done.
  - eapply keeps_bind; [by apply keeps_mock_move|].
    intros [[[b' s'] d'] ingenious] [= -> -> ->].
    eapply keeps_bind; [apply keeps_read_board|]; intros bv _.
    destruct (game_is_finished bv).
    + eapply keeps_bind; [apply keeps_read_score|]; intros ? _.
      eapply keeps_bind; [apply keeps_read_score|]; intros ? _.
      by apply keeps_ret.
    + destruct ingenious; simpl; [|by apply keeps_ret].
      eapply keeps_bind; [apply keeps_rank|]; intros [[? ?] ?] _.
      eapply keeps_bind; [apply keeps_best_of|]; intros [[? ?] ?] _.
      apply IH.
Qed.

(** How a finished game is valued: by comparing the winner with the
    [turn_of] that [mock_turn] was called with. *)
Lemma mock_turn_final_value fuel self st mv v turn_of repr_fn w st' v' w' :
  mock_turn fuel self st mv v turn_of repr_fn w = Some ((st', true, v'), w') ->
  exists s o,
    scores w' !! st'.1.1.2 = Some s /\ scores w' !! st'.1.2 = Some o /\
    v' = if find_winner_fast (get_score_copy s) (get_score_copy o) =? turn_of
         then FFin 1 else FFin (-1).
Proof.
  revert st mv v w; induction fuel as [|fuel IH]; intros [[[b s] o] d] mv v w;
    simpl.
  - done.
  - intros ([[[b1 s1] d1] ingenious] & w1 & _ & Hrest)%bind_Some.
    apply bind_Some in Hrest as (bv & ? & [_ ->]%lift_Some & Hrest).
    destruct (game_is_finished bv).
    + apply bind_Some in Hrest as (sv & ? & [Hs ->]%lift_Some & Hrest).
      apply bind_Some in Hrest as (ov & ? & [Ho ->]%lift_Some & Hrest).
      injection Hrest as <- <- <-. simpl. eauto.
    + destruct ingenious; simpl in Hrest; [|by injection Hrest].
      apply bind_Some in Hrest as ([[? ?] ?] & ? & _ & Hrest).
      apply bind_Some in Hrest as ([[? ?] ?] & ? & _ & Hrest).
      by apply IH in Hrest.
Qed.

Lemma keeps_for_each {A S} w0 (body : S -> A -> M S) (acc : S) (xs : list A) :
  (forall acc x, keeps w0 (body acc x) (fun _ => True)) ->
  keeps w0 (for_each body acc xs) (fun _ => True).
Proof.
  intros Hbody. revert acc; induction xs as [|x xs IH]; intros acc; simpl.
  - by apply keeps_ret.
  - eapply keeps_bind; [apply Hbody|]. intros acc' _. apply IH.
Qed.

End Frame.

Section SearchFrame.
Context {R : Rules} {E : Estimator}.
Variable argsort : list fval -> list nat.

Ltac step lem := eapply keeps_bind; [apply lem|].

Lemma keeps_branch2 w0 fuel self b d s o turn_of repr_fn moves values idxs top i :
  keeps w0 (RL2PlySearch.branch fuel self b d s o turn_of repr_fn moves values
              idxs top i) (fun _ => True).
Proof.
  unfold RL2PlySearch.branch.
  step keeps_board_get_copy; intros board Hboard.
  step keeps_score_get_copy; intros score Hscore.
  step keeps_score_get_copy; intros other_score Hother.
  step keeps_deck_get_copy; intros deck Hdeck.
  step @keeps_lift; intros ? _.
  step @keeps_lift; intros ? _.
  step @keeps_lift; intros ? _.
  eapply keeps_bind; [by apply keeps_mock_turn|].
  intros [[[[[b1 s1] o1] d1] finished] v] [= -> -> -> ->].
  destruct finished; [by apply keeps_ret|].
  step keeps_deck_create_dummy_deck; intros dummy _.
  step keeps_rank; intros [[? ?] ?] _.
  step keeps_best_of; intros [[? ?] ?] _.
  step keeps_deck_create_dummy_deck; intros dummy' Hdummy.
  eapply keeps_bind; [by apply keeps_mock_turn|].
  intros [[? ?] ?] _. by apply keeps_ret.
Qed.

Lemma keeps_choose_move2 w0 fuel self b d s o turn_of repr_fn :
  keeps w0 (RL2PlySearch.choose_move argsort fuel self b d s o turn_of repr_fn)
        (fun _ => True).
Proof.
  unfold RL2PlySearch.choose_move.
  step keeps_rank; intros [[? ?] ?] _.
  eapply keeps_bind.
  { apply keeps_for_each. intros acc x. apply keeps_branch2. }
  intros ? _.
  step @keeps_lift; intros ? _.
  step @keeps_lift; intros ? _.
  step @keeps_lift; intros ? _.
  step @keeps_lift; intros ? _.
  step keeps_exchange_flag; intros ? _.
  by apply keeps_ret.
Qed.

Lemma keeps_branch3 w0 fuel self b d s o turn_of repr_fn moves values idxs top i :
  keeps w0 (RL3PlySearch.branch fuel self b d s o turn_of repr_fn moves values
              idxs top i) (fun _ => True).
Proof.
  unfold RL3PlySearch.branch.
  step keeps_board_get_copy; intros board Hboard.
  step keeps_score_get_copy; intros score Hscore.
  step keeps_score_get_copy; intros other_score Hother.
  step keeps_deck_get_copy; intros deck Hdeck.
  step @keeps_lift; intros ? _.
  step @keeps_lift; intros ? _.
  step @keeps_lift; intros ? _.
  eapply keeps_bind; [by apply keeps_mock_turn|].
  intros [[[[[b1 s1] o1] d1] finished] v] [= -> -> -> ->].
  destruct finished; [by apply keeps_ret|].
  step keeps_deck_create_dummy_deck; intros dummy _.
  step keeps_rank; intros [[? ?] ?] _.
  step keeps_best_of; intros [[? ?] ?] _.
  step keeps_deck_create_dummy_deck; intros dummy' Hdummy.
  eapply keeps_bind; [by apply keeps_mock_turn|].
  intros [[[[[b2 s2] o2] d2] finished] v'] [= -> -> -> ->].
  destruct finished; [by apply keeps_ret|].
  step keeps_rank; intros [[? ?] ?] _.
  step keeps_best_of; intros [[? ?] ?] _.
  eapply keeps_bind; [by apply keeps_mock_turn|].
  intros [[? ?] ?] _. by apply keeps_ret.
Qed.

Lemma keeps_choose_move3 w0 fuel self b d s o turn_of repr_fn :
  keeps w0 (RL3PlySearch.choose_move argsort fuel self b d s o turn_of repr_fn)
        (fun _ => True).
Proof.
  unfold RL3PlySearch.choose_move.
  step keeps_rank; intros [[? ?] ?] _.
  eapply keeps_bind.
  { apply keeps_for_each. intros acc x. apply keeps_branch3. }
  intros ? _.
  step @keeps_lift; intros ? _.
  step @keeps_lift; intros ? _.
  step @keeps_lift; intros ? _.
  step @keeps_lift; intros ? _.
  step keeps_exchange_flag; intros ? _.
  by apply keeps_ret.
Qed.

Lemma rank_reads self b d s o turn_of repr_fn w res w' :
  rank self b d s o turn_of repr_fn w = Some (res, w') ->
  is_Some (boards w !! b) /\ is_Some (decks w !! d) /\
  is_Some (scores w !! s) /\ is_Some (scores w !! o).
Proof.
  unfold rank, get_representations.
  intros (? & ? & Hg & _)%bind_Some.
  apply bind_Some in Hg as (? & ? & [Hb ->]%lift_Some & Hg).
  apply bind_Some in Hg as (? & ? & [Hd ->]%lift_Some & Hg).
  apply bind_Some in Hg as (? & ? & [Hs ->]%lift_Some & Hg).
  apply bind_Some in Hg as (? & ? & [Ho ->]%lift_Some & Hg).
  rewrite Hb, Hd, Hs, Ho. eauto.
Qed.

Lemma extends_live_state w w' b d s o :
  extends w w' ->
  is_Some (boards w !! b) -> is_Some (decks w !! d) ->
  is_Some (scores w !! s) -> is_Some (scores w !! o) ->
  live_state_unchanged w w' b d s o.
Proof.
  intros (Hb & Hs & Hd) [? Eb] [? Ed] [? Es] [? Eo].
  unfold live_state_unchanged. rewrite Eb, Ed, Es, Eo.
  repeat split; by eapply prefix_lookup_Some.
Qed.

(** C1.  When [RL2PlySearch.choose_move] or [RL3PlySearch.choose_move]
    returns, every object that was in the store at the call is unchanged,
    the four live objects passed in among them: the simulated turns write
    only to the copies made for their branch. *)
Theorem search_keeps_live_state (fuel : nat) (self : RLVanilla)
    (board_original deck_original score_original other_score_original : nat)
    (turn_of : Z) (repr_fn : ReprFn) (w : World) :
  (forall res w',
     RL2PlySearch.choose_move argsort fuel self board_original deck_original
       score_original other_score_original turn_of repr_fn w = Some (res, w') ->
     extends w w' /\
     live_state_unchanged w w' board_original deck_original score_original
       other_score_original) /\
  (forall res w',
     RL3PlySearch.choose_move argsort fuel self board_original deck_original
       score_original other_score_original turn_of repr_fn w = Some (res, w') ->
     extends w w' /\
     live_state_unchanged w w' board_original deck_original score_original
       other_score_original).
Proof.
  split; intros res w' Hrun.
  - destruct (keeps_choose_move2 w _ _ _ _ _ _ _ _ w res w' (extends_refl w) Hrun)
      as [Hext _].
    split; [done|].
    apply bind_Some in Hrun as (? & ? & (? & ? & ? & ?)%rank_reads & _).
    by apply extends_live_state.
  - destruct (keeps_choose_move3 w _ _ _ _ _ _ _ _ w res w' (extends_refl w) Hrun)
      as [Hext _].
    split; [done|].
    apply bind_Some in Hrun as (? & ? & (? & ? & ? & ?)%rank_reads & _).
    by apply extends_live_state.
Qed.

End SearchFrame.

(** ** Sub-batching does not change the predictions *)




(** ** Sizes and the empty flag of fresh representations *)

Section EncoderFacts.
Context {R : Rules}.

Lemma generate_batched_no_rows (board : Board) (deck : Deck)
    (score other_score : Score) (turn_of : Z) :
  empty_batch_aligned board deck score ->
  exists buf,
    RepresentationGenerator.generate_batched board deck score other_score
      turn_of [] = Some (buf, []) /\
    RepresentationsBuffer.size buf = 0 /\
    RepresentationsBuffer.empty buf = 0.
Proof.
  unfold empty_batch_aligned, RepresentationGenerator.generate_batched.
  change (RepresentationGenerator.tile_columns []) with (@nil (list Z)).
  destruct (batch_peek_next_scores _ _) as [[updated ingenious] num_ingenious].
  intros (-> & -> & ->). cbn. eexists. split; [reflexivity|]. done.
Qed.

End EncoderFacts.

(** C3, as the code has it.  Encoding a batch with no rows returns a
    representation of size 0 whose empty flag is 0: the setter clears the
    flag whatever the number of rows.  Encoding a single state returns a
    representation of size 1 whose empty flag is 0. *)
Theorem fresh_representation_sizes {R : Rules} (board : Board) (deck : Deck)
    (score other_score : Score)
    (ingenious num_ingenious can_exchange should_exchange turn_of : Z) :
  empty_batch_aligned board deck score ->
  (exists buf,
     RepresentationGenerator.generate_batched board deck score other_score
       turn_of [] = Some (buf, []) /\
     RepresentationsBuffer.size buf = 0 /\
     RepresentationsBuffer.empty buf = 0) /\
  RepresentationsBuffer.size
    (RepresentationGenerator.generate board deck score other_score ingenious
       num_ingenious can_exchange should_exchange turn_of) = 1 /\
  RepresentationsBuffer.empty
    (RepresentationGenerator.generate board deck score other_score ingenious
       num_ingenious can_exchange should_exchange turn_of) = 0.
Proof.
  intros Haligned. split; [by apply generate_batched_no_rows|]. done.
Qed.

Lemma fresh_representation_sizes_witness :
  empty_batch_aligned (R := Toy.rules) Examples.short_game Examples.hand
    Examples.ahead /\
  RepresentationsBuffer.size
    (RepresentationGenerator.generate (R := Toy.rules) Examples.short_game
       Examples.hand Examples.ahead Examples.behind 0 0 0 0 1) = 1.
Proof.
  assert (Haligned : empty_batch_aligned (R := Toy.rules) Examples.short_game
                       Examples.hand Examples.ahead).
  { repeat split. }
  split; [exact Haligned|].
  exact (proj1 (proj2 (fresh_representation_sizes (R := Toy.rules)
                         Examples.short_game Examples.hand Examples.ahead
                         Examples.behind 0 0 0 0 1 Haligned))).
Defined.

(** C3 as stated fails: the representation of an empty batch has size 0
    and its empty flag cleared, not set. *)
Lemma generate_batched_empty_flag_cleared :
  exists buf,
    RepresentationGenerator.generate_batched (R := Toy.rules)
      Examples.short_game Examples.hand Examples.ahead Examples.behind 1 []
    = Some (buf, []) /\
    RepresentationsBuffer.size buf = 0 /\
    RepresentationsBuffer.empty buf = 0 /\
    RepresentationsBuffer.empty buf <> 1.
Proof. eexists. split; [reflexivity|]. repeat split. discriminate. Qed.

(** ** Non-finite predictions *)

Section Selection.
Context {R : Rules} {E : Estimator}.

Lemma argmax_list_plain (a : list fval) (k : nat) :
  Npf.argmax_list a = Some k ->
  exists v, a !! k = Some v /\ plain_argmax a k v.
Proof.
  intros Harg. destruct (argmax_list_spec a k Harg) as [v Hv].
  exists v. split; [|exact Hv]. by destruct Hv as [[? _]|[? _]].
Qed.

(** The lines after the loop of a search. *)
Lemma selection_plain (top_k_indices : list nat) (moves : list Move)
    (representations : Repr) (top_k_values : list fval) (w w' : World)
    (best_move : Move) (should_exchange : Z) (best_move_value : fval) :
  (let* k := lift (Npf.argmax_list top_k_values) in
   let* best_move_idx := lift (top_k_indices !! k) in
   let* best_move_value := lift (Npf.max top_k_values) in
   let* best_move := lift (moves !! best_move_idx) in
   let* should_exchange := exchange_flag representations best_move_idx in
   ret ((best_move, should_exchange), best_move_value)) w
  = Some ((best_move, should_exchange), best_move_value, w') ->
  w' = w /\
  exists k best_move_idx,
    plain_argmax top_k_values k best_move_value /\
    top_k_indices !! k = Some best_move_idx /\
    moves !! best_move_idx = Some best_move.
Proof.
  intros (k & ? & [Harg ->]%lift_Some & Hrest)%bind_Some.
  apply bind_Some in Hrest as (idx & ? & [Hidx ->]%lift_Some & Hrest).
  apply bind_Some in Hrest as (v & ? & [Hmax ->]%lift_Some & Hrest).
  apply bind_Some in Hrest as (mv & ? & [Hmv ->]%lift_Some & Hrest).
  apply bind_Some in Hrest as (ex & ? & [Hex ->]%lift_Some & Hrest).
  injection Hrest as <- <- <- <-. split; [done|].
  exists k, idx. split; [|done].
  destruct (argmax_list_plain _ _ Harg) as (v' & Hv' & Hplain).
  unfold Npf.max in Hmax. rewrite Harg in Hmax. cbn in Hmax.
  rewrite Hv' in Hmax. by injection Hmax as <-.
Qed.

End Selection.

(** C10, as the code has it.  None of the three learned strategies tests a
    prediction for finiteness.  [RLVanilla.choose_move] returns the row that
    [np.argmax] settles on among the predictions: the first NaN row if
    there is one, else the first row holding the largest prediction; when
    every prediction is finite that is the first largest one, and finite.
    [RL2PlySearch.choose_move] and [RL3PlySearch.choose_move] take the last
    [min(8, rows)] positions of [np.argsort] of the predictions, whatever
    the predictions are, fill [top_k_values] by simulating each of them, and
    return the candidate that [np.argmax] settles on among [top_k_values],
    with that value. *)
Theorem choose_move_takes_plain_argmax {R : Rules} {E : Estimator}
    (argsort : list fval -> list nat) (fuel : nat) (self : RLVanilla)
    (board deck score other_score : nat) (turn_of : Z) (repr_fn : ReprFn)
    (w : World) :
  (forall best_move should_exchange best_move_value w',
     choose_move self board deck score other_score turn_of repr_fn w
       = Some ((best_move, should_exchange), best_move_value, w') ->
     exists representations moves values i,
       rank self board deck score other_score turn_of repr_fn w
         = Some ((representations, moves, values), w') /\
       moves !! i = Some best_move /\
       plain_argmax (Npf.elems values) i best_move_value /\
       (Forall (fun v => Npf.isfinite v = true) (Npf.elems values) ->
        first_max (Npf.elems values) i best_move_value /\
        Npf.isfinite best_move_value = true)) /\
  (forall best_move should_exchange best_move_value w',
     RL2PlySearch.choose_move argsort fuel self board deck score other_score
       turn_of repr_fn w
       = Some ((best_move, should_exchange), best_move_value, w') ->
     exists representations moves values w1 top_k_values k best_move_idx,
       rank self board deck score other_score turn_of repr_fn w
         = Some ((representations, moves, values), w1) /\
       for_each (RL2PlySearch.branch fuel self board deck score other_score
                   turn_of repr_fn moves values (top_k argsort moves values))
                (blank_top_k moves)
                (Npf.range (Z.min search_n (Z.of_nat (length moves)))) w1
         = Some (top_k_values, w') /\
       plain_argmax top_k_values k best_move_value /\
       top_k argsort moves values !! k = Some best_move_idx /\
       moves !! best_move_idx = Some best_move) /\
  (forall best_move should_exchange best_move_value w',
     RL3PlySearch.choose_move argsort fuel self board deck score other_score
       turn_of repr_fn w
       = Some ((best_move, should_exchange), best_move_value, w') ->
     exists representations moves values w1 top_k_values k best_move_idx,
       rank self board deck score other_score turn_of repr_fn w
         = Some ((representations, moves, values), w1) /\
       for_each (RL3PlySearch.branch fuel self board deck score other_score
                   turn_of repr_fn moves values (top_k argsort moves values))
                (blank_top_k moves)
                (Npf.range (Z.min search_n (Z.of_nat (length moves)))) w1
         = Some (top_k_values, w') /\
       plain_argmax top_k_values k best_move_value /\
       top_k argsort moves values !! k = Some best_move_idx /\
       moves !! best_move_idx = Some best_move).
Proof.
  split; [|split]; intros best_move should_exchange best_move_value w'.
  - unfold choose_move.
    intros ([[representations moves] values] & w1 & Hrank & Hrest)%bind_Some.
    apply bind_Some in Hrest as (i & ? & [Harg ->]%lift_Some & Hrest).
    apply bind_Some in Hrest as (mv & ? & [Hmv ->]%lift_Some & Hrest).
    apply bind_Some in Hrest as (ex & ? & [Hex ->]%lift_Some & Hrest).
    apply bind_Some in Hrest as (v & ? & [Hv ->]%lift_Some & Hrest).
    injection Hrest as <- <- <- <-.
    assert (Hi : Npf.elems values !! i = Some v).
    { destruct values; [done|exact Hv]. }
    destruct (argmax_list_plain _ _ Harg) as (v' & Hv' & Hplain).
    rewrite Hi in Hv'. injection Hv' as <-.
    exists representations, moves, values, i.
    split; [done|]. split; [done|]. split; [done|].
    intros Hall. split.
    + destruct Hplain as [(_ & Hnan & _)|Hmax]; [|done].
      eapply Forall_lookup_1 in Hall; [|exact Hi]. by destruct v.
    + eapply Forall_lookup_1 in Hall; [|exact Hi]. done.
  - unfold RL2PlySearch.choose_move.
    intros ([[representations moves] values] & w1 & Hrank & Hrest)%bind_Some.
    apply bind_Some in Hrest as (top_k_values & w2 & Hloop & Hrest).
    apply selection_plain in Hrest as (-> & k & idx & Hplain & Hidx & Hmv).
    exists representations, moves, values, w1, top_k_values, k, idx. done.
  - unfold RL3PlySearch.choose_move.
    intros ([[representations moves] values] & w1 & Hrank & Hrest)%bind_Some.
    apply bind_Some in Hrest as (top_k_values & w2 & Hloop & Hrest).
    apply selection_plain in Hrest as (-> & k & idx & Hplain & Hidx & Hmv).
    exists representations, moves, values, w1, top_k_values, k, idx. done.
Qed.

Section OnUndefined.
Import Toy.

Lemma choose_move_takes_plain_argmax_witness :
  (exists representations moves values i best_move w',
     rank Examples.strategy 0 0 0 1 1 Toy.repr_fn Examples.live
       = Some ((representations, moves, values), w') /\
     moves !! i = Some best_move /\
     plain_argmax (Npf.elems values) i (FFin (60 # 100))) /\
  (exists best_move should_exchange best_move_value w' top_k_values k,
     RL2PlySearch.choose_move stable_argsort 5 Examples.strategy 0 0 0 1 1
       Toy.repr_fn Examples.live
       = Some ((best_move, should_exchange), best_move_value, w') /\
     plain_argmax top_k_values k best_move_value) /\
  (exists best_move should_exchange best_move_value w' top_k_values k,
     RL3PlySearch.choose_move stable_argsort 5 Examples.strategy 0 0 0 1 1
       Toy.repr_fn Examples.live
       = Some ((best_move, should_exchange), best_move_value, w') /\
     plain_argmax top_k_values k best_move_value).
Proof.
  destruct (choose_move_takes_plain_argmax (R := Toy.rules)
              (E := Toy.estimator) stable_argsort 5 Examples.strategy
              0 0 0 1 1 Toy.repr_fn Examples.live) as (H1 & H2 & H3).
  split; [|split].
  - edestruct H1
      as (representations & moves & values & i & Hrank & Hmv & Hplain & _).
    { vm_compute. reflexivity. }
    exists representations, moves, values, i. eexists. eexists.
    split; [exact Hrank|]. split; [exact Hmv|exact Hplain].
  - assert (Hrun : exists res w',
              RL2PlySearch.choose_move stable_argsort 5 Examples.strategy
                0 0 0 1 1 Toy.repr_fn Examples.live = Some (res, w')).
    { eexists. eexists. vm_compute. reflexivity. }
    destruct Hrun as ([[best_move should_exchange] best_move_value] & w' & Hrun).
    destruct (H2 _ _ _ _ Hrun)
      as (? & ? & ? & ? & top_k_values & k & ? & _ & _ & Hplain & _).
    exists best_move, should_exchange, best_move_value, w', top_k_values, k.
    split; [exact Hrun|exact Hplain].
  - assert (Hrun : exists res w',
              RL3PlySearch.choose_move stable_argsort 5 Examples.strategy
                0 0 0 1 1 Toy.repr_fn Examples.live = Some (res, w')).
    { eexists. eexists. vm_compute. reflexivity. }
    destruct Hrun as ([[best_move should_exchange] best_move_value] & w' & Hrun).
    destruct (H3 _ _ _ _ Hrun)
      as (? & ? & ? & ? & top_k_values & k & ? & _ & _ & Hplain & _).
    exists best_move, should_exchange, best_move_value, w', top_k_values, k.
    split; [exact Hrun|exact Hplain].
Defined.

(** C10 as stated fails: the predictions of this batch hold the finite
    value 0.6, and each of the three strategies selects the row predicted
    NaN. *)
Lemma rl_strategies_select_nan_row :
  option_map (fun res => Npf.elems res.1.2)
    (rank Examples.strategy 0 0 0 1 1 Toy.repr_fn Examples.undefined_value)
  = Some [FFin (60 # 100); FNaN] /\
  option_map fst
    (choose_move Examples.strategy 0 0 0 1 1 Toy.repr_fn
       Examples.undefined_value)
  = Some (([3; 998; 5; 0; 0; 0; 2; 3], 0), FNaN) /\
  option_map fst
    (RL2PlySearch.choose_move stable_argsort 5 Examples.strategy 0 0 0 1 1
       Toy.repr_fn Examples.undefined_value)
  = Some (([3; 998; 5; 0; 0; 0; 2; 3], 0), FFin 1) /\
  option_map fst
    (RL3PlySearch.choose_move stable_argsort 5 Examples.strategy 0 0 0 1 1
       Toy.repr_fn Examples.undefined_value)
  = Some (([3; 998; 5; 0; 0; 0; 2; 3], 0), FFin 1) /\
  Npf.isfinite (FFin (60 # 100)) = true /\
  Npf.isfinite FNaN = false.
Proof. vm_compute. repeat split. Qed.

End OnUndefined.

(** ** Witnesses on the toy game *)

Section OnToy.
Import Toy Examples.

Lemma search_keeps_live_state_witness :
  (exists res w',
     RL2PlySearch.choose_move stable_argsort 5 strategy 0 0 0 1 1 repr_fn live
       = Some (res, w') /\
     live_state_unchanged live w' 0 0 0 1) /\
  (exists res w',
     RL3PlySearch.choose_move stable_argsort 5 strategy 0 0 0 1 1 repr_fn live
       = Some (res, w') /\
     live_state_unchanged live w' 0 0 0 1).
Proof.
  destruct (search_keeps_live_state (R := rules) (E := estimator) stable_argsort 5 strategy 0 0 0 1 1 repr_fn
              live) as [H2 H3].
  split.
  - eexists. eexists. split; [vm_compute; reflexivity|].
    eapply H2. vm_compute. reflexivity.
  - eexists. eexists. split; [vm_compute; reflexivity|].
    eapply H3. vm_compute. reflexivity.
Defined.

Lemma increase_min_selection_witness :
  possible_moves_of capped_board one_tile <> [] /\
  post_move_scores_ok (get_score capped)
    (updated_scores_of capped_board one_tile capped) /\
  choose_increase_min_move capped_board one_tile capped
    = choose_max_scoring_move capped_board one_tile capped.
Proof.
  assert (Hne : possible_moves_of capped_board one_tile <> []) by discriminate.
  assert (Hok : post_move_scores_ok (get_score capped)
                  (updated_scores_of capped_board one_tile capped)).
  { repeat constructor; vm_compute; congruence. }
  split; [exact Hne|]. split; [exact Hok|].
  destruct (increase_min_selection (R := rules) capped_board one_tile capped
              Hne eq_refl ltac:(discriminate) Hok)
    as (i & mv & row & _ & _ & _ & _ & _ & _ & Hcapped).
  exact (Hcapped eq_refl).
Defined.

Lemma reduce_deficit_selection_witness :
  possible_moves_of deficit_board one_tile <> [] /\
  choose_reduce_deficit_move deficit_board one_tile behind leader 0
    = Some [5; 0; 0; 0; 0; 0; 2; 3].
Proof.
  assert (Hne : possible_moves_of deficit_board one_tile <> []) by discriminate.
  split; [exact Hne|].
  destruct (reduce_deficit_selection (R := rules) deficit_board one_tile
              behind leader 0 Hne eq_refl)
    as (_ & _ & Hscenario).
  apply (Hscenario 0%nat 1%nat 0 0 [5; 0; 0; 0; 0; 0; 2; 3]
           [10; 0; 1; 0; 0; 0; 2; 3]); try done.
  - intros [|[|[|[|[|[|j]]]]]] x y Hj Hx Hy; try done;
      injection Hx as <-; injection Hy as <-; lia.
  - left. split; reflexivity.
Defined.

End OnToy.

(** ** Where the code departs from its own design *)

(** C7.  With [inference] set, [choose_should_exchange] returns true; in
    real play it draws from [randint(0, high=1)], a range that holds 0
    alone, and returns false for every draw. *)
Theorem choose_should_exchange_never_flips :
  (forall r, choose_should_exchange true r = Some true) /\
  (forall r, choose_should_exchange false r = Some false).
Proof.
  split; intros r; [done|].
  unfold choose_should_exchange, Np.random_randint. simpl.
  by rewrite Z.mod_1_r.
Qed.

Lemma choose_random_move_index {R : Rules} (board : Board) (deck : Deck)
    (r : nat) :
  ((length (possible_moves_of board deck) <= 1)%nat /\
   choose_random_move board deck r = None) \/
  (exists i, (S i < length (possible_moves_of board deck))%nat /\
             choose_random_move board deck r = possible_moves_of board deck !! i).
Proof.
  unfold choose_random_move, Np.random_randint.
  set (n := length (possible_moves_of board deck)).
  destruct (Z.leb_spec (Z.of_nat n - 1) 0) as [Hsmall|Hbig].
  - left. split; [lia|done].
  - right. exists (Z.to_nat (Z.of_nat r mod (Z.of_nat n - 1))).
    pose proof (Z.mod_pos_bound (Z.of_nat r) (Z.of_nat n - 1) ltac:(lia)).
    split; [lia|]. simpl. by rewrite Z.sub_0_r.
Qed.

(** C8.  [choose_random_move] draws its position from
    [randint(0, high=n - 1)], which leaves out [n - 1]: the move returned is
    never at the last position of the batch, and with a single candidate
    the draw raises. *)
Theorem choose_random_move_skips_last {R : Rules} (board : Board) (deck : Deck)
    (r : nat) :
  ((length (possible_moves_of board deck) <= 1)%nat /\
   choose_random_move board deck r = None) \/
  (exists i, (S i < length (possible_moves_of board deck))%nat /\
             choose_random_move board deck r = possible_moves_of board deck !! i).
Proof. apply choose_random_move_index. Qed.

(** After [n] calls the margin of [MixedStrategy3] is [15 - n], whatever
    the positions it was called on. *)
Lemma run_mixed3_margin {R : Rules} (calls : list Call)
    (self final : MixedStrategy3.t) (margins : list Z) :
  run_mixed3 calls self = Some (margins, final) ->
  MixedStrategy3.margin final =
    MixedStrategy3.margin self - Z.of_nat (length calls).
Proof.
  revert self margins; induction calls as [|c calls IH]; intros self margins.
  - intros [= <- <-]. simpl. lia.
  - cbn -[Z.of_nat].
    destruct (MixedStrategy3.choose_move _ _ _ _ _ _ _) as [[ch self']|] eqn:Hc;
      [|done].
    cbn -[Z.of_nat].
    destruct (run_mixed3 calls self') as [[ms fin]|] eqn:Hrun; [|done].
    cbn -[Z.of_nat]. intros [= <- <-]. rewrite (IH _ _ Hrun).
    unfold MixedStrategy3.choose_move in Hc.
    destruct (choose_reduce_deficit_move _ _ _ _ _); [|done].
    cbn in Hc. destruct (choose_should_exchange _ _); [|done].
    injection Hc as _ <-. simpl. lia.
Qed.

Section OnToyDefects.
Import Toy Examples.

(** Three candidates, the third never chosen. *)
Lemma choose_random_move_three_candidates (r : nat) :
  possible_moves_of capped_board one_tile =
    [[3; 0; 0; 0; 0; 0; 2; 3]; [2; 0; 1; 0; 0; 0; 2; 3]; [2; 0; 2; 0; 0; 0; 2; 3]] /\
  (choose_random_move capped_board one_tile r = Some [3; 0; 0; 0; 0; 0; 2; 3] \/
   choose_random_move capped_board one_tile r = Some [2; 0; 1; 0; 0; 0; 2; 3]).
Proof.
  split; [reflexivity|].
  destruct (choose_random_move_index (R := rules) capped_board one_tile r)
    as [[Hlen _]|(i & Hi & ->)].
  - vm_compute in Hlen. lia.
  - vm_compute in Hi.
    destruct i as [|[|i]]; [by left|by right|lia].
Qed.

(** C9.  [np.max(self.margin - 1, 0)] reduces over axis 0 and returns
    [self.margin - 1]: nothing floors the margins.  On its 17th call
    [MixedStrategy3] hands the margin -1 to [choose_reduce_deficit_move] and
    is left with -2; [MixedStrategy4] hands over -1 on its 31st call. *)
Theorem mixed_margins_fall_below_zero :
  option_map (fun res => (last res.1, MixedStrategy3.margin res.2))
    (run_mixed3 (replicate 17 call) MixedStrategy3.init)
  = Some (Some (-1), -2) /\
  option_map (fun res => (last res.1, MixedStrategy4.margin res.2))
    (run_mixed4 (replicate 31 call) MixedStrategy4.init)
  = Some (Some (-1), -1).
Proof. split; vm_compute; reflexivity. Qed.

(** C6.  In this position every line of the 3-ply search ends the game on
    the third ply, won by the side choosing the move (player 1).  The
    third mock turn is run with [get_other_player(turn_of)], so the win is
    recorded as -1, and -1 is the value the search returns. *)
Theorem third_ply_win_recorded_as_loss :
  let moves := possible_moves_of short_game hand in
  let values :=
    Npf.Vector [FFin (60 # 100); FFin (60 # 100); FFin (60 # 100);
                FFin (40 # 100); FFin (40 # 100); FFin (40 # 100)] in
  let top_k_indices := [3; 4; 5; 0; 1; 2]%nat in
  option_map (fun res => (res.1.1.2, res.1.2))
    (rank strategy 0 0 0 1 1 repr_fn live) = Some (moves, values) /\
  Npf.slice_from (- 6) (stable_argsort (Npf.elems values)) = top_k_indices /\
  (exists w' finished mover other,
     RL3PlySearch.branch 5 strategy 0 0 0 1 1 repr_fn moves values
       top_k_indices (replicate 6 (FFin 0)) 0 live
     = Some (<[0%nat := FFin (-1)]> (replicate 6 (FFin 0)), w') /\
     boards w' !! 1%nat = Some finished /\
     played finished = 3 /\ game_is_finished finished = true /\
     scores w' !! 2%nat = Some mover /\ scores w' !! 3%nat = Some other /\
     find_winner_fast (get_score_copy mover) (get_score_copy other) = 1) /\
  option_map fst
    (RL3PlySearch.choose_move stable_argsort 5 strategy 0 0 0 1 1 repr_fn live)
  = Some (([1; 40; 1; 0; 0; 0; 2; 3], 0), FFin (-1)).
Proof.
  split; [vm_compute; reflexivity|]. split; [vm_compute; reflexivity|].
  split; [|vm_compute; reflexivity].
  eexists. eexists. eexists. eexists.
  split; [vm_compute; reflexivity|]. repeat split.
Qed.

End OnToyDefects.
(** * Further properties *)

(** ** Further properties of the heuristics *)

Section MoreHeuristicFacts.
Context {R : Rules}.
Variables (board : Board) (deck : Deck) (score other_score : Score).

Local Abbreviation possible := (possible_moves_of board deck).
Local Abbreviation updated := (updated_scores_of board deck score).
Local Abbreviation original := (get_score score).
Local Abbreviation gain := (total_gain original).

(** X1.  On a non-empty, batch-aligned batch [choose_max_scoring_move]
    returns the first candidate whose total score gain is largest: no
    candidate gains more, and every earlier candidate gains strictly less. *)
Theorem max_choice_is_first_largest_gain :
  possible <> [] -> length updated = length possible ->
  exists i mv row,
    choose_max_scoring_move board deck score = Some mv /\
    possible !! i = Some mv /\ updated !! i = Some row /\
    (forall row', row' ∈ updated -> gain row' <= gain row) /\
    (forall j row', (j < i)%nat -> updated !! j = Some row' ->
                    gain row' < gain row).
Proof.
  intros Hne Hlen.
  destruct (choose_max_scoring_move_spec board deck score Hne Hlen)
    as (i & mv & row & Hc & Harg & Hmv & Hrow & Hmax).
  exists i, mv, row. repeat split; try done.
  intros j row' Hj Hrow'.
  destruct (argmax_spec _ _ Harg) as (m & Hm & _ & Hfirst).
  rewrite list_lookup_fmap, Hrow in Hm. injection Hm as <-.
  apply (Hfirst j); [done|]. by rewrite list_lookup_fmap, Hrow'.
Qed.

Local Abbreviation other_min_total m :=
  (fun row => Np.sum (Np.cols row (Np.where_eq (get_score other_score) m))).

(** X2.  [choose_increase_other_min_move] takes the colours at the
    opponent's lowest score and sums the mover's would-be scores over them.
    When some candidate brings that sum above 0 the result maximizes it,
    and among the candidates attaining the maximum has the largest total
    gain; otherwise the result is the one of [choose_increase_min_move]. *)
Theorem increase_other_min_selection :
  possible <> [] -> length updated = length possible ->
  get_score other_score <> [] ->
  exists m best,
    Np.min (get_score other_score) = Some m /\
    Np.max (map (other_min_total m) updated) = Some best /\
    (0 < best ->
       exists i mv row,
         choose_increase_other_min_move board deck score other_score = Some mv /\
         possible !! i = Some mv /\ updated !! i = Some row /\
         other_min_total m row = best /\
         (forall row', row' ∈ updated -> other_min_total m row' <= best) /\
         (forall row', row' ∈ updated -> other_min_total m row' = best ->
                       gain row' <= gain row)) /\
    (best <= 0 ->
       choose_increase_other_min_move board deck score other_score =
       choose_increase_min_move board deck score).
Proof.
  intros Hne Hlen Horig.
  destruct (np_min_is_Some _ Horig) as [m Hm].
  set (T := map (other_min_total m) updated).
  assert (HT : length T = length possible) by (unfold T; by rewrite length_map).
  destruct (np_max_is_Some T) as [best Hbest].
  { intros E. rewrite E in HT. destruct possible; [done|discriminate]. }
  destruct (np_max_spec _ _ Hbest) as [Hin Hmax].
  exists m, best. split; [done|]. split; [done|].
  unfold choose_increase_other_min_move. rewrite Hm. cbn -[Np.max Np.argmax].
  rewrite map_map. fold T. rewrite Hbest. cbn -[Np.max Np.argmax].
  destruct (Z.ltb_spec 0 best) as [Hpos|Hnpos]; [|split; [lia|done]].
  split; [intros _|lia].
  set (idxs := Np.where_eq T best).
  assert (Hidxs : idxs <> []) by (by apply where_eq_nonempty).
  assert (Hrange : forall j, j ∈ idxs ->
            exists row', updated !! j = Some row' /\ other_min_total m row' = best).
  { intros j Hj%where_eq_lookup. unfold T in Hj. rewrite list_lookup_fmap in Hj.
    destruct (updated !! j) as [row'|]; [|done]. injection Hj as Hj. eauto. }
  assert (Hback : forall j row', updated !! j = Some row' ->
            other_min_total m row' = best -> j ∈ idxs).
  { intros j row' Hj Hb. apply where_eq_lookup. unfold T.
    rewrite list_lookup_fmap, Hj. simpl. by rewrite Hb. }
  assert (Hle : forall row', row' ∈ updated -> other_min_total m row' <= best).
  { intros row' Hin'. apply Hmax. unfold T. apply list_elem_of_fmap. eauto. }
  destruct (Nat.eqb_spec (length idxs) 1) as [Hone|Hmany].
  - destruct idxs as [|i [|? ?]] eqn:Eidxs; try discriminate. cbn.
    destruct (Hrange i) as (row & Hrow & Hb); [left|].
    assert (Hmv : is_Some (possible !! i)).
    { apply lookup_lt_is_Some. rewrite <- Hlen. by eapply lookup_lt_Some. }
    destruct Hmv as [mv Hmv].
    exists i, mv, row. repeat split; try done.
    intros row' (j & Hj)%list_elem_of_lookup Hb'.
    specialize (Hback j row' Hj Hb'). apply list_elem_of_singleton in Hback as ->.
    rewrite Hrow in Hj. injection Hj as <-. lia.
  - destruct (tie_break possible (map gain updated) idxs Hidxs)
      as (gs & k & i & mv & g & ms & Hgs & Hk & Hms & Hmsk & Hik & Hmv & Hg & Hbestg).
    { apply Forall_forall. intros j Hj. destruct (Hrange j Hj) as (row' & Hrow' & _).
      apply lookup_lt_Some in Hrow'. rewrite length_map. lia. }
    rewrite take_idxs_map in Hgs. apply fmap_Some in Hgs as (rows & Hrows & ->).
    rewrite Hms. cbn -[Np.argmax]. rewrite Hrows. cbn -[Np.argmax].
    rewrite Hk. cbn.
    destruct (Hrange i) as (row & Hrow & Hb).
    { apply list_elem_of_lookup. eauto. }
    rewrite list_lookup_fmap, Hrow in Hg. injection Hg as Hg.
    exists i, mv, row. repeat split; try done.
    intros row' (j & Hj)%list_elem_of_lookup Hb'. rewrite Hg.
    apply (Hbestg j); [by eapply Hback|]. by rewrite list_lookup_fmap, Hj.
Qed.

End MoreHeuristicFacts.

Lemma sum_zip_with_le {A B} (f g : A -> B -> Z) (l : list A) (k : list B) :
  (forall a b, f a b <= g a b) ->
  Np.sum (zip_with f l k) <= Np.sum (zip_with g l k).
Proof.
  intros Hfg. revert k; induction l as [|a l IH]; intros [|b k]; simpl; try lia.
  specialize (IH k). specialize (Hfg a b). unfold Np.sum in *. lia.
Qed.

(** X3.  The deficit of a colour is [max(other + margin - updated, 0)]: it
    is 0 exactly when the mover leads by the margin or more.  Raising the
    margin never lowers the summed deficit of a candidate, and the summed
    deficit is 0 exactly when every colour is led by the margin or more. *)
Theorem total_deficit_in_margin (margin : Z) (d : nat) (other row : list Z) :
  (forall o u, deficit margin o u = Z.max (o + margin - u) 0) /\
  total_deficit margin other row <= total_deficit (margin + Z.of_nat d) other row /\
  (total_deficit margin other row = 0 <->
   forall j o u, other !! j = Some o -> row !! j = Some u -> o + margin <= u).
Proof.
  split; [intros; rewrite deficit_clamp; lia|]. split.
  - apply sum_zip_with_le. intros o u. rewrite !deficit_clamp. lia.
  - split.
    + intros Hzero j o u Ho Hu.
      pose proof (total_deficit_ge margin other row j o u Ho Hu) as Hle.
      rewrite Hzero, deficit_clamp in Hle. lia.
    + intros Hlead. apply sum_all_zero, Forall_forall.
      intros x (j & Hj)%list_elem_of_lookup.
      apply lookup_zip_with_Some in Hj as (o & u & -> & Ho & Hu).
      specialize (Hlead j o u Ho Hu). rewrite deficit_clamp. lia.
Qed.

Section MixedFacts.
Context {R : Rules}.
Variables (board : Board) (deck : Deck) (score other_score : Score).

Lemma randint_0_5 (r : nat) :
  Np.random_randint 0 5 r = Some (Z.of_nat (r mod 5)).
Proof.
  unfold Np.random_randint. change (5 <=? 0) with false. cbv iota.
  f_equal. rewrite Nat2Z.inj_mod, Z.sub_0_r. done.
Qed.

(** X4.  [choose_mixed_strategy_1_move] is [choose_reduce_deficit_move] with
    the margin [r mod 5] for the draw [r]: the margins are 0, 1, 2, 3, 4,
    each of them drawn, and 5 never. *)
Theorem mixed_strategy_1_margin (r : nat) :
  choose_mixed_strategy_1_move board deck score other_score r =
    choose_reduce_deficit_move board deck score other_score
      (Z.of_nat (r mod 5)) /\
  0 <= Z.of_nat (r mod 5) <= 4.
Proof.
  unfold choose_mixed_strategy_1_move. rewrite randint_0_5. split; [done|].
  pose proof (Nat.mod_upper_bound r 5). lia.
Qed.

(** X5.  [choose_mixed_strategy_2_move] runs, for the draw [r1], the
    strategy number [r1 mod 5] of Max, IncreaseMin, IncreaseOtherMin,
    ReduceDeficit with margin 5, Mixed1.  Its sixth branch, the random
    move, is never taken, and the call never falls off the end. *)
Theorem mixed_strategy_2_dispatch (r1 r2 : nat) :
  choose_mixed_strategy_2_move board deck score other_score r1 r2 =
  match (r1 mod 5)%nat with
  | 0%nat => choose_max_scoring_move board deck score
  | 1%nat => choose_increase_min_move board deck score
  | 2%nat => choose_increase_other_min_move board deck score other_score
  | 3%nat => choose_reduce_deficit_move board deck score other_score 5
  | _ => choose_mixed_strategy_1_move board deck score other_score r2
  end.
Proof.
  unfold choose_mixed_strategy_2_move. rewrite randint_0_5.
  pose proof (Nat.mod_upper_bound r1 5 ltac:(lia)) as Hlt.
  destruct (r1 mod 5)%nat as [|[|[|[|[|n]]]]]; try done. lia.
Qed.

(** X6.  On a batch with no candidates every heuristic raises: none of
    them returns a move. *)
Theorem heuristics_raise_on_empty_batch (margin : Z) (r r' : nat) :
  possible_moves_of board deck = [] ->
  updated_scores_of board deck score = [] ->
  choose_random_move board deck r = None /\
  choose_max_scoring_move board deck score = None /\
  choose_increase_min_move board deck score = None /\
  choose_increase_other_min_move board deck score other_score = None /\
  choose_reduce_deficit_move board deck score other_score margin = None /\
  choose_mixed_strategy_1_move board deck score other_score r = None /\
  choose_mixed_strategy_2_move board deck score other_score r r' = None.
Proof.
  intros Hp Hu.
  assert (Hmax : choose_max_scoring_move board deck score = None).
  { unfold choose_max_scoring_move. by rewrite Hu. }
  assert (Hinc : choose_increase_min_move board deck score = None).
  { unfold choose_increase_min_move. rewrite Hu.
    by destruct (Np.min (get_score score)). }
  assert (Hoth : choose_increase_other_min_move board deck score other_score = None).
  { unfold choose_increase_other_min_move. rewrite Hu.
    by destruct (Np.min (get_score other_score)). }
  assert (Hrd : forall m, choose_reduce_deficit_move board deck score other_score m = None).
  { intros m. unfold choose_reduce_deficit_move. by rewrite Hu. }
  assert (Hm1 : forall q, choose_mixed_strategy_1_move board deck score other_score q = None).
  { intros q. unfold choose_mixed_strategy_1_move. rewrite randint_0_5. apply Hrd. }
  split; [unfold choose_random_move; by rewrite Hp|].
  split; [done|]. split; [done|]. split; [done|]. split; [done|]. split; [done|].
  unfold choose_mixed_strategy_2_move. rewrite randint_0_5.
  pose proof (Nat.mod_upper_bound r 5 ltac:(lia)) as Hlt.
  destruct (r mod 5)%nat as [|[|[|[|[|n]]]]];
    [exact Hmax|exact Hinc|exact Hoth|exact (Hrd 5)|exact (Hm1 r')|lia].
Qed.

End MixedFacts.

Section ScheduleFacts.
Context {R : Rules}.

Lemma run_mixed3_margins (calls : list Call) (self final : MixedStrategy3.t)
    (margins : list Z) :
  run_mixed3 calls self = Some (margins, final) ->
  margins = map (fun i => MixedStrategy3.margin self - Z.of_nat i)
                (seq 0 (length calls)).
Proof.
  revert self margins; induction calls as [|c calls IH]; intros self margins.
  - by intros [= <- <-].
  - cbn -[Z.of_nat].
    destruct (MixedStrategy3.choose_move _ _ _ _ _ _ _) as [[ch self']|] eqn:Hc;
      [|done].
    cbn -[Z.of_nat].
    destruct (run_mixed3 calls self') as [[ms fin]|] eqn:Hrun; [|done].
    cbn -[Z.of_nat]. intros [= <- <-]. rewrite (IH _ _ Hrun).
    unfold MixedStrategy3.choose_move in Hc.
    destruct (choose_reduce_deficit_move _ _ _ _ _); [|done].
    cbn in Hc. destruct (choose_should_exchange _ _); [|done].
    injection Hc as _ <-. simpl. f_equal; [f_equal; lia|].
    rewrite <- seq_shift, map_map. apply map_ext. intros i. lia.
Qed.

(** X7.  [MixedStrategy3] lowers its margin by 1 on every call, without
    bound: call number [i] (from 0) of a strategy created with margin 15
    passes the margin [15 - i], and after [n] calls the margin is
    [15 - n]. *)
Theorem mixed3_margin_schedule (calls : list Call) (final : MixedStrategy3.t)
    (margins : list Z) :
  run_mixed3 calls MixedStrategy3.init = Some (margins, final) ->
  margins = map (fun i => 15 - Z.of_nat i) (seq 0 (length calls)) /\
  MixedStrategy3.margin final = 15 - Z.of_nat (length calls).
Proof.
  intros Hrun. split.
  - by rewrite (run_mixed3_margins _ _ _ _ Hrun).
  - by rewrite (run_mixed3_margin _ _ _ _ Hrun).
Qed.

Lemma run_mixed4_state (calls : list Call) (self final : MixedStrategy4.t)
    (margins : list Z) :
  0 <= MixedStrategy4.count self <= 4 ->
  run_mixed4 calls self = Some (margins, final) ->
  let phase := 4 - MixedStrategy4.count self in
  margins = map (fun i => MixedStrategy4.margin self - (phase + Z.of_nat i) / 5)
                (seq 0 (length calls)) /\
  MixedStrategy4.margin final =
    MixedStrategy4.margin self - (phase + Z.of_nat (length calls)) / 5 /\
  MixedStrategy4.count final = 4 - (phase + Z.of_nat (length calls)) mod 5.
Proof.
  revert self margins; induction calls as [|c calls IH]; intros self margins Hcount.
  - intros [= <- <-]. cbn -[Z.div Z.modulo].
    rewrite Z.add_0_r, Z.div_small, Z.mod_small by lia. split; [done|]. lia.
  - cbn -[Z.of_nat Z.div Z.modulo].
    destruct (MixedStrategy4.choose_move _ _ _ _ _ _ _) as [[ch self']|] eqn:Hc;
      [|done].
    cbn -[Z.of_nat Z.div Z.modulo].
    destruct (run_mixed4 calls self') as [[ms fin]|] eqn:Hrun; [|done].
    cbn -[Z.of_nat Z.div Z.modulo]. intros [= <- <-].
    unfold MixedStrategy4.choose_move in Hc.
    destruct (choose_reduce_deficit_move _ _ _ _ _); [|done].
    cbn -[Z.of_nat Z.div Z.modulo] in Hc.
    assert (Hself' : (MixedStrategy4.count self = 0 /\
                      self' = {| MixedStrategy4.margin := MixedStrategy4.margin self - 1;
                                 MixedStrategy4.count := 4 |}) \/
                     (MixedStrategy4.count self <> 0 /\
                      self' = {| MixedStrategy4.margin := MixedStrategy4.margin self;
                                 MixedStrategy4.count := MixedStrategy4.count self - 1 |})).
    { destruct (Z.eqb_spec (MixedStrategy4.count self) 0) as [E|E];
        cbn in Hc; destruct (choose_should_exchange _ _); try done;
        injection Hc as _ <-; [left|right]; done. }
    clear Hc.
    assert (Hcount' : 0 <= MixedStrategy4.count self' <= 4).
    { destruct Hself' as [[_ ->]|[? ->]]; simpl; lia. }
    destruct (IH self' ms Hcount' Hrun) as (Hms & Hfm & Hfc).
    assert (Hshift : forall k : Z, 0 <= k ->
      MixedStrategy4.margin self' - (4 - MixedStrategy4.count self' + k) / 5 =
      MixedStrategy4.margin self - (4 - MixedStrategy4.count self + (k + 1)) / 5 /\
      (4 - MixedStrategy4.count self' + k) mod 5 =
      (4 - MixedStrategy4.count self + (k + 1)) mod 5).
    { intros k Hk. destruct Hself' as [[E ->]|[E ->]]; simpl.
      - rewrite E. replace (4 - 4 + k) with k by lia.
        replace (4 - 0 + (k + 1)) with (k + 1 * 5) by lia.
        rewrite Z.div_add, Z.mod_add by lia. lia.
      - replace (4 - (MixedStrategy4.count self - 1) + k)
          with (4 - MixedStrategy4.count self + (k + 1)) by lia. done. }
    split; [|split].
    + simpl. f_equal.
      * rewrite Z.add_0_r, Z.div_small by lia. lia.
      * rewrite Hms, <- seq_shift, map_map. apply map_ext. intros i.
        destruct (Hshift (Z.of_nat i) ltac:(lia)) as [-> _]. f_equal. f_equal. lia.
    + rewrite Hfm. destruct (Hshift (Z.of_nat (length calls)) ltac:(lia)) as [-> _].
      f_equal. f_equal. simpl length. lia.
    + rewrite Hfc. destruct (Hshift (Z.of_nat (length calls)) ltac:(lia)) as [_ ->].
      f_equal. f_equal. simpl length. lia.
Qed.

(** X8.  [MixedStrategy4] lowers its margin by 1 on every fifth call,
    without bound: call number [i] (from 0) of a strategy created with
    margin 5 passes the margin [5 - i / 5], and after [n] calls the margin
    is [5 - n / 5] and the counter [4 - n mod 5]. *)
Theorem mixed4_margin_schedule (calls : list Call) (final : MixedStrategy4.t)
    (margins : list Z) :
  run_mixed4 calls MixedStrategy4.init = Some (margins, final) ->
  margins = map (fun i => 5 - Z.of_nat i / 5) (seq 0 (length calls)) /\
  MixedStrategy4.margin final = 5 - Z.of_nat (length calls) / 5 /\
  MixedStrategy4.count final = 4 - Z.of_nat (length calls) mod 5.
Proof.
  intros Hrun.
  destruct (run_mixed4_state calls MixedStrategy4.init final margins
              ltac:(simpl; lia) Hrun) as (Hms & Hfm & Hfc).
  simpl in Hms, Hfm, Hfc. done.
Qed.

End ScheduleFacts.

Section LearnedFacts.
Context {R : Rules} {E : Estimator}.

Lemma bind_None {A B} (m : M A) (k : A -> M B) w :
  (forall a w1, m w = Some (a, w1) -> k a w1 = None) -> bind m k w = None.
Proof. intros Hk. unfold bind. destruct (m w) as [[a w1]|]; [by apply Hk|done]. Qed.

Lemma bind_eq {A B} (m : M A) (k : A -> M B) w a w1 :
  m w = Some (a, w1) -> bind m k w = k a w1.
Proof. intros Hm. unfold bind. by rewrite Hm. Qed.

Lemma get_representations_same b d s o turn_of repr_fn w res w' :
  get_representations b d s o turn_of repr_fn w = Some (res, w') -> w' = w.
Proof.
  unfold get_representations. intros Hg.
  apply bind_Some in Hg as (? & ? & [_ ->]%lift_Some & Hg).
  apply bind_Some in Hg as (? & ? & [_ ->]%lift_Some & Hg).
  apply bind_Some in Hg as (? & ? & [_ ->]%lift_Some & Hg).
  apply bind_Some in Hg as (? & ? & [_ ->]%lift_Some & Hg).
  by injection Hg as _ <-.
Qed.

Lemma rank_same_objects self b d s o turn_of repr_fn w res w' :
  rank self b d s o turn_of repr_fn w = Some (res, w') -> same_objects w w'.
Proof.
  unfold rank. intros ([? ?] & w1 & Hg & Hrest)%bind_Some.
  apply get_representations_same in Hg as ->.
  apply bind_Some in Hrest as (? & w2 & Hp & Hrest).
  apply bind_Some in Hrest as (? & ? & [_ ->]%lift_Some & Hrest).
  injection Hrest as _ <-.
  unfold prepare_model_inputs in Hp. destruct (augment _ _).
  injection Hp as _ <-. done.
Qed.

(** X9.  [RLVanilla.choose_move] only reads the game: when it returns,
    the boards, score ledgers and decks of the store are those of the call,
    and no object was added. *)
Theorem vanilla_choose_move_reads_only (self : RLVanilla)
    (board deck score other_score : nat) (turn_of : Z) (repr_fn : ReprFn)
    (w w' : World) (res : (Move * Z) * fval) :
  choose_move self board deck score other_score turn_of repr_fn w
    = Some (res, w') ->
  same_objects w w'.
Proof.
  unfold choose_move. intros ([[? ?] ?] & w1 & Hrank & Hrest)%bind_Some.
  apply rank_same_objects in Hrank.
  apply bind_Some in Hrest as (? & ? & [_ ->]%lift_Some & Hrest).
  apply bind_Some in Hrest as (? & ? & [_ ->]%lift_Some & Hrest).
  apply bind_Some in Hrest as (? & ? & [_ ->]%lift_Some & Hrest).
  apply bind_Some in Hrest as (? & ? & [_ ->]%lift_Some & Hrest).
  by injection Hrest as _ <-.
Qed.

Lemma for_each_None {A S} (body : S -> A -> M S) (acc : S) (x : A) (xs : list A) w :
  body acc x w = None -> for_each body acc (x :: xs) w = None.
Proof. intros Hb. simpl. unfold bind. by rewrite Hb. Qed.

Lemma range_pos (n : Z) : 0 < n -> exists xs, Npf.range n = 0 :: xs.
Proof.
  intros Hn. unfold Npf.range. destruct (Z.to_nat n) as [|k] eqn:Hk; [lia|].
  simpl. eauto.
Qed.

Lemma range_nonpos (n : Z) : n <= 0 -> Npf.range n = [].
Proof. intros Hn. unfold Npf.range. by replace (Z.to_nat n) with 0%nat by lia. Qed.

(** X10.  When the encoder returns no row, each of the three learned
    strategies raises instead of returning a move. *)
Theorem learned_strategies_raise_without_rows (argsort : list fval -> list nat)
    (fuel : nat) (self : RLVanilla) (board deck score other_score : nat)
    (turn_of : Z) (repr_fn : ReprFn) (w w1 : World) (representations : Repr)
    (values : Npf.ndarray) :
  rank self board deck score other_score turn_of repr_fn w
    = Some ((representations, [], values), w1) ->
  choose_move self board deck score other_score turn_of repr_fn w = None /\
  RL2PlySearch.choose_move argsort fuel self board deck score other_score
    turn_of repr_fn w = None /\
  RL3PlySearch.choose_move argsort fuel self board deck score other_score
    turn_of repr_fn w = None.
Proof.
  intros Hrank. split; [|split].
  - unfold choose_move. rewrite (bind_eq _ _ _ _ _ Hrank).
    apply bind_None. intros i ? [_ ->]%lift_Some. done.
  - unfold RL2PlySearch.choose_move. rewrite (bind_eq _ _ _ _ _ Hrank). done.
  - unfold RL3PlySearch.choose_move. rewrite (bind_eq _ _ _ _ _ Hrank). done.
Qed.

Lemma branch2_scalar fuel self b d s o turn_of repr_fn moves v idxs top i w :
  RL2PlySearch.branch fuel self b d s o turn_of repr_fn moves (Npf.Scalar v)
    idxs top i w = None.
Proof.
  unfold RL2PlySearch.branch.
  do 6 (apply bind_None; intros ? ? _). done.
Qed.

Lemma branch3_scalar fuel self b d s o turn_of repr_fn moves v idxs top i w :
  RL3PlySearch.branch fuel self b d s o turn_of repr_fn moves (Npf.Scalar v)
    idxs top i w = None.
Proof.
  unfold RL3PlySearch.branch.
  do 6 (apply bind_None; intros ? ? _). done.
Qed.

(** X11.  A batch of exactly one row under a batch size limit above 1 is
    predicted as a zero-dimensional array ([torch.squeeze] drops its only
    axis), which cannot be indexed: each of the three learned strategies
    then raises instead of returning the only move. *)
Theorem learned_strategies_raise_on_single_row
    (argsort : list fval -> list nat) (fuel : nat) (self : RLVanilla)
    (board deck score other_score : nat) (turn_of : Z) (repr_fn : ReprFn)
    (w w0 : World) (representations : Repr) (moves : list Move)
    (inputs : list Grid * list Vect) (v : fval) :
  get_representations board deck score other_score turn_of repr_fn w
    = Some ((representations, moves), w) ->
  prepare_model_inputs representations w = Some (inputs, w0) ->
  length inputs.1 = 1%nat ->
  model inputs.1 inputs.2 = [v] ->
  1 < max_batch self ->
  predict_values (max_batch self) inputs = Some (Npf.Scalar v) /\
  choose_move self board deck score other_score turn_of repr_fn w = None /\
  RL2PlySearch.choose_move argsort fuel self board deck score other_score
    turn_of repr_fn w = None /\
  RL3PlySearch.choose_move argsort fuel self board deck score other_score
    turn_of repr_fn w = None.
Proof.
  intros Hg Hp Hlen Hmodel Hmb.
  assert (Hpred : predict_values (max_batch self) inputs = Some (Npf.Scalar v)).
  { unfold predict_values. rewrite Hlen.
    destruct (Z.eqb_spec (max_batch self) 0) as [?|_]; [lia|].
    rewrite Z.div_small by lia. simpl. unfold run_model. by rewrite Hmodel. }
  assert (Hrank : rank self board deck score other_score turn_of repr_fn w
                  = Some ((representations, moves, Npf.Scalar v), w0)).
  { unfold rank. rewrite (bind_eq _ _ _ _ _ Hg). cbv beta iota.
    rewrite (bind_eq _ _ _ _ _ Hp), Hpred. done. }
  split; [done|]. split; [|split].
  - unfold choose_move. rewrite (bind_eq _ _ _ _ _ Hrank). cbv beta iota.
    do 3 (apply bind_None; intros ? ? _). done.
  - unfold RL2PlySearch.choose_move. rewrite (bind_eq _ _ _ _ _ Hrank).
    cbv beta iota zeta.
    destruct (Z.lt_ge_cases 0 (Z.min search_n (Z.of_nat (length moves)))) as [Hk|Hk].
    + destruct (range_pos _ Hk) as [xs ->]. apply bind_None. intros top w2.
      rewrite for_each_None; [done|]. apply branch2_scalar.
    + rewrite range_nonpos by lia.
      replace (Z.to_nat (Z.min search_n (Z.of_nat (length moves)))) with 0%nat by lia.
      done.
  - unfold RL3PlySearch.choose_move. rewrite (bind_eq _ _ _ _ _ Hrank).
    cbv beta iota zeta.
    destruct (Z.lt_ge_cases 0 (Z.min search_n (Z.of_nat (length moves)))) as [Hk|Hk].
    + destruct (range_pos _ Hk) as [xs ->]. apply bind_None. intros top w2.
      rewrite for_each_None; [done|]. apply branch3_scalar.
    + rewrite range_nonpos by lia.
      replace (Z.to_nat (Z.min search_n (Z.of_nat (length moves)))) with 0%nat by lia.
      done.
Qed.

(** X12.  With a negative batch size limit [predict_values] runs no pass
    at all on a batch that has rows: it returns an empty array, no value
    for any row. *)
Theorem predict_values_negative_max_batch (max_batch : Z)
    (model_inputs : list Grid * list Vect) :
  max_batch < 0 -> model_inputs.1 <> [] ->
  predict_values max_batch model_inputs = Some (Npf.Vector []).
Proof.
  intros Hmb Hne. unfold predict_values.
  set (n := Z.of_nat (length model_inputs.1)).
  assert (Hn : 0 < n).
  { unfold n. destruct (model_inputs.1); [done|]. simpl length. lia. }
  destruct (Z.eqb_spec max_batch 0) as [?|_]; [lia|].
  pose proof (Z.mod_neg_bound n max_batch Hmb) as Hrem.
  pose proof (Z.div_mod n max_batch ltac:(lia)) as Hdm.
  assert (Hq : n / max_batch < 0) by nia.
  destruct (Z.eqb_spec (n / max_batch) 0) as [?|_]; [lia|].
  destruct (Z.ltb_spec 0 (n mod max_batch)) as [?|_]; [lia|].
  rewrite range_nonpos by lia. done.
Qed.

End LearnedFacts.

Section MockFacts.
Context {R : Rules} {E : Estimator}.

Lemma mock_move_effect mv b s d w res w' :
  mock_move mv b s d w = Some (res, w') ->
  res.1 = (b, s, d) /\
  length (boards w') = length (boards w) /\
  exists bv, boards w !! b = Some bv /\
             boards w' !! b = Some (update_board bv mv).
Proof.
  unfold mock_move.
  intros (bv & ? & [Hb ->]%lift_Some & Hrest)%bind_Some.
  apply bind_Some in Hrest as (sv & ? & [Hs ->]%lift_Some & Hrest).
  destruct (update_score sv _) as [s' [ingenious ?]].
  apply bind_Some in Hrest as (? & w1 & Hw1 & Hrest). injection Hw1 as _ <-.
  apply bind_Some in Hrest as (? & w2 & Hw2 & Hrest). injection Hw2 as _ <-.
  apply bind_Some in Hrest as (? & ? & [_ ->]%lift_Some & Hrest).
  apply bind_Some in Hrest as (? & ? & [_ ->]%lift_Some & Hrest).
  apply bind_Some in Hrest as (? & ? & [_ ->]%lift_Some & Hrest).
  apply bind_Some in Hrest as (? & w3 & Hw3 & Hrest). injection Hw3 as _ <-.
  injection Hrest as <- <-. simpl. split; [done|].
  rewrite length_insert. split; [done|]. exists bv. split; [done|].
  apply list_lookup_insert_eq. by eapply lookup_lt_Some.
Qed.

Lemma rank_boards self b d s o turn_of repr_fn w res w' :
  rank self b d s o turn_of repr_fn w = Some (res, w') -> boards w' = boards w.
Proof. by intros [? _]%rank_same_objects. Qed.

Lemma best_of_same moves values w res w' :
  best_of moves values w = Some (res, w') -> w' = w.
Proof.
  unfold best_of.
  intros (? & ? & [_ ->]%lift_Some & Hrest)%bind_Some.
  apply bind_Some in Hrest as (? & ? & [_ ->]%lift_Some & Hrest).
  apply bind_Some in Hrest as (? & ? & [_ ->]%lift_Some & Hrest).
  by injection Hrest as _ <-.
Qed.

Lemma mock_turn_boards (fuel : nat) (self : RLVanilla)
    (board score other_score deck : nat) (move : Move) (move_value : fval)
    (turn_of : Z) (repr_fn : ReprFn) (w w' : World)
    (res : nat * nat * nat * nat * bool * fval) :
  mock_turn fuel self (board, score, other_score, deck) move move_value turn_of
    repr_fn w = Some (res, w') ->
  length (boards w') = length (boards w).
Proof.
  revert move move_value w; induction fuel as [|fuel IH]; intros mv v w; simpl.
  - done.
  - intros ([[[b1 s1] d1] ingenious] & w1 & Hmove & Hrest)%bind_Some.
    apply mock_move_effect in Hmove as ([= -> -> ->] & Hlen & _).
    apply bind_Some in Hrest as (bv & ? & [Hbv ->]%lift_Some & Hrest).
    destruct (game_is_finished bv) eqn:Hfin.
    + apply bind_Some in Hrest as (sv & ? & [Hs ->]%lift_Some & Hrest).
      apply bind_Some in Hrest as (ov & ? & [Ho ->]%lift_Some & Hrest).
      by injection Hrest as _ <-.
    + destruct ingenious; simpl in Hrest.
      * apply bind_Some in Hrest as ([[? ?] ?] & w2 & Hrank & Hrest).
        apply rank_boards in Hrank.
        apply bind_Some in Hrest as ([[? ?] ?] & ? & ->%best_of_same & Hrest).
        apply IH in Hrest. congruence.
      * by injection Hrest as _ <-.
Qed.

(** X13.  When [mock_turn] returns, the state it returns is made of the
    references it was given; the flag it returns tells whether the board,
    as the turn left it, ends the game; and a finished game is valued 1 or
    -1 by comparing the winner with the [turn_of] of the call.  The number
    of boards in the store is unchanged. *)
Theorem mock_turn_outcome (fuel : nat) (self : RLVanilla)
    (board score other_score deck : nat) (move : Move) (move_value : fval)
    (turn_of : Z) (repr_fn : ReprFn) (w w' : World)
    (state' : nat * nat * nat * nat) (game_finished : bool) (value : fval) :
  mock_turn fuel self (board, score, other_score, deck) move move_value turn_of
    repr_fn w = Some ((state', game_finished, value), w') ->
  state' = (board, score, other_score, deck) /\
  length (boards w') = length (boards w) /\
  (exists b, boards w' !! board = Some b /\ game_is_finished b = game_finished) /\
  (game_finished = true ->
   exists s o,
     scores w' !! score = Some s /\ scores w' !! other_score = Some o /\
     value = if find_winner_fast (get_score_copy s) (get_score_copy o) =? turn_of
             then FFin 1 else FFin (-1)).
Proof.
  revert move move_value w; induction fuel as [|fuel IH]; intros mv v w; simpl.
  - done.
  - intros ([[[b1 s1] d1] ingenious] & w1 & Hmove & Hrest)%bind_Some.
    apply mock_move_effect in Hmove as ([= -> -> ->] & Hlen & _).
    apply bind_Some in Hrest as (bv & ? & [Hbv ->]%lift_Some & Hrest).
    destruct (game_is_finished bv) eqn:Hfin.
    + apply bind_Some in Hrest as (sv & ? & [Hs ->]%lift_Some & Hrest).
      apply bind_Some in Hrest as (ov & ? & [Ho ->]%lift_Some & Hrest).
      injection Hrest as <- <- <- <-. repeat split; eauto.
    + destruct ingenious; simpl in Hrest.
      * apply bind_Some in Hrest as ([[? ?] ?] & w2 & Hrank & Hrest).
        apply rank_boards in Hrank.
        apply bind_Some in Hrest as ([[? ?] ?] & ? & ->%best_of_same & Hrest).
        apply IH in Hrest as (-> & Hlen' & Hb & Hv).
        split; [done|]. split; [congruence|]. done.
      * injection Hrest as <- <- <- <-. repeat split; eauto. done.
Qed.

End MockFacts.

(** ** How many candidates a search simulates *)

Section BranchCount.
Context {R : Rules} {E : Estimator}.

Lemma allocates_bind {A B} (n k : nat) (m : M A) (f : A -> M B) :
  allocates_boards n m -> (forall a, allocates_boards k (f a)) ->
  allocates_boards (n + k) (bind m f).
Proof.
  intros Hm Hf w b w' (a & w1 & Ha & Hb)%bind_Some.
  rewrite (Hf a _ _ _ Hb), (Hm _ _ _ Ha). lia.
Qed.

Lemma allocates_ret {A} (a : A) : allocates_boards 0 (ret a).
Proof. intros w a' w' [= _ <-]. lia. Qed.

Lemma allocates_lift {A} (o : option A) : allocates_boards 0 (lift o).
Proof. intros w a w' [_ ->]%lift_Some. lia. Qed.

Lemma allocates_board_get_copy r : allocates_boards 1 (board_get_copy r).
Proof.
  intros w a w' (b & ? & [_ ->]%lift_Some & Ha)%bind_Some.
  injection Ha as _ <-. simpl. by rewrite length_app.
Qed.

Lemma allocates_score_get_copy r : allocates_boards 0 (score_get_copy r).
Proof.
  intros w a w' (b & ? & [_ ->]%lift_Some & Ha)%bind_Some.
  injection Ha as _ <-. simpl. lia.
Qed.

Lemma allocates_deck_get_copy r : allocates_boards 0 (deck_get_copy r).
Proof.
  intros w a w' (b & ? & [_ ->]%lift_Some & Ha)%bind_Some.
  injection Ha as _ <-. simpl. lia.
Qed.

Lemma allocates_deck_create_dummy_deck r :
  allocates_boards 0 (deck_create_dummy_deck r).
Proof.
  intros w a w' (b & ? & [_ ->]%lift_Some & Ha)%bind_Some.
  injection Ha as _ <-. simpl. lia.
Qed.

Lemma allocates_rank self b d s o turn_of repr_fn :
  allocates_boards 0 (rank self b d s o turn_of repr_fn).
Proof. intros w a w' ->%rank_boards. lia. Qed.

Lemma allocates_best_of moves values : allocates_boards 0 (best_of moves values).
Proof. intros w a w' ->%best_of_same. lia. Qed.

Lemma allocates_mock_turn fuel self st mv v turn_of repr_fn :
  allocates_boards 0 (mock_turn fuel self st mv v turn_of repr_fn).
Proof.
  destruct st as [[[b s] o] d]. intros w res w' Hrun.
  apply mock_turn_boards in Hrun as ->. lia.
Qed.

Lemma allocates_for_each {A S} (body : S -> A -> M S) (acc : S) (xs : list A) :
  (forall acc x, allocates_boards 1 (body acc x)) ->
  allocates_boards (length xs) (for_each body acc xs).
Proof.
  intros Hbody. revert acc; induction xs as [|x xs IH]; intros acc; simpl.
  - apply allocates_ret.
  - apply (allocates_bind 1 (length xs)); [apply Hbody|]. intros acc'. apply IH.
Qed.

Ltac alloc0 lem := apply (allocates_bind 0 _); [apply lem|].

Lemma allocates_branch2 fuel self b d s o turn_of repr_fn moves values idxs top i :
  allocates_boards 1
    (RL2PlySearch.branch fuel self b d s o turn_of repr_fn moves values idxs
       top i).
Proof.
  unfold RL2PlySearch.branch.
  apply (allocates_bind 1 0); [apply allocates_board_get_copy|]; intros ?.
  alloc0 allocates_score_get_copy; intros ?.
  alloc0 allocates_score_get_copy; intros ?.
  alloc0 allocates_deck_get_copy; intros ?.
  alloc0 @allocates_lift; intros ?.
  alloc0 @allocates_lift; intros ?.
  alloc0 @allocates_lift; intros ?.
  alloc0 allocates_mock_turn; intros [[[[[? ?] ?] ?] [|]] ?];
    [apply allocates_ret|].
  alloc0 allocates_deck_create_dummy_deck; intros ?.
  alloc0 allocates_rank; intros [[? ?] ?].
  alloc0 allocates_best_of; intros [[? ?] ?].
  alloc0 allocates_deck_create_dummy_deck; intros ?.
  alloc0 allocates_mock_turn; intros [[? ?] ?].
  apply allocates_ret.
Qed.

Lemma allocates_branch3 fuel self b d s o turn_of repr_fn moves values idxs top i :
  allocates_boards 1
    (RL3PlySearch.branch fuel self b d s o turn_of repr_fn moves values idxs
       top i).
Proof.
  unfold RL3PlySearch.branch.
  apply (allocates_bind 1 0); [apply allocates_board_get_copy|]; intros ?.
  alloc0 allocates_score_get_copy; intros ?.
  alloc0 allocates_score_get_copy; intros ?.
  alloc0 allocates_deck_get_copy; intros ?.
  alloc0 @allocates_lift; intros ?.
  alloc0 @allocates_lift; intros ?.
  alloc0 @allocates_lift; intros ?.
  alloc0 allocates_mock_turn; intros [[[[[? ?] ?] ?] [|]] ?];
    [apply allocates_ret|].
  alloc0 allocates_deck_create_dummy_deck; intros ?.
  alloc0 allocates_rank; intros [[? ?] ?].
  alloc0 allocates_best_of; intros [[? ?] ?].
  alloc0 allocates_deck_create_dummy_deck; intros ?.
  alloc0 allocates_mock_turn; intros [[[[[? ?] ?] ?] [|]] ?];
    [apply allocates_ret|].
  alloc0 allocates_rank; intros [[? ?] ?].
  alloc0 allocates_best_of; intros [[? ?] ?].
  alloc0 allocates_mock_turn; intros [[? ?] ?].
  apply allocates_ret.
Qed.

Lemma allocates_selection (top_k_indices : list nat) (moves : list Move)
    (representations : Repr) (top_k_values : list fval) :
  allocates_boards 0
    (let* k := lift (Npf.argmax_list top_k_values) in
     let* best_move_idx := lift (top_k_indices !! k) in
     let* best_move_value := lift (Npf.max top_k_values) in
     let* best_move := lift (moves !! best_move_idx) in
     let* should_exchange := exchange_flag representations best_move_idx in
     ret ((best_move, should_exchange), best_move_value)).
Proof.
  alloc0 @allocates_lift; intros ?.
  alloc0 @allocates_lift; intros ?.
  alloc0 @allocates_lift; intros ?.
  alloc0 @allocates_lift; intros ?.
  alloc0 @allocates_lift; intros ?.
  apply allocates_ret.
Qed.

Lemma length_range_min (n : nat) :
  length (Npf.range (Z.min search_n (Z.of_nat n))) = Nat.min 8 n.
Proof. unfold Npf.range, search_n. rewrite length_map, length_seq. lia. Qed.

(** X14.  A search simulates [min(8, rows)] candidates, one board copy
    each: when [RL2PlySearch.choose_move] or [RL3PlySearch.choose_move]
    returns, the store holds that many boards more than at the call, where
    [rows] is the number of rows the encoder returned for the position. *)
Theorem search_simulates_min_8_rows (argsort : list fval -> list nat)
    (fuel : nat) (self : RLVanilla) (board deck score other_score : nat)
    (turn_of : Z) (repr_fn : ReprFn) (w : World) :
  (forall res w',
     RL2PlySearch.choose_move argsort fuel self board deck score other_score
       turn_of repr_fn w = Some (res, w') ->
     exists representations moves values w1,
       rank self board deck score other_score turn_of repr_fn w
         = Some ((representations, moves, values), w1) /\
       length (boards w') = (length (boards w) + Nat.min 8 (length moves))%nat) /\
  (forall res w',
     RL3PlySearch.choose_move argsort fuel self board deck score other_score
       turn_of repr_fn w = Some (res, w') ->
     exists representations moves values w1,
       rank self board deck score other_score turn_of repr_fn w
         = Some ((representations, moves, values), w1) /\
       length (boards w') = (length (boards w) + Nat.min 8 (length moves))%nat).
Proof.
  split; intros res w'.
  - unfold RL2PlySearch.choose_move.
    intros ([[representations moves] values] & w1 & Hrank & Hrest)%bind_Some.
    exists representations, moves, values, w1. split; [done|].
    rewrite <- (rank_boards _ _ _ _ _ _ _ _ _ _ Hrank).
    rewrite <- length_range_min, <- (Nat.add_0_r (length (Npf.range _))).
    revert Hrest. apply allocates_bind.
    + apply allocates_for_each. intros acc x. apply allocates_branch2.
    + intros top. apply allocates_selection.
  - unfold RL3PlySearch.choose_move.
    intros ([[representations moves] values] & w1 & Hrank & Hrest)%bind_Some.
    exists representations, moves, values, w1. split; [done|].
    rewrite <- (rank_boards _ _ _ _ _ _ _ _ _ _ Hrank).
    rewrite <- length_range_min, <- (Nat.add_0_r (length (Npf.range _))).
    revert Hrest. apply allocates_bind.
    + apply allocates_for_each. intros acc x. apply allocates_branch3.
    + intros top. apply allocates_selection.
Qed.

End BranchCount.

Section StackedRows.
Context {A : Type}.
Implicit Types (x y : list A) (idxs : list nat).

Lemma take_idxs_app x idxs1 idxs2 l1 l2 :
  Np.take_idxs x idxs1 = Some l1 -> Np.take_idxs x idxs2 = Some l2 ->
  Np.take_idxs x (idxs1 ++ idxs2) = Some (l1 ++ l2).
Proof.
  unfold Np.take_idxs. rewrite !mapM_Some. apply Forall2_app.
Qed.

Lemma take_idxs_seq x y :
  Np.take_idxs (x ++ y) (seq 0 (length x)) = Some x.
Proof.
  unfold Np.take_idxs. apply mapM_Some.
  apply Forall2_same_length_lookup_2; [by rewrite length_seq|].
  intros i j a Hj Ha. apply lookup_seq in Hj as [-> _].
  by apply lookup_app_l_Some.
Qed.

Lemma take_idxs_shift x y idxs :
  Np.take_idxs (x ++ y) (map (fun j => (length x + j)%nat) idxs) =
  Np.take_idxs y idxs.
Proof.
  unfold Np.take_idxs. induction idxs as [|j idxs IH]; [done|].
  cbn. rewrite lookup_app_r by lia.
  replace (length x + j - length x)%nat with j by lia.
  destruct (y !! j); [|done]. cbn. by rewrite IH.
Qed.

Lemma take_idxs_stacked x y idxs sel :
  Np.take_idxs y idxs = Some sel ->
  Np.take_idxs (x ++ y)
    (seq 0 (length x) ++ map (fun j => (length x + j)%nat) idxs)
  = Some (x ++ sel).
Proof.
  intros Hsel. apply take_idxs_app; [apply take_idxs_seq|].
  by rewrite take_idxs_shift.
Qed.

End StackedRows.

Lemma where_eq_from_add (k k' : nat) (a : list Z) (v : Z) :
  Np.where_eq_from (k + k') a v =
  map (fun j => (k + j)%nat) (Np.where_eq_from k' a v).
Proof.
  revert k'; induction a as [|x a IH]; intros k'; [done|]. simpl.
  rewrite <- Nat.add_succ_r, IH. by destruct (x =? v).
Qed.

Lemma where_eq_from_shift (k : nat) (a : list Z) (v : Z) :
  Np.where_eq_from k a v = map (fun j => (k + j)%nat) (Np.where_eq a v).
Proof. rewrite <- (Nat.add_0_r k) at 1. apply where_eq_from_add. Qed.

Lemma where_eq_lt (a : list Z) (v : Z) :
  Forall (fun j => (j < length a)%nat) (Np.where_eq a v).
Proof.
  apply Forall_forall. intros j Hj%where_eq_lookup. by eapply lookup_lt_Some.
Qed.

Section ValidIdxs.
Import RepresentationGenerator.

Lemma valid_idxs_app (i : nat) (c1 c2 s1 s2 : list Z) :
  length c1 = length s1 ->
  valid_idxs_from i (c1 ++ c2) (s1 ++ s2) =
  valid_idxs_from i c1 s1 ++ valid_idxs_from (i + length c1) c2 s2.
Proof.
  revert i s1; induction c1 as [|c c1 IH]; intros i [|s s1] Hlen;
    try discriminate; simpl.
  - by rewrite Nat.add_0_r.
  - injection Hlen as Hlen. rewrite (IH (S i) s1 Hlen).
    replace (S i + length c1)%nat with (i + S (length c1))%nat by lia.
    by destruct (_ || _).
Qed.

Lemma valid_idxs_dont_exchange (i : nat) (can : list Z) :
  Forall (fun c => c = 0 \/ c = 1) can ->
  valid_idxs_from i can (replicate (length can) 0) = seq i (length can).
Proof.
  intros Hcan; revert i; induction Hcan as [|c can Hc _ IH]; intros i; [done|].
  simpl. rewrite IH. by destruct Hc as [-> | ->].
Qed.

Lemma valid_idxs_do_exchange (i : nat) (can : list Z) :
  valid_idxs_from i can (replicate (length can) 1) = Np.where_eq_from i can 1.
Proof.
  revert i; induction can as [|c can IH]; intros i; [done|].
  simpl. rewrite IH. rewrite andb_false_r. done.
Qed.

Lemma valid_idxs_stacked (can : list Z) :
  Forall (fun c => c = 0 \/ c = 1) can ->
  valid_idxs_from 0 (can ++ can)
    (replicate (length can) 0 ++ replicate (length can) 1) =
  seq 0 (length can) ++
  map (fun j => (length can + j)%nat) (Np.where_eq can 1).
Proof.
  intros Hcan. rewrite valid_idxs_app by (by rewrite length_replicate).
  rewrite valid_idxs_dont_exchange by done.
  by rewrite valid_idxs_do_exchange, where_eq_from_shift.
Qed.

Context {R : Rules}.

Lemma general_rows_lookup (board : Board) (flag : Z)
    (ingenious num_ingenious can_exchange : list Z) (j : nat) (row : list Z) :
  general_rows board flag ingenious num_ingenious can_exchange !! j = Some row ->
  exists a b c,
    can_exchange !! j = Some c /\ row = general_row board flag a b c.
Proof.
  unfold general_rows.
  intros (f & c & -> & Hf & Hc)%lookup_zip_with_Some.
  apply lookup_zip_with_Some in Hf as (a & b & -> & _ & _). eauto.
Qed.

Lemma general_rows_length (board : Board) (flag : Z)
    (ingenious num_ingenious can_exchange : list Z) (b : nat) :
  length ingenious = b -> length num_ingenious = b -> length can_exchange = b ->
  length (general_rows board flag ingenious num_ingenious can_exchange) = b.
Proof.
  intros H1 H2 H3. unfold general_rows. rewrite !length_zip_with. lia.
Qed.

End ValidIdxs.

Section EncoderRows.
Context {R : Rules}.
Import RepresentationGenerator RepresentationsBuffer.

Lemma scores_rows (updated : list (list Z)) (other : list Z) :
  mapM (fun idx => row ← updated !! idx; Some [row; other])
       (seq 0 (length updated))
  = Some (map (fun row => [row; other]) updated).
Proof.
  apply mapM_Some. apply Forall2_same_length_lookup_2.
  - by rewrite length_seq, length_map.
  - intros i j y Hj Hy. apply lookup_seq in Hj as [-> _].
    rewrite list_lookup_fmap in Hy.
    simpl. destruct (updated !! i); simpl in *; congruence.
Qed.

Lemma where_eq_from_length (n : nat) (l : list Z) (v : Z) :
  (length (Np.where_eq_from n l v) <= length l)%nat.
Proof.
  revert n. induction l as [|c l IH]; intros n; simpl; [lia|].
  destruct (c =? v); simpl; specialize (IH (S n)); lia.
Qed.

Lemma map_const_replicate {A B} (f : A -> B) (l : list A) (v : B) :
  Forall (fun x => f x = v) l -> map f l = replicate (length l) v.
Proof.
  induction 1 as [|x l Hx _ IH]; [done|]. simpl. by rewrite Hx, IH.
Qed.

Lemma take_idxs_rows {A} (x y : list A) (b : nat) (idxs : list nat) :
  length x = b -> length y = b -> Forall (fun j => (j < b)%nat) idxs ->
  exists sel,
    Np.take_idxs y idxs = Some sel /\ length sel = length idxs /\
    Np.take_idxs (x ++ y) (seq 0 b ++ map (fun j => (b + j)%nat) idxs)
    = Some (x ++ sel).
Proof.
  intros Hx Hy Hidxs.
  destruct (take_idxs_Some y idxs) as [sel Hsel]; [by rewrite Hy|].
  exists sel. split; [done|]. split; [by eapply take_idxs_length|].
  rewrite <- Hx. by apply take_idxs_stacked.
Qed.

(** X15.  For a batch of [b] candidates that the rules engine answers with
    aligned arrays, [generate_batched] returns [b + k] rows, where [k]
    counts the candidates after which tiles can be exchanged: first one row
    per candidate with the exchange flag 0, then, in order, one row with the
    flag 1 for each candidate that allows the exchange.  The moves returned
    are the candidates followed by those [k] candidates again, the buffer is
    non-empty with every array of [size] rows, and a row with the exchange
    flag set always has the can-exchange flag set. *)
Theorem generate_batched_rows (board : Board) (deck : Deck)
    (score other_score : Score) (turn_of : Z) (possible_moves : list Move) :
  batch_aligned board deck score possible_moves ->
  Z.of_nat (2 * length possible_moves) < 2 ^ 31 ->
  let can_exchange := can_exchange_of board deck score possible_moves in
  let b := length possible_moves in
  let k := length (Np.where_eq can_exchange 1) in
  exists buf moves sel,
    generate_batched board deck score other_score turn_of possible_moves
      = Some (buf, moves) /\
    Np.take_idxs possible_moves (Np.where_eq can_exchange 1) = Some sel /\
    moves = map (map uint8) (possible_moves ++ sel) /\
    size buf = Z.of_nat (b + k) /\
    empty buf = 0 /\
    rows_match_size buf /\
    map (fun row => row !! 3%nat) (general_repr buf)
      = replicate b (Some 0) ++ replicate k (Some 1) /\
    Forall (fun row => row !! 3%nat = Some 1 -> row !! 2%nat = Some 1)
           (general_repr buf).
Proof.
  unfold batch_aligned, can_exchange_of, generate_batched.
  destruct (batch_peek_next_scores score _)
    as [[updated ingenious] num_ingenious] eqn:Hpeek.
  cbn [fst snd]. intros (Hboard & Hdeck & Hupd & Hing & Hnum & Hcan & H01) Hsmall.
  set (can := batch_peek_can_exchange_tiles _ updated) in *.
  set (b := length possible_moves) in *.
  assert (Hb : length possible_moves = b) by done. clearbody b.
  cbv zeta.
  set (idxs := Np.where_eq can 1).
  assert (Hidxs : Forall (fun j => (j < b)%nat) idxs).
  { rewrite <- Hcan. apply where_eq_lt. }
  rewrite <- (f_equal (seq 0) Hupd). rewrite scores_rows. cbn [mbind option_bind].
  rewrite Hing, Hnum, Hcan, !Nat.eqb_refl. cbn [andb].
  case_guard; [|done]. cbn [mbind option_bind].
  assert (Hvalid : RepresentationGenerator.valid_idxs_from 0 (can ++ can)
                      (replicate b 0 ++ replicate b 1)
                    = seq 0 b ++ map (fun j => (b + j)%nat) idxs).
  { rewrite <- Hcan. by apply valid_idxs_stacked. }
  rewrite Hvalid. clear Hvalid.
  destruct (take_idxs_rows possible_moves possible_moves b idxs)
    as (sel & Hsel & Hlsel & ->); [done..|].
  destruct (take_idxs_rows _ _ b idxs Hboard Hboard Hidxs)
    as (selb & _ & Hlselb & ->).
  destruct (take_idxs_rows _ _ b idxs Hdeck Hdeck Hidxs)
    as (seld & _ & Hlseld & ->).
  destruct (take_idxs_rows (map (fun row => [row; get_score other_score]) updated)
              (map (fun row => [row; get_score other_score]) updated) b idxs)
    as (sels & _ & Hlsels & ->); [by rewrite length_map..|done|].
  destruct (take_idxs_rows
              (general_rows board 0 ingenious num_ingenious can)
              (general_rows board 1 ingenious num_ingenious can) b idxs)
    as (selg & Hselg & Hlselg & ->);
    [by apply general_rows_length..|done|].
  cbn [mbind option_bind].
  eexists. eexists. exists sel. split; [reflexivity|].
  split; [done|]. split; [done|].
  assert (Hsize : int32_add 0 (Z.of_nat (length (batch_get_updated_states board possible_moves ++ selb)))
                  = Z.of_nat (b + length idxs)).
  { rewrite length_app, Hboard, Hlselb. unfold int32_add.
    assert (Hk : (length idxs <= b)%nat).
    { rewrite <- Hcan. apply where_eq_from_length. }
    rewrite Z.mod_small; lia. }
  split; [exact Hsize|]. split; [done|].
  assert (Hrows : forall {A} (x sel' : list A), length x = b -> length sel' = length idxs ->
             length (x ++ sel') = Z.to_nat (Z.of_nat (b + length idxs))).
  { intros A x sel' Hx Hs. rewrite length_app, Hx, Hs. lia. }
  split.
  { eexists. cbn. split; [reflexivity|]. rewrite Hsize.
    split; [lia|].
    split; [by apply Hrows|]. split; [by apply Hrows|].
    split; [rewrite length_map; apply Hrows; [by rewrite length_map|done]|].
    split; [rewrite length_map; apply Hrows; [by apply general_rows_length|done]|].
    rewrite !length_replicate, length_app, length_seq, length_map. lia. }
  unfold set_batched_reprs_from_scratch, RepresentationGenerator.get_new_reprs_buffer.
  cbn [general_repr].
  assert (Hdont : Forall (fun row => map uint8 row !! 3%nat = Some 0)
                         (general_rows board 0 ingenious num_ingenious can)).
  { apply Forall_forall. intros row (j & Hj)%list_elem_of_lookup.
    apply general_rows_lookup in Hj as (x & y & c & _ & ->). done. }
  assert (Hdo : Forall (fun row => map uint8 row !! 3%nat = Some 1 /\
                                   map uint8 row !! 2%nat = Some 1) selg).
  { apply Forall_forall. intros row (i & Hi)%list_elem_of_lookup.
    assert (Hij : is_Some (idxs !! i)).
    { apply lookup_lt_is_Some. rewrite <- Hlselg. by eapply lookup_lt_Some. }
    destruct Hij as [j Hj].
    rewrite (take_idxs_lookup _ _ _ _ _ Hselg Hj) in Hi.
    apply general_rows_lookup in Hi as (x & y & c & Hc & ->).
    assert (c = 1) as ->.
    { assert (Hin : j ∈ idxs) by (eapply list_elem_of_lookup_2; eauto).
      apply where_eq_lookup in Hin. congruence. }
    done. }
  split.
  - rewrite map_map, map_app.
    rewrite (map_const_replicate _ _ (Some 0) Hdont).
    rewrite (map_const_replicate _ _ (Some 1)
               (Forall_impl _ _ _ Hdo (fun _ H => proj1 H))).
    by rewrite (general_rows_length board 0 ingenious num_ingenious can b),
       Hlselg.
  - rewrite Forall_fmap, Forall_app. split.
    + eapply Forall_impl; [exact Hdont|]. simpl. intros row -> [=].
    + eapply Forall_impl; [exact Hdo|]. simpl. intros row [_ ->] _. done.
Qed.

End EncoderRows.

Section BufferFacts.
Context {R : Rules}.
Import RepresentationsBuffer.

Lemma int32_add_small (x y : Z) :
  - 2 ^ 31 <= x + y < 2 ^ 31 -> int32_add x y = x + y.
Proof. intros H. unfold int32_add. rewrite Z.mod_small; lia. Qed.

Lemma int32_small (x : Z) : - 2 ^ 31 <= x < 2 ^ 31 -> int32 x = x.
Proof. intros H. unfold int32. rewrite int32_add_small; lia. Qed.

Lemma slice_prefix {A} (k : Z) (a : list A) :
  0 <= k -> Npf.slice 0 k a = take (Z.to_nat k) a.
Proof.
  intros Hk. unfold Npf.slice, Npf.slice_bound.
  change (0 <? 0) with false. cbv iota.
  destruct (Z.ltb_spec k 0) as [?|_]; [lia|].
  replace (Z.max 0 (Z.min (Z.of_nat (length a)) 0)) with 0 by lia.
  rewrite Z.sub_0_r. change (Z.to_nat 0) with 0%nat. rewrite drop_0.
  destruct (Z.min_spec (Z.of_nat (length a)) k) as [[H ->]|[H ->]].
  - rewrite Z.max_r by lia. rewrite Nat2Z.id.
    rewrite !take_ge; [done|lia|lia].
  - rewrite Z.max_r by lia. done.
Qed.


Lemma slice_prefix_length {A} (k n : Z) (a : list A) :
  length a = Z.to_nat n -> 0 <= k -> 0 <= n ->
  length (Npf.slice 0 k a) = Z.to_nat (Z.min k n).
Proof.
  intros Ha Hk Hn. rewrite slice_prefix by done. rewrite length_take. lia.
Qed.



(** X18.  [clip_to_size] keeps the first [required_size] rows and sets
    [size] to [required_size] whatever the number of rows: the arrays hold
    [min(required_size, size)] rows, so the buffer's arrays match its size
    afterwards exactly when [required_size] is not above the old size. *)
Theorem clip_to_size_rows (self : t) (required_size : Z) :
  rows_match_size self -> 0 <= required_size < 2 ^ 31 ->
  exists buf,
    clip_to_size self required_size = Some buf /\
    size buf = required_size /\
    length (board_repr buf) = Z.to_nat (Z.min required_size (size self)) /\
    board_repr buf = take (Z.to_nat required_size) (board_repr self) /\
    (rows_match_size buf <-> required_size <= size self).
Proof.
  intros (ts & Hts & Hs0 & Hs1 & Hs2 & Hs3 & Hs4 & Hs5 & Hs6) Hk.
  unfold clip_to_size. rewrite Hts. cbn.
  eexists. split; [reflexivity|]. cbn.
  rewrite int32_small by lia.
  split; [done|].
  split; [by apply slice_prefix_length; lia|].
  split; [apply slice_prefix; lia|].
  split.
  - intros (ts' & _ & _ & Hb & _). cbn in Hb.
    rewrite (slice_prefix_length _ (size self)) in Hb by (done || lia). lia.
  - intros Hle. eexists. cbn. split; [reflexivity|].
    rewrite !(slice_prefix_length _ (size self)) by (done || lia).
    rewrite Z.min_l by lia. split_and!; try done; lia.
Qed.

End BufferFacts.

(** X20.  For a positive [max_train_batch_size] the number of loss
    accumulations is the ceiling of
    [effective_batch_size / max_train_batch_size]: that many sub-batches
    cover the effective batch, and one fewer does not. *)
Theorem accumulate_loss_is_ceiling (effective_batch_size max_train_batch_size : Z) :
  0 < max_train_batch_size ->
  exists n,
    accumulate_loss_n_times effective_batch_size max_train_batch_size = Some n /\
    (n - 1) * max_train_batch_size < effective_batch_size
      <= n * max_train_batch_size.
Proof.
  intros Hmax. unfold accumulate_loss_n_times.
  destruct (max_train_batch_size =? 0) eqn:E0; [lia|].
  pose proof (Z.div_mod effective_batch_size max_train_batch_size) as Hdm.
  pose proof (Z.mod_pos_bound effective_batch_size max_train_batch_size Hmax).
  destruct (_ mod _ =? 0) eqn:E.
  - apply Z.eqb_eq in E. eexists. split; [reflexivity|]. nia.
  - apply Z.eqb_neq in E. eexists. split; [reflexivity|]. nia.
Qed.

Section LearningRateFacts.
Context {LR : Type} (lt : LR -> LR -> bool) (times_tenth : LR -> LR).
Hypothesis lt_irrefl : forall x, lt x x = false.

Local Abbreviation step := (step_learning_rate_scheduling LR lt times_tenth).

(** X21.  A call of [step_learning_rate_scheduling] with [improved=True]
    clears the step counter, whatever [elapsed_steps] is, and leaves a
    learning rate that is not below the restart rate: the old rate, or the
    restart rate itself. *)
Theorem improved_step_restarts (p : ScheduleParams LR) (self : Schedule LR)
    (elapsed_steps : Z) :
  let self' := (step p self true elapsed_steps).1 in
  steps_since_improvement LR self' = 0 /\
  lt (lr_tracker LR self') (restart_learning_rate LR p) = false /\
  (lr_tracker LR self' = lr_tracker LR self \/
   lr_tracker LR self' = restart_learning_rate LR p).
Proof.
  cbn. destruct (lt (lr_tracker LR self) (restart_learning_rate LR p)) eqn:E;
    cbn; rewrite ?lt_irrefl, ?E; auto.
Qed.

(** X22.  The step counter is not cleared when the learning rate is
    reduced: once it has reached the threshold, every further call with
    [improved=False] multiplies the learning rate by 0.1 again, so [n] such
    calls leave [lr * 0.1^n], and the counter holds the sum of all elapsed
    steps. *)
Theorem stalled_steps_keep_reducing (p : ScheduleParams LR) (self : Schedule LR)
    (elapsed : list Z) :
  reduce_lr_step_threshold LR p <= steps_since_improvement LR self ->
  Forall (fun e => 0 <= e) elapsed ->
  let self' := stall LR lt times_tenth p self elapsed in
  steps_since_improvement LR self'
    = steps_since_improvement LR self + foldr Z.add 0 elapsed /\
  lr_tracker LR self' = Nat.iter (length elapsed) times_tenth (lr_tracker LR self).
Proof.
  intros Hthr Hpos. revert self Hthr.
  induction Hpos as [|e elapsed He _ IH]; intros self Hthr; cbn.
  - split; [lia|done].
  - destruct (Z.leb_spec (reduce_lr_step_threshold LR p)
                (steps_since_improvement LR self + e)) as [Hle|Hgt]; [|lia].
    destruct (IH {| steps_since_improvement := steps_since_improvement LR self + e;
                    lr_tracker := times_tenth (lr_tracker LR self) |})
      as [IH1 IH2]; [cbn; lia|].
    cbn in IH1, IH2. split; [rewrite IH1; lia|].
    rewrite IH2. apply Nat.iter_swap.
Qed.

End LearningRateFacts.

Section OffsetGridFacts.
Context {A : Type}.

Lemma offset_step_ext (get get' : nat -> nat -> option (list A))
    (grid : list (list (list A))) (i j : nat) :
  ((i mod 2 =? 0)%nat && negb (j <? 10)%nat = false -> get j i = get' j i) ->
  offset_step get grid i j = offset_step get' grid i j.
Proof.
  unfold offset_step. intros H.
  destruct (i mod 2 =? 0)%nat; [destruct (j <? 10)%nat|];
    try done; by rewrite H.
Qed.

Lemma offset_inner_ext (get get' : nat -> nat -> option (list A))
    (i : nat) (js : list nat) (grid : list (list (list A))) :
  Forall (fun j => (i mod 2 =? 0)%nat && negb (j <? 10)%nat = false ->
                   get j i = get' j i) js ->
  offset_inner get grid i js = offset_inner get' grid i js.
Proof.
  intros H. revert grid. induction H as [|j js Hj _ IH]; intros grid; [done|].
  simpl. rewrite (offset_step_ext get get' grid i j Hj).
  destruct (offset_step get' grid i j); [apply IH|done].
Qed.

Lemma offset_outer_ext (get get' : nat -> nat -> option (list A))
    (is_ : list nat) (grid : list (list (list A))) :
  Forall (fun i => Forall (fun j =>
            (i mod 2 =? 0)%nat && negb (j <? 10)%nat = false ->
            get j i = get' j i) (seq 0 11)) is_ ->
  offset_outer get grid is_ = offset_outer get' grid is_.
Proof.
  intros H. revert grid. induction H as [|i is_ Hi _ IH]; intros grid; [done|].
  cbn [offset_outer]. rewrite (offset_inner_ext get get' i _ grid Hi).
  destruct (offset_inner get' grid i (seq 0 11)); [apply IH|done].
Qed.

(** X19.  [offset_grid] lays an 11 x 11 board out on an 11 x 21 grid:
    row [i] of the grid holds board cell [(j, i)] at column [2j + 1] when
    [i] is even and at column [2j] when [i] is odd, and zeros elsewhere.
    On even rows only [j < 10] is copied: the board cells [(10, i)] with
    [i] even are never read. *)
Theorem offset_grid_layout (c : nat) (zero : A)
    (board : list (list (list A))) (f : nat -> nat -> list A) :
  (forall i j, (i < 11)%nat -> (j < 11)%nat ->
               (Nat.odd i = true \/ (j < 10)%nat) ->
               cell_at board j i = Some (f j i)) ->
  offset_grid_example c zero board = Some (offset_layout c zero f).
Proof.
  intros Hcells. unfold offset_grid_example.
  rewrite (offset_outer_ext (cell_at board) (fun j i => Some (f j i))).
  - reflexivity.
  - apply Forall_forall. intros i Hi%elem_of_seq.
    apply Forall_forall. intros j Hj%elem_of_seq Hread.
    apply Hcells; [lia..|].
    destruct (Nat.odd i) eqn:Hodd; [by left|right].
    destruct (Nat.ltb_spec j 10); [done|].
    rewrite andb_false_iff in Hread. destruct Hread as [Hread|Hread]; [|done].
    apply Nat.eqb_neq in Hread.
    rewrite <- Nat.negb_even, negb_false_iff in Hodd.
    apply Nat.even_spec in Hodd as [k ->].
    rewrite Nat.mul_comm, Nat.Div0.mod_mul in Hread. done.
Qed.

End OffsetGridFacts.
(** ** The further properties on the example data *)

Section MoreOnToy.
Import Toy Examples MoreExamples.

Lemma max_choice_is_first_largest_gain_witness :
  possible_moves_of deficit_board one_tile <> [] /\
  exists i mv,
    choose_max_scoring_move deficit_board one_tile behind = Some mv /\
    possible_moves_of deficit_board one_tile !! i = Some mv.
Proof.
  split; [discriminate|].
  destruct (max_choice_is_first_largest_gain (R := rules) deficit_board
              one_tile behind ltac:(discriminate) eq_refl)
    as (i & mv & row & Hc & Hmv & _).
  exists i, mv. split; [exact Hc|exact Hmv].
Defined.

Lemma increase_other_min_selection_witness :
  possible_moves_of deficit_board one_tile <> [] /\
  get_score leader <> [] /\
  exists m best,
    Np.min (get_score leader) = Some m /\
    Np.max (map (fun row => Np.sum (Np.cols row (Np.where_eq (get_score leader) m)))
                (updated_scores_of deficit_board one_tile behind)) = Some best.
Proof.
  split; [discriminate|]. split; [discriminate|].
  destruct (increase_other_min_selection (R := rules) deficit_board one_tile
              behind leader ltac:(discriminate) eq_refl ltac:(discriminate))
    as (m & best & Hm & Hbest & _).
  exists m, best. split; [exact Hm|exact Hbest].
Defined.

Lemma heuristics_raise_on_empty_batch_witness :
  possible_moves_of blocked_board hand = [] /\
  choose_max_scoring_move blocked_board hand behind = None /\
  choose_mixed_strategy_2_move blocked_board hand behind leader 3 4 = None.
Proof.
  split; [reflexivity|].
  destruct (heuristics_raise_on_empty_batch (R := rules) blocked_board hand
              behind leader 5 3 4 eq_refl eq_refl)
    as (_ & Hmax & _ & _ & _ & _ & Hmixed).
  split; [exact Hmax|exact Hmixed].
Defined.

Lemma mixed3_margin_schedule_witness :
  exists margins final,
    run_mixed3 [call; call; call] MixedStrategy3.init = Some (margins, final) /\
    margins = [15; 14; 13] /\ MixedStrategy3.margin final = 12.
Proof.
  eexists. eexists. split; [vm_compute; reflexivity|].
  exact (mixed3_margin_schedule (R := rules) [call; call; call] _ _ eq_refl).
Defined.

Lemma mixed4_margin_schedule_witness :
  exists margins final,
    run_mixed4 (replicate 6 call) MixedStrategy4.init = Some (margins, final) /\
    margins = [5; 5; 5; 5; 5; 4] /\
    MixedStrategy4.margin final = 4 /\ MixedStrategy4.count final = 3.
Proof.
  eexists. eexists. split; [vm_compute; reflexivity|].
  exact (mixed4_margin_schedule (R := rules) (replicate 6 call) _ _ eq_refl).
Defined.

Lemma vanilla_choose_move_reads_only_witness :
  exists res w',
    choose_move strategy 0 0 0 1 1 repr_fn live = Some (res, w') /\
    same_objects live w'.
Proof.
  eexists. eexists. split; [vm_compute; reflexivity|].
  eapply (vanilla_choose_move_reads_only (R := rules) (E := estimator)
            strategy 0 0 0 1 1 repr_fn live).
  vm_compute. reflexivity.
Defined.

Lemma learned_strategies_raise_without_rows_witness :
  (exists representations values w1,
     rank strategy 0 0 0 1 1 repr_fn blocked
       = Some ((representations, [], values), w1)) /\
  choose_move strategy 0 0 0 1 1 repr_fn blocked = None /\
  RL2PlySearch.choose_move stable_argsort 5 strategy 0 0 0 1 1 repr_fn blocked
    = None /\
  RL3PlySearch.choose_move stable_argsort 5 strategy 0 0 0 1 1 repr_fn blocked
    = None.
Proof.
  split; [eexists; eexists; eexists; vm_compute; reflexivity|].
  eapply (learned_strategies_raise_without_rows (R := rules) (E := estimator)
            stable_argsort 5 strategy 0 0 0 1 1 repr_fn blocked).
  vm_compute. reflexivity.
Defined.

Lemma learned_strategies_raise_on_single_row_witness :
  1 < max_batch strategy /\
  (exists v, predict_values (max_batch strategy) ([60], [0]) = Some (Npf.Scalar v)) /\
  choose_move strategy 0 0 0 1 1 repr_fn forced = None /\
  RL2PlySearch.choose_move stable_argsort 5 strategy 0 0 0 1 1 repr_fn forced
    = None /\
  RL3PlySearch.choose_move stable_argsort 5 strategy 0 0 0 1 1 repr_fn forced
    = None.
Proof.
  split; [reflexivity|].
  destruct (learned_strategies_raise_on_single_row (R := rules) (E := estimator)
              stable_argsort 5 strategy 0 0 0 1 1 repr_fn forced _ _ _ _ _
              eq_refl eq_refl eq_refl eq_refl eq_refl)
    as (Hp & H1 & H2 & H3).
  split; [eexists; exact Hp|]. split; [exact H1|]. split; [exact H2|exact H3].
Defined.

Lemma predict_values_negative_max_batch_witness :
  -1 < 0 /\
  predict_values (-1) ([60; 40], [0; 0]) = Some (Npf.Vector []).
Proof.
  split; [reflexivity|].
  exact (predict_values_negative_max_batch (E := estimator) (-1) ([60; 40], [0; 0])
           eq_refl ltac:(discriminate)).
Defined.

Lemma mock_turn_outcome_witness :
  exists game_finished value w',
    mock_turn 5 strategy (0, 0, 1, 0)%nat [1; 60; 0; 0; 0; 0; 2; 3] (FFin 0) 1
      repr_fn live
      = Some (((0, 0, 1, 0)%nat, game_finished, value), w') /\
    length (boards w') = length (boards live).
Proof.
  eexists. eexists. eexists. split; [vm_compute; reflexivity|].
  eapply (mock_turn_outcome (R := rules) (E := estimator) 5 strategy
            0 0 1 0 [1; 60; 0; 0; 0; 0; 2; 3] (FFin 0) 1 repr_fn live).
  vm_compute. reflexivity.
Defined.

Lemma search_simulates_min_8_rows_witness :
  (exists res w',
     RL2PlySearch.choose_move stable_argsort 5 strategy 0 0 0 1 1 repr_fn live
       = Some (res, w') /\
     exists representations moves values w1,
       rank strategy 0 0 0 1 1 repr_fn live
         = Some ((representations, moves, values), w1) /\
       length (boards w') = (length (boards live) + Nat.min 8 (length moves))%nat) /\
  (exists res w',
     RL3PlySearch.choose_move stable_argsort 5 strategy 0 0 0 1 1 repr_fn live
       = Some (res, w') /\
     exists representations moves values w1,
       rank strategy 0 0 0 1 1 repr_fn live
         = Some ((representations, moves, values), w1) /\
       length (boards w') = (length (boards live) + Nat.min 8 (length moves))%nat).
Proof.
  destruct (search_simulates_min_8_rows (R := rules) (E := estimator)
              stable_argsort 5 strategy 0 0 0 1 1 repr_fn live) as [H2 H3].
  split.
  - eexists. eexists. split; [vm_compute; reflexivity|].
    eapply H2. vm_compute. reflexivity.
  - eexists. eexists. split; [vm_compute; reflexivity|].
    eapply H3. vm_compute. reflexivity.
Defined.

Lemma last_tile_batch_aligned :
  batch_aligned short_game one_tile behind last_tile_moves.
Proof.
  unfold batch_aligned. vm_compute.
  split_and!; try reflexivity.
  repeat (apply Forall_cons_2; [by right|]). apply Forall_nil_2.
Qed.

Lemma generate_batched_rows_witness :
  batch_aligned short_game one_tile behind last_tile_moves /\
  exists buf moves,
    RepresentationGenerator.generate_batched short_game one_tile behind ahead 1
      last_tile_moves = Some (buf, moves) /\
    moves = last_tile_moves ++ last_tile_moves /\
    RepresentationsBuffer.size buf = 4 /\
    map (fun row => row !! 3%nat) (RepresentationsBuffer.general_repr buf)
      = [Some 0; Some 0; Some 1; Some 1].
Proof.
  split; [exact last_tile_batch_aligned|].
  destruct (generate_batched_rows (R := rules) short_game one_tile behind ahead 1
              last_tile_moves last_tile_batch_aligned eq_refl)
    as (buf & moves & sel & Hgen & Hsel & Hmoves & Hsize & _ & _ & Hflags & _).
  exists buf, moves. split; [exact Hgen|].
  vm_compute in Hsel. injection Hsel as <-.
  split; [exact Hmoves|]. split; [exact Hsize|exact Hflags].
Defined.

Lemma two_rows_match : rows_match_size two_rows.
Proof. exists [1; 1]. by split_and!. Qed.




Lemma clip_to_size_rows_witness :
  rows_match_size two_rows /\
  exists buf,
    clip_to_size two_rows 5 = Some buf /\
    RepresentationsBuffer.size buf = 5 /\
    length (RepresentationsBuffer.board_repr buf) = 2%nat /\
    ~ rows_match_size buf.
Proof.
  split; [exact two_rows_match|].
  assert (Hk : 0 <= 5 < 2 ^ 31) by (split; [discriminate|reflexivity]).
  pose proof (clip_to_size_rows (R := rules) two_rows 5 two_rows_match Hk) as H.
  destruct H as (buf & Hc & Hsize & Hlen & _ & Hiff).
  exists buf. split; [exact Hc|]. split; [exact Hsize|]. split; [exact Hlen|].
  intros Hrows. apply Hiff in Hrows. revert Hrows. vm_compute. intros Hrows.
  apply Hrows. reflexivity.
Defined.

Lemma numbered_cells (i j : nat) :
  (i < 11)%nat -> (j < 11)%nat ->
  cell_at numbered_board j i = Some (numbered_cell j i).
Proof.
  intros Hi Hj. unfold cell_at, numbered_board.
  rewrite list_lookup_fmap, (lookup_seq_lt 0 11 j Hj). cbn [fmap option_fmap option_map mbind option_bind].
  rewrite list_lookup_fmap, (lookup_seq_lt 0 11 i Hi). done.
Qed.

Lemma offset_grid_layout_witness :
  offset_grid_example 1 0 numbered_board
    = Some (offset_layout 1 0 numbered_cell).
Proof.
  apply (offset_grid_layout 1%nat 0 numbered_board numbered_cell).
  intros i j Hi Hj _. exact (numbered_cells i j Hi Hj).
Defined.

Lemma accumulate_loss_is_ceiling_witness :
  0 < 4 /\
  exists n, accumulate_loss_n_times 10 4 = Some n /\
            (n - 1) * 4 < 10 <= n * 4.
Proof.
  split; [reflexivity|].
  exact (accumulate_loss_is_ceiling 10 4 eq_refl).
Defined.

Lemma improved_step_restarts_witness :
  (forall x, Z.ltb x x = false) /\
  steps_since_improvement Z
    (step_learning_rate_scheduling Z Z.ltb tenth slow
       {| steps_since_improvement := 250; lr_tracker := 10 |} true 50).1 = 0 /\
  lr_tracker Z
    (step_learning_rate_scheduling Z Z.ltb tenth slow
       {| steps_since_improvement := 250; lr_tracker := 10 |} true 50).1 = 1000.
Proof.
  split; [exact Z.ltb_irrefl|].
  destruct (improved_step_restarts Z.ltb tenth Z.ltb_irrefl slow
              {| steps_since_improvement := 250; lr_tracker := 10 |} 50)
    as (Hsteps & _ & _).
  split; [exact Hsteps|reflexivity].
Defined.

Lemma stalled_steps_keep_reducing_witness :
  reduce_lr_step_threshold Z slow <= steps_since_improvement Z stalled /\
  steps_since_improvement Z (stall Z Z.ltb tenth slow stalled [10; 0; 10]) = 120 /\
  lr_tracker Z (stall Z Z.ltb tenth slow stalled [10; 0; 10]) = 1.
Proof.
  split; [discriminate|].
  exact (stalled_steps_keep_reducing Z.ltb tenth slow stalled [10; 0; 10]
           ltac:(discriminate)
           ltac:(repeat constructor; discriminate)).
Defined.

End MoreOnToy.
